(** * HDP-LDA (Chinese Restaurant Franchise) sampler state: model and properties

    A shallow embedding of [include/microscopes/lda/model.hpp] and
    [include/microscopes/lda/util.hpp].

    Modelling conventions.
    - [size_t] counters ([m], [m_k], [n_jt], the values of [n_jtv]) are [N]
      with the 64-bit wrap-around written out ([sz_inc], [sz_dec]).
      Identifiers that index vectors (documents, words, tables, dishes) and
      vocabulary ids are [nat].
    - A [std::vector] is a [list]; an access outside its bounds is undefined
      behaviour in the source and the failure [OutOfRange] here.
    - [assert] depends on the build ([Build]): with [NDEBUG] it does
      nothing, without it a failed assertion is [AssertFailed]. Every theorem
      holds for both builds.
    - [float] is an interface ([FloatOps]): every definition and every
      bookkeeping theorem holds for any implementation of it.  Two
      implementations are given: IEEE-754 binary32 ([binary32_ops], on the
      Standard Library's [spec_float]) and exact rationals ([exact_ops]).
    - Eigen's [sum] is the scalar left-to-right reduction and [v /= s] the
      coefficient-wise quotient.
    - The categorical sampler, the generator it advances, [exp],
      [fast_log] and [fast_lgamma] are collaborators outside the
      repository: they are interfaces ([Sampler], [SpecialFns]). *)

From Stdlib Require Import ZArith NArith QArith Qabs Lia.
From Stdlib Require Import Floats.SpecFloat.
From stdpp Require Import base option list gmap sorting.

Local Open Scope nat_scope.

(** ** Failures and the result monad *)

Inductive failure : Set :=
| OutOfRange          (* vector access outside its bounds *)
| AssertFailed        (* assert(...) *)
| InvalidProbability  (* validate_probability_vector *)
| CheckFailed.        (* MICROSCOPES_DCHECK *)

Inductive result (A : Type) : Type :=
| Ok (a : A)
| Err (e : failure).
Arguments Ok {A} a.
Arguments Err {A} e.

#[global] Instance result_ret : MRet result := fun _ a => Ok a.
#[global] Instance result_bind : MBind result := fun _ _ f r =>
  match r with Ok a => f a | Err e => Err e end.

(** [<assert.h>]: what [assert] does depends on whether the build defines
    [NDEBUG]. *)
Class Build := {
  NDEBUG : bool;
}.

Definition assert `{Build} (c : bool) : result unit :=
  if NDEBUG then Ok tt else if c then Ok tt else Err AssertFailed.

(** [MICROSCOPES_DCHECK] comes from microscopes/common and is not part of
    the repository: it is taken as a parameter, the flag [debug_mode]
    saying whether the check is compiled in. *)
Definition MICROSCOPES_DCHECK (debug_mode : bool) (c : bool) : result unit :=
  if debug_mode && negb c then Err CheckFailed else Ok tt.

(** Vector reads and writes. *)
Definition rd {A} (l : list A) (i : nat) : result A :=
  match l !! i with Some a => Ok a | None => Err OutOfRange end.

Definition wr {A} (l : list A) (i : nat) (a : A) : result (list A) :=
  if decide (i < length l) then Ok (<[i := a]> l) else Err OutOfRange.

Definition rd2 {A} (l : list (list A)) (j i : nat) : result A :=
  row ← rd l j; rd row i.

Definition wr2 {A} (l : list (list A)) (j i : nat) (a : A)
  : result (list (list A)) :=
  row ← rd l j; row' ← wr row i a; wr l j row'.

Fixpoint mapR {A B} (f : A → result B) (l : list A) : result (list B) :=
  match l with
  | [] => Ok []
  | a :: l' => b ← f a; bs ← mapR f l'; Ok (b :: bs)
  end.

Fixpoint foldR {A S} (f : S → A → result S) (s : S) (l : list A) : result S :=
  match l with
  | [] => Ok s
  | a :: l' => s' ← f s a; foldR f s' l'
  end.

(** ** [size_t] arithmetic *)

Definition SIZE_MOD : N := 2 ^ 64.
Definition sz_inc (x : N) : N := ((x + 1) mod SIZE_MOD)%N.
Definition sz_dec (x : N) : N := ((x + (SIZE_MOD - 1)) mod SIZE_MOD)%N.
Definition is_size (x : N) : Prop := (x < SIZE_MOD)%N.

(** ** The [float] interface *)

Class FloatOps (F : Type) := {
  f_of_size : N → F;            (* conversion of an integer *)
  f_add : F → F → F;
  f_sub : F → F → F;
  f_mul : F → F → F;
  f_div : F → F → F;
  f_abs : F → F;
  f_eqb : F → F → bool;         (* == *)
  f_ltb : F → F → bool;         (* <  *)
  f_isfinite : F → bool;
  f_lt_tolerance : F → bool;    (* x < 0.01, the literal being a double *)
}.

(** What exact arithmetic adds, and rounding arithmetic lacks. *)
Class ExactDiv (F : Type) `{FloatOps F} := {
  f_div_add : ∀ a b t : F, f_div (f_add a b) t = f_add (f_div a t) (f_div b t);
  f_div_same : ∀ t : F, f_eqb t (f_of_size 0) = false → f_div t t = f_of_size 1;
}.


Class SpecialFns (F : Type) := {
  fast_log : F → F;
  fast_lgamma : F → F;
  f_exp : F → F;
}.

Class Sampler (F R : Type) := {
  sample_discrete : list F → R → nat * R;
}.

(** IEEE-754 binary32. The literal 0.01 is a [double]: a [float] compared
    with it is first promoted (exactly) to binary64, [SFltb] comparing two
    numbers of one format. *)
Definition b32_of_size (n : N) : spec_float :=
  binary_normalize 24 128 (Z.of_N n) 0 false.

Definition b32_isfinite (x : spec_float) : bool :=
  match x with
  | S754_zero _ | S754_finite _ _ _ => true
  | S754_infinity _ | S754_nan => false
  end.

Definition double_0_01 : spec_float :=
  SFdiv 53 1024 (binary_normalize 53 1024 1 0 false)
                (binary_normalize 53 1024 100 0 false).

Definition b32_promote (x : spec_float) : spec_float :=
  match x with
  | S754_finite s mx ex => binary_round 53 1024 s mx ex
  | _ => x
  end.

#[global] Instance binary32_ops : FloatOps spec_float := {|
  f_of_size := b32_of_size;
  f_add := SFadd 24 128;
  f_sub := SFsub 24 128;
  f_mul := SFmul 24 128;
  f_div := SFdiv 24 128;
  f_abs := SFabs;
  f_eqb := SFeqb;
  f_ltb := SFltb;
  f_isfinite := b32_isfinite;
  f_lt_tolerance := fun x => SFltb (b32_promote x) double_0_01;
|}.

(** Exact rationals, kept in lowest terms so that equal numbers are equal
    terms. *)
#[global] Instance exact_ops : FloatOps Q := {|
  f_of_size := fun n => inject_Z (Z.of_N n);
  f_add := fun a b => Qred (a + b);
  f_sub := fun a b => Qred (a - b);
  f_mul := fun a b => Qred (a * b);
  f_div := fun a b => Qred (a / b);
  f_abs := fun a => Qred (Qabs a);
  f_eqb := Qeq_bool;
  f_ltb := fun a b => negb (Qle_bool b a);
  f_isfinite := fun _ => true;
  f_lt_tolerance := fun a => negb (Qle_bool (1 # 100) a);
|}.

(** A sampler that replays a recorded list of draws: the generator is the
    list of draws not yet consumed (index 0 once it is exhausted). *)
#[global] Instance replay_sampler {F} : Sampler F (list nat) := {|
  sample_discrete := fun _ r =>
    match r with
    | [] => (0, [])
    | d :: r' => (d, r')
    end;
|}.

(** ** util.hpp *)

Section Util.
Context {F : Type} `{FloatOps F}.

Definition f_zero : F := f_of_size 0.
Definition f_one : F := f_of_size 1.

(** The loop of [valid_probability_vector]: [None] is the early
    [return false], [Some sum] the accumulated sum. *)
Fixpoint valid_loop (p : list F) (sum : F) : option F :=
  match p with
  | [] => Some sum
  | x :: p' =>
      if negb (f_isfinite x) then None
      else if f_ltb x f_zero then None
      else valid_loop p' (f_add sum x)
  end.

Definition valid_probability_vector (p : list F) : bool :=
  match valid_loop p f_zero with
  | None => false
  | Some sum => f_lt_tolerance (f_abs (f_sub f_one sum))
  end.

(** Modelled from the spec: [validate_probability_vector], which
    [sampling_t] and [sampling_k] call, is not in util.hpp. The spec makes
    a vector that is not finite, non-negative and summing to 1 within 0.01
    a fatal failure, the test being [valid_probability_vector]. *)
Definition validate_probability_vector (p : list F) : result unit :=
  if valid_probability_vector p then Ok tt else Err InvalidProbability.

Fixpoint removeFirst {A} `{EqDecision A} (v : list A) (element : A) : list A :=
  match v with
  | [] => []
  | x :: v' => if decide (x = element) then v' else x :: removeFirst v' element
  end.

Definition selectByIndex {A} (v : list A) (index : list nat) : result (list A) :=
  mapR (rd v) index.

(** Eigen's [sum()]. *)
Definition eigen_sum (v : list F) : F :=
  match v with
  | [] => f_zero
  | x :: v' => fold_left f_add v' x
  end.

(** Eigen's [dot] on vectors of one size. *)
Definition eigen_dot (a b : list F) : result F :=
  if decide (length a = length b)
  then Ok (eigen_sum (zip_with f_mul a b))
  else Err OutOfRange.

Definition normalize (v : list F) : list F :=
  let s := eigen_sum v in (λ x, f_div x s) <$> v.

(** [std::max_element]: the first greatest element under [<]. *)
Definition max_element (v : list F) : result F :=
  match v with
  | [] => Err OutOfRange
  | x :: v' => Ok (fold_left (λ largest y, if f_ltb largest y then y else largest) v' x)
  end.

(** [defaultdict<size_t, float>] *)
Record defaultdict : Type := Defaultdict {
  default_value : F;
  dd_map : gmap nat F;
}.

Definition dd_new (val : F) : defaultdict := Defaultdict val ∅.

Definition dd_get (d : defaultdict) (t : nat) : F :=
  match dd_map d !! t with
  | Some x => x
  | None => default_value d
  end.

Definition dd_set (d : defaultdict) (t : nat) (j : F) : defaultdict :=
  Defaultdict (default_value d) (<[t := j]> (dd_map d)).

Definition dd_incr (d : defaultdict) (t : nat) (by_ : F) : defaultdict :=
  match dd_map d !! t with
  | Some x => Defaultdict (default_value d) (<[t := f_add x by_]> (dd_map d))
  | None => Defaultdict (default_value d) (<[t := f_add by_ (default_value d)]> (dd_map d))
  end.

Definition dd_decr (d : defaultdict) (t : nat) (by_ : F) : defaultdict :=
  match dd_map d !! t with
  | Some x => Defaultdict (default_value d) (<[t := f_sub x by_]> (dd_map d))
  | None => Defaultdict (default_value d) (<[t := f_sub (default_value d) by_]> (dd_map d))
  end.

Definition dd_contains (d : defaultdict) (t : nat) : bool :=
  bool_decide (is_Some (dd_map d !! t)).

(** [std::map<size_t, size_t>]: [operator[]] reads 0 at an absent key and
    iteration is in increasing key order. *)
Definition map_at (mp : gmap nat N) (v : nat) : N := default 0%N (mp !! v).

Definition key_le (a b : nat * N) : Prop := a.1 ≤ b.1.

#[global] Instance key_le_dec : RelDecision key_le.
Proof. intros a b. unfold key_le. apply _. Defined.

Definition map_items (mp : gmap nat N) : list (nat * N) :=
  merge_sort key_le (map_to_list mp).
End Util.

Arguments defaultdict F : clear implicits.

(** [unique_members] and the [max_element] of util.hpp, at [T = size_t]. The
    name [max_element] is taken above by [std::max_element], hence the
    module. *)
Module lda_util.

Definition unique_members (nested_list : list (list nat)) : gset nat :=
  foldl (λ unique_values lst,
           foldl (λ unique_values val, {[val]} ∪ unique_values) unique_values lst)
        ∅ nested_list.

(** The set is walked in increasing order; taking [*end()] of an empty set
    is undefined behaviour. *)
Definition max_element (nested_list : list (list nat)) : result nat :=
  let unique_values : gset nat :=
    foldl (λ unique_values lst,
             foldl (λ unique_values val, {[val]} ∪ unique_values) unique_values lst)
          ∅ nested_list in
  match merge_sort le (elements unique_values) with
  | [] => Err OutOfRange
  | x :: v => Ok (fold_left (λ largest y, if decide (largest < y) then y else largest) v x)
  end.

End lda_util.

(** ** model.hpp *)

Record model_definition : Type := Model_definition {
  n_ : N;
  v_ : N;
}.

Definition model_definition_new (debug_mode : bool) (n v : N)
  : result model_definition :=
  _ ← MICROSCOPES_DCHECK debug_mode (bool_decide (0 < n)%N);
  _ ← MICROSCOPES_DCHECK debug_mode (bool_decide (0 < v)%N);
  Ok (Model_definition n v).

Section Model.
Context {F R : Type} `{Build} `{FloatOps F} `{SpecialFns F} `{Sampler F R}.

Record state : Type := State {
  V : N;  (* size of vocabulary *)
  m : N;  (* total number of active tables *)
  alpha_ : F;  (* second level concentration *)
  beta_ : F;  (* word pseudo-count *)
  gamma_ : F;  (* first level concentration *)
  rng_ : R;  (* random number generator *)
  using_t : list (list nat);  (* table index (t=0 means to draw a new table) *)
  dishes_ : list nat;  (* dish index (k=0 means to draw a new dish) *)
  x_ji : list (list nat);  (* vocabulary for each document and term *)
  k_jt : list (list nat);  (* topics of document and table *)
  n_jt : list (list N);  (* number of terms for each table of document *)
  n_jtv : list (list (gmap nat N));  (* occurrences of each term for each table of document *)
  m_k : list N;  (* number of tables for each topic *)
  n_k : defaultdict F;  (* number of terms for each topic (+ beta * V) *)
  n_kv_ : list (defaultdict F);  (* number of terms for each topic and vocabulary (+ beta) *)
  t_ji : list (list nat);  (* table for each document and term *)
}.

Definition set_m (st : state) (x : N) : state :=
  State (V st) x (alpha_ st) (beta_ st) (gamma_ st) (rng_ st) (using_t st) (dishes_ st) (x_ji st) (k_jt st) (n_jt st) (n_jtv st) (m_k st) (n_k st) (n_kv_ st) (t_ji st).

Definition set_rng_ (st : state) (x : R) : state :=
  State (V st) (m st) (alpha_ st) (beta_ st) (gamma_ st) x (using_t st) (dishes_ st) (x_ji st) (k_jt st) (n_jt st) (n_jtv st) (m_k st) (n_k st) (n_kv_ st) (t_ji st).

Definition set_using_t (st : state) (x : list (list nat)) : state :=
  State (V st) (m st) (alpha_ st) (beta_ st) (gamma_ st) (rng_ st) x (dishes_ st) (x_ji st) (k_jt st) (n_jt st) (n_jtv st) (m_k st) (n_k st) (n_kv_ st) (t_ji st).

Definition set_dishes_ (st : state) (x : list nat) : state :=
  State (V st) (m st) (alpha_ st) (beta_ st) (gamma_ st) (rng_ st) (using_t st) x (x_ji st) (k_jt st) (n_jt st) (n_jtv st) (m_k st) (n_k st) (n_kv_ st) (t_ji st).

Definition set_k_jt (st : state) (x : list (list nat)) : state :=
  State (V st) (m st) (alpha_ st) (beta_ st) (gamma_ st) (rng_ st) (using_t st) (dishes_ st) (x_ji st) x (n_jt st) (n_jtv st) (m_k st) (n_k st) (n_kv_ st) (t_ji st).

Definition set_n_jt (st : state) (x : list (list N)) : state :=
  State (V st) (m st) (alpha_ st) (beta_ st) (gamma_ st) (rng_ st) (using_t st) (dishes_ st) (x_ji st) (k_jt st) x (n_jtv st) (m_k st) (n_k st) (n_kv_ st) (t_ji st).

Definition set_n_jtv (st : state) (x : list (list (gmap nat N))) : state :=
  State (V st) (m st) (alpha_ st) (beta_ st) (gamma_ st) (rng_ st) (using_t st) (dishes_ st) (x_ji st) (k_jt st) (n_jt st) x (m_k st) (n_k st) (n_kv_ st) (t_ji st).

Definition set_m_k (st : state) (x : list N) : state :=
  State (V st) (m st) (alpha_ st) (beta_ st) (gamma_ st) (rng_ st) (using_t st) (dishes_ st) (x_ji st) (k_jt st) (n_jt st) (n_jtv st) x (n_k st) (n_kv_ st) (t_ji st).

Definition set_n_k (st : state) (x : defaultdict F) : state :=
  State (V st) (m st) (alpha_ st) (beta_ st) (gamma_ st) (rng_ st) (using_t st) (dishes_ st) (x_ji st) (k_jt st) (n_jt st) (n_jtv st) (m_k st) x (n_kv_ st) (t_ji st).

Definition set_n_kv_ (st : state) (x : list (defaultdict F)) : state :=
  State (V st) (m st) (alpha_ st) (beta_ st) (gamma_ st) (rng_ st) (using_t st) (dishes_ st) (x_ji st) (k_jt st) (n_jt st) (n_jtv st) (m_k st) (n_k st) x (t_ji st).

Definition set_t_ji (st : state) (x : list (list nat)) : state :=
  State (V st) (m st) (alpha_ st) (beta_ st) (gamma_ st) (rng_ st) (using_t st) (dishes_ st) (x_ji st) (k_jt st) (n_jt st) (n_jtv st) (m_k st) (n_k st) (n_kv_ st) x.

(** The constructor [state::state]. *)
Definition initialize (def : model_definition) (alpha beta gamma : F)
    (docs : list (list nat)) (rng : R) : state :=
  {| V := v_ def;
     m := 0;
     alpha_ := alpha;
     beta_ := beta;
     gamma_ := gamma;
     rng_ := rng;
     using_t := (λ _, [0]) <$> docs;
     dishes_ := [0];
     x_ji := docs;
     k_jt := (λ _, [0]) <$> docs;
     n_jt := (λ _, [0%N]) <$> docs;
     n_jtv := (λ _, [∅]) <$> docs;
     m_k := [1%N];
     n_k := dd_new (f_mul beta (f_of_size (v_ def)));
     n_kv_ := [dd_new beta];
     t_ji := (λ d, replicate (length d) 0) <$> docs |}.

(** [model_definition] followed by [state::state], as a caller builds a
    state. *)
Definition construct (debug_mode : bool) (n v : N) (alpha beta gamma : F)
    (docs : list (list nat)) (rng : R) : result state :=
  def ← model_definition_new debug_mode n v;
  Ok (initialize def alpha beta gamma docs rng).

Definition assignments (debug_mode : bool) (st : state)
  : result (list (list Z)) :=
  _ ← MICROSCOPES_DCHECK debug_mode false;
  Ok [].

Definition dish_assignments (debug_mode : bool) (st : state)
  : result (list (gmap nat nat)) :=
  _ ← MICROSCOPES_DCHECK debug_mode false;
  Ok [].

Definition table_assignments (debug_mode : bool) (st : state)
  : result (list (list nat)) :=
  _ ← MICROSCOPES_DCHECK debug_mode false;
  Ok [].

(** Both scores are [const] members: the state they leave is the state
    they were given. *)
Definition score_assignment (st : state) : F * state := (f_of_size 0, st).

Definition score_data (st : state) (rng : R) : F * state := (f_of_size 0, st).

Definition nentities (st : state) : nat := length (x_ji st).
(** [dishes_.size() - 1], in [size_t]. *)
Definition ntopics (st : state) : N := sz_dec (N.of_nat (length (dishes_ st))).
Definition nwords (st : state) : N := V st.
Definition nterms (st : state) (eid : nat) : result nat :=
  row ← rd (x_ji st) eid; Ok (length row).
Definition ntables (st : state) (eid : nat) : result nat :=
  row ← rd (using_t st) eid; Ok (length row).
Definition tables (st : state) (eid : nat) : result (list nat) :=
  rd (using_t st) eid.
Definition dishes (st : state) : list nat := dishes_ st.

Definition delete_dish (st : state) (did : nat) : state :=
  set_dishes_ st (removeFirst (dishes_ st) did).

Definition delete_table (st : state) (eid tid : nat) : result state :=
  k ← rd2 (k_jt st) eid tid;
  row ← rd (using_t st) eid;
  using_t' ← wr (using_t st) eid (removeFirst row tid);
  mk ← rd (m_k st) k;
  m_k' ← wr (m_k st) k (sz_dec mk);
  let st' := set_m (set_m_k (set_using_t st using_t') m_k') (sz_dec (m st)) in
  _ ← assert (bool_decide (0 ≤ sz_dec mk)%N);
  if decide (sz_dec mk = 0%N) then Ok (delete_dish st' k) else Ok st'.

Definition remove_table (st : state) (eid tid : nat) : result state :=
  t ← rd2 (t_ji st) eid tid;
  if decide (0 < t) then
    k ← rd2 (k_jt st) eid t;
    _ ← assert (bool_decide (0 < k));
    v ← rd2 (x_ji st) eid tid;
    d ← rd (n_kv_ st) k;
    n_kv' ← wr (n_kv_ st) k (dd_decr d v f_one);
    let n_k' := dd_decr (n_k st) k f_one in
    c ← rd2 (n_jt st) eid t;
    n_jt' ← wr2 (n_jt st) eid t (sz_dec c);
    mp ← rd2 (n_jtv st) eid t;
    n_jtv' ← wr2 (n_jtv st) eid t (<[v := sz_dec (map_at mp v)]> mp);
    let st' := set_n_jtv (set_n_jt (set_n_k (set_n_kv_ st n_kv') n_k') n_jt') n_jtv' in
    if decide (sz_dec c = 0%N) then delete_table st' eid t else Ok st'
  else Ok st.

Definition add_table (st : state) (ein t_new did : nat) : result state :=
  t_ji' ← wr2 (t_ji st) ein did t_new;
  c ← rd2 (n_jt st) ein t_new;
  n_jt' ← wr2 (n_jt st) ein t_new (sz_inc c);
  k_new ← rd2 (k_jt st) ein t_new;
  let n_k' := dd_incr (n_k st) k_new f_one in
  v ← rd2 (x_ji st) ein did;
  d ← rd (n_kv_ st) k_new;
  n_kv' ← wr (n_kv_ st) k_new (dd_incr d v f_one);
  mp ← rd2 (n_jtv st) ein t_new;
  n_jtv' ← wr2 (n_jtv st) ein t_new (<[v := sz_inc (map_at mp v)]> mp);
  Ok (set_n_jtv (set_n_kv_ (set_n_k (set_n_jt (set_t_ji st t_ji') n_jt') n_k') n_kv') n_jtv').

(** The scan shared by [create_dish] and [create_table]: the first index
    [i] with [ids[i] != i], and the size when there is none. *)
Fixpoint first_mismatch (i : nat) (ids : list nat) : option nat :=
  match ids with
  | [] => None
  | x :: ids' => if decide (i ≠ x) then Some i else first_mismatch (S i) ids'
  end.

Definition first_free (ids : list nat) : nat :=
  default (length ids) (first_mismatch 0 ids).

(** [v.insert(v.begin() + pos, x)] *)
Definition insert_at {A} (v : list A) (pos : nat) (x : A) : result (list A) :=
  if decide (pos ≤ length v) then Ok (take pos v ++ x :: drop pos v)
  else Err OutOfRange.

(** [v.back()] *)
Definition back {A} (v : list A) : result A :=
  match last v with Some a => Ok a | None => Err OutOfRange end.

Definition create_dish (st : state) : result (nat * state) :=
  let k_new := first_free (dishes_ st) in
  st1 ← (if decide (k_new = length (dishes_ st)) then
           m0 ← rd (m_k st) 0;
           let st' := set_n_kv_ (set_m_k st (m_k st ++ [m0]))
                                (n_kv_ st ++ [dd_new (beta_ st)]) in
           b ← back (dishes_ st');
           _ ← assert (bool_decide (k_new = b + 1));
           _ ← assert (bool_decide (k_new < length (n_kv_ st')));
           Ok st'
         else Ok st);
  dishes' ← insert_at (dishes_ st1) k_new k_new;
  let n_k' := dd_set (n_k st1) k_new (f_mul (beta_ st1) (f_of_size (V st1))) in
  n_kv' ← wr (n_kv_ st1) k_new (dd_new (beta_ st1));
  m_k' ← wr (m_k st1) k_new 0%N;
  Ok (k_new, set_m_k (set_n_kv_ (set_n_k (set_dishes_ st1 dishes') n_k') n_kv') m_k').

Definition create_table (st : state) (ein k_new : nat) : result (nat * state) :=
  row ← rd (using_t st) ein;
  let t_new := first_free row in
  st1 ← (if decide (t_new = length row) then
           nrow ← rd (n_jt st) ein;
           n_jt' ← wr (n_jt st) ein (nrow ++ [0%N]);
           krow ← rd (k_jt st) ein;
           k_jt' ← wr (k_jt st) ein (krow ++ [0]);
           vrow ← rd (n_jtv st) ein;
           n_jtv' ← wr (n_jtv st) ein (vrow ++ [∅]);
           Ok (set_n_jtv (set_k_jt (set_n_jt st n_jt') k_jt') n_jtv')
         else Ok st);
  row' ← insert_at row t_new t_new;
  using_t' ← wr (using_t st1) ein row';
  n_jt' ← wr2 (n_jt st1) ein t_new 0%N;
  _ ← assert (bool_decide (k_new ≠ 0));
  k_jt' ← wr2 (k_jt st1) ein t_new k_new;
  mk ← rd (m_k st1) k_new;
  m_k' ← wr (m_k st1) k_new (sz_inc mk);
  Ok (t_new,
      set_m (set_m_k (set_k_jt (set_n_jt (set_using_t st1 using_t') n_jt') k_jt') m_k')
            (sz_inc (m st1))).

Definition leave_from_dish (st : state) (j t : nat) : result state :=
  k ← rd2 (k_jt st) j t;
  _ ← assert (bool_decide (0 < k));
  mk ← rd (m_k st) k;
  _ ← assert (bool_decide (0 < mk)%N);
  m_k' ← wr (m_k st) k (sz_dec mk);
  let st' := set_m (set_m_k st m_k') (sz_dec (m st)) in
  if decide (sz_dec mk = 0%N) then
    let st'' := delete_dish st' k in
    k_jt' ← wr2 (k_jt st'') j t 0;
    Ok (set_k_jt st'' k_jt')
  else Ok st'.

(** One word of the table moved by [seat_at_dish]. *)
Definition move_word (k_old k_new : nat) (n_kv : list (defaultdict F))
    (kv : nat * N) : result (list (defaultdict F)) :=
  let v := kv.1 in
  let n := kv.2 in
  n_kv1 ← (if decide (k_old ≠ 0) then
             d ← rd n_kv k_old; wr n_kv k_old (dd_decr d v (f_of_size n))
           else Ok n_kv);
  d ← rd n_kv1 k_new;
  wr n_kv1 k_new (dd_incr d v (f_of_size n)).

Definition seat_at_dish (st : state) (j t k_new : nat) : result state :=
  mk ← rd (m_k st) k_new;
  m_k' ← wr (m_k st) k_new (sz_inc mk);
  let st1 := set_m_k (set_m st (sz_inc (m st))) m_k' in
  k_old ← rd2 (k_jt st1) j t;
  if decide (k_new ≠ k_old) then
    _ ← assert (bool_decide (k_new ≠ 0));
    k_jt' ← wr2 (k_jt st1) j t k_new;
    c ← rd2 (n_jt st1) j t;
    let n_jt_val := f_of_size c in
    let n_k1 := if decide (k_old ≠ 0) then dd_decr (n_k st1) k_old n_jt_val
                else n_k st1 in
    let n_k2 := dd_incr n_k1 k_new n_jt_val in
    mp ← rd2 (n_jtv st1) j t;
    n_kv' ← foldR (move_word k_old k_new) (n_kv_ st1) (map_items mp);
    Ok (set_n_kv_ (set_n_k (set_k_jt st1 k_jt') n_k2) n_kv')
  else Ok st1.

(** *** Posterior computation *)

Definition calc_f_k (st : state) (v : nat) : result (list F) :=
  if decide (n_kv_ st = []) then Err OutOfRange
  else Ok (imap (λ k d,
                   if decide (k = 0)
                   then f_div (f_sub (dd_get d v) (beta_ st)) (dd_get (n_k st) 0)
                   else f_div (dd_get d v) (dd_get (n_k st) k))
                (n_kv_ st)).

Definition calc_dish_posterior_w (st : state) (f_k : list F) : result (list F) :=
  p_k ← mapR (λ k, mk ← rd (m_k st) k;
                   fk ← rd f_k k;
                   Ok (f_mul (f_of_size mk) fk)) (dishes_ st);
  p_k ← wr p_k 0 (f_div (gamma_ st) (f_of_size (V st)));
  Ok (normalize p_k).

(** The weight [calc_table_posterior] first writes for the table [p]. *)
Definition table_weight (st : state) (j : nat) (f_k : list F) (p : nat)
  : result F :=
  c ← rd2 (n_jt st) j p;
  k ← rd2 (k_jt st) j p;
  fk ← rd f_k k;
  Ok (f_mul (f_of_size c) fk).

Definition calc_table_posterior (st : state) (j : nat) (f_k : list F)
  : result (list F) :=
  using_table ← rd (using_t st) j;
  p_t ← mapR (table_weight st j f_k) using_table;
  dot ← eigen_dot f_k (f_of_size <$> m_k st);
  let p_x_ji := f_add (f_div (gamma_ st) (f_of_size (V st))) dot in
  p_t ← wr p_t 0 (f_div (f_mul p_x_ji (alpha_ st))
                        (f_add (gamma_ st) (f_of_size (m st))));
  Ok (normalize p_t).

(** First loop of [calc_dish_posterior_t], for the dish [k]; the entry of
    the sentinel keeps the value the vector was created with. *)
Definition log_p_dish (st : state) (k_old : nat) (c : N) (k : nat) : result F :=
  if decide (k = 0) then Ok f_zero
  else
    let n_k_val := if decide (k = k_old)
                   then f_sub (dd_get (n_k st) k) (f_of_size c)
                   else dd_get (n_k st) k in
    _ ← assert (f_ltb f_zero n_k_val);
    mk ← rd (m_k st) k;
    let x := f_sub (f_add (fast_log (f_of_size mk)) (fast_lgamma n_k_val))
                   (fast_lgamma (f_add n_k_val (f_of_size c))) in
    _ ← assert (f_isfinite x);
    Ok x.

(** [n_kw[i]] for the dish [k] at position [i] of [dishes_]. *)
Definition n_kw_entry (st : state) (k_cur w : nat) (n_jtw : N) (ik : nat * nat)
  : result F :=
  d ← rd (n_kv_ st) ik.2;
  let x := dd_get d w in
  let x' := if decide (ik.2 = k_cur) then f_sub x (f_of_size n_jtw) else x in
  _ ← assert (bool_decide (ik.1 = 0) || f_ltb f_zero x');
  Ok x'.

(** Body of the loop over the words of the table. *)
Definition word_term (st : state) (k_cur : nat) (log_p_k : list F)
    (kv : nat * N) : result (list F) :=
  let w := kv.1 in
  let n_jtw := kv.2 in
  if decide (n_jtw = 0%N) then Ok log_p_k
  else
    _ ← assert (bool_decide (0 < n_jtw)%N);
    n_kw ← mapR (n_kw_entry st k_cur w n_jtw) (imap pair (dishes_ st));
    n_kw ← wr n_kw 0 f_one;
    match log_p_k, n_kw with
    | l0 :: ls, _ :: ns =>
        Ok (f_add l0 (f_sub (fast_lgamma (f_add (beta_ st) (f_of_size n_jtw)))
                            (fast_lgamma (beta_ st)))
            :: zip_with (λ l x, f_add l (f_sub (fast_lgamma (f_add x (f_of_size n_jtw)))
                                               (fast_lgamma x))) ls ns)
    | _, _ => Err OutOfRange
    end.

Definition calc_dish_posterior_t (st : state) (j t : nat) : result (list F) :=
  k_old ← rd2 (k_jt st) j t;
  n_jt_val ← rd2 (n_jt st) j t;
  log_p_k ← mapR (log_p_dish st k_old n_jt_val) (dishes_ st);
  let vb := f_mul (f_of_size (V st)) (beta_ st) in
  log_p_k ← wr log_p_k 0
    (f_sub (f_add (fast_log (gamma_ st)) (fast_lgamma vb))
           (fast_lgamma (f_add vb (f_of_size n_jt_val))));
  mp ← rd2 (n_jtv st) j t;
  log_p_k ← foldR (word_term st k_old) log_p_k (map_items mp);
  _ ← mapR (λ x, assert (f_isfinite x)) log_p_k;
  max_value ← max_element log_p_k;
  Ok (normalize ((λ x, f_exp (f_sub x max_value)) <$> log_p_k)).

(** *** Sampler kernel *)

(** The branch of [sampling_t] taken when the sampled table is the
    sentinel: draw a dish, mint one if the sentinel dish is drawn, and
    create the table. *)
Definition new_table (st : state) (j : nat) (f_k : list F)
  : result (nat * state) :=
  p_k ← calc_dish_posterior_w st f_k;
  _ ← validate_probability_vector p_k;
  let draw := sample_discrete p_k (rng_ st) in
  let st := set_rng_ st draw.2 in
  k_new ← rd (dishes_ st) draw.1;
  ks ← (if decide (k_new = 0) then create_dish st else Ok (k_new, st));
  create_table ks.2 j ks.1.

Definition sampling_t (st : state) (j i : nat) : result state :=
  st ← remove_table st j i;
  v ← rd2 (x_ji st) j i;
  f_k ← calc_f_k st v;
  f0 ← rd f_k 0;
  _ ← assert (f_eqb f0 f_zero);
  p_t ← calc_table_posterior st j f_k;
  _ ← validate_probability_vector p_t;
  let draw := sample_discrete p_t (rng_ st) in
  let st := set_rng_ st draw.2 in
  t_new ← rd2 (using_t st) j draw.1;
  ts ← (if decide (t_new = 0) then new_table st j f_k else Ok (t_new, st));
  add_table ts.2 j ts.1 i.

Definition sampling_k (st : state) (j t : nat) : result state :=
  st ← leave_from_dish st j t;
  p_k ← calc_dish_posterior_t st j t;
  _ ← validate_probability_vector p_k;
  _ ← assert (bool_decide (length (dishes_ st) = length p_k));
  let draw := sample_discrete p_k (rng_ st) in
  let st := set_rng_ st draw.2 in
  k_new ← rd (dishes_ st) draw.1;
  ks ← (if decide (k_new = 0) then create_dish st else Ok (k_new, st));
  seat_at_dish ks.2 j t ks.1.

(** The two phases of [_inference]. *)
Definition word_phase (st : state) : result state :=
  foldR (λ st j,
           row ← rd (x_ji st) j;
           foldR (λ st i, sampling_t st j i) st (seq 0 (length row)))
        st (seq 0 (length (x_ji st))).

Definition table_phase (st : state) : result state :=
  foldR (λ st j,
           row ← rd (using_t st) j;
           foldR (λ st t, if decide (t ≠ 0) then sampling_k st j t else Ok st)
                 st row)
        st (seq 0 (length (x_ji st))).

Definition _inference (st : state) : result state :=
  st ← word_phase st;
  table_phase st.

(** *** Read-outs *)

Definition tablesize (debug_mode : bool) (st : state) (eid tid : nat) : result N :=
  _ ← MICROSCOPES_DCHECK debug_mode (bool_decide (eid < nentities st));
  rd2 (n_jt st) eid tid.

(** [validate_n_k_values] returns at its first statement. *)
Definition validate_n_k_values (st : state) : result state := Ok st.

(** The map [wordDist] builds for the dish [k]: one entry per word id below
    [V]. *)
Definition word_dist_row (st : state) (k : nat) : result (gmap nat F) :=
  foldR (λ row v,
           d ← rd (n_kv_ st) k;
           Ok (<[v := if dd_contains d v
                      then f_div (dd_get d v) (dd_get (n_k st) k)
                      else f_div (beta_ st) (dd_get (n_k st) k)]> row))
        ∅ (seq 0 (N.to_nat (V st))).

Definition wordDist (st : state) : result (list (gmap nat F)) :=
  mapR (word_dist_row st) (filter (λ k, k ≠ 0) (dishes_ st)).

End Model.

Arguments state F R : clear implicits.

(** ** Stand-ins and example states *)

(** The build the examples run under: assertions compiled in. *)
#[global] Instance checked_build : Build := {| NDEBUG := false |}.

(** Coarse stand-ins for the special functions, so that the sampler can be
    run on examples; no statement below depends on their accuracy. *)
#[global] Instance coarse_special : SpecialFns spec_float := {|
  fast_log := λ x, f_div (f_mul (f_of_size 2) (f_sub x f_one)) (f_add x f_one);
  fast_lgamma := λ x, f_mul (f_sub x f_one) (f_sub x (f_of_size 2));
  f_exp := λ x, f_div f_one (f_sub f_one x);
|}.

(** The binary32 number nearest to [n / d]. *)
Definition b32 (n d : N) : spec_float := f_div (f_of_size n) (f_of_size d).

(** Scenario A: three documents over seven words, alpha = 0.2,
    beta = 0.01, gamma = 0.5, and the draws the sampler will replay. *)
Definition docs_A : list (list nat) := [[0; 1; 2; 3]; [0; 1; 4; 5]; [0; 1; 5; 6]].

Definition state_A (draws : list nat) : state spec_float (list nat) :=
  initialize (Model_definition 3 7) (b32 1 5) (b32 1 100) (b32 1 2) docs_A draws.

(** A state and, after a failure, a state holding nothing. *)
Definition empty_state : state spec_float (list nat) :=
  initialize (Model_definition 0 0) f_zero f_zero f_zero [] [].

Definition get_state (r : result (state spec_float (list nat)))
  : state spec_float (list nat) :=
  match r with Ok st => st | Err _ => empty_state end.

(** Word 0 of document 0 seated alone: a new table (1) with a new dish (1). *)
Definition state_one_word : state spec_float (list nat) :=
  get_state (sampling_t (state_A [0; 0]) 0 0).

(** Words 0 and 1 of document 0 seated together at table 1. *)
Definition state_two_words : state spec_float (list nat) :=
  get_state (st ← sampling_t (state_A [0; 0; 1]) 0 0; sampling_t st 0 1).

(** Word 0 of document 0 and word 0 of document 1, each alone at table 1
    of its document, the two tables sharing dish 1. *)
Definition state_shared_dish : state spec_float (list nat) :=
  get_state (st ← sampling_t (state_A [0; 0; 0; 1]) 0 0; sampling_t st 1 0).

(** Scenario A built with alpha = 0. *)
Definition state_zero_alpha : state spec_float (list nat) :=
  initialize (Model_definition 3 7) f_zero (b32 1 100) (b32 1 2) docs_A [].



(** A sampler that always answers with the first entry, its generator
    holding nothing, and Scenario A built for it. *)
Definition first_sampler {F} : Sampler F unit := {|
  sample_discrete := fun _ r => (0, r);
|}.

Definition state_A_first : state spec_float unit :=
  initialize (Model_definition 3 7) (b32 1 5) (b32 1 100) (b32 1 2) docs_A tt.

(** Scenario A after one sweep in which every draw is the sentinel. *)
Definition state_A_swept : state spec_float (list nat) :=
  get_state (_inference (state_A [])).

(** Two documents that hold no word. *)
Definition state_no_words : state spec_float (list nat) :=
  initialize (Model_definition 2 7) (b32 1 5) (b32 1 100) (b32 1 2) [[]; []] [].

(** Scenario A built for [first_sampler], its first word seated alone. *)
Definition state_first_word : state spec_float unit :=
  match @sampling_t spec_float unit _ _ first_sampler state_A_first 0 0 with
  | Ok st => st
  | Err _ => state_A_first
  end.

(** ** Specification-side definitions *)

(** An active-id sequence as the sampler keeps it: strictly increasing and
    headed by the sentinel 0. *)
Definition sorted_ids (ids : list nat) : Prop :=
  head ids = Some 0 ∧ StronglySorted lt ids.

(** [k] is the lowest positive integer that is not in [ids]. *)
Definition lowest_unused (k : nat) (ids : list nat) : Prop :=
  0 < k ∧ (k ∉ ids) ∧ ∀ k', 0 < k' → k' < k → k' ∈ ids.

(** [ids'] is [ids] with the one new id [k]. *)
Definition adds_one (k : nat) (ids ids' : list nat) : Prop :=
  (k ∉ ids) ∧ ids' ≡ₚ k :: ids.

(** The sum of a vector, accumulated as [valid_probability_vector] does. *)
Definition running_sum {F} `{FloatOps F} (p : list F) : F :=
  fold_left f_add p f_zero.

(** Two default-valued counters that read the same at every key. *)
Definition dd_same {F} `{FloatOps F} (d d' : defaultdict F) : Prop :=
  default_value d = default_value d' ∧ ∀ t, dd_get d t = dd_get d' t.

(** Two word-count maps that read the same at every word. *)
Definition map_same (mp mp' : gmap nat N) : Prop :=
  ∀ v, map_at mp v = map_at mp' v.

Section Specs.
Context {F R : Type} `{Build} `{FloatOps F} `{SpecialFns F} `{Sampler F R}.

(** Two states with the same counts: the vectors are equal and the
    default-valued counters and the word-count maps read the same. *)
Record same_counts (st st' : state F R) : Prop := {
  same_V : V st = V st';
  same_m : m st = m st';
  same_alpha : alpha_ st = alpha_ st';
  same_beta : beta_ st = beta_ st';
  same_gamma : gamma_ st = gamma_ st';
  same_rng : rng_ st = rng_ st';
  same_using_t : using_t st = using_t st';
  same_dishes : dishes_ st = dishes_ st';
  same_x_ji : x_ji st = x_ji st';
  same_k_jt : k_jt st = k_jt st';
  same_n_jt : n_jt st = n_jt st';
  same_n_jtv : Forall2 (Forall2 map_same) (n_jtv st) (n_jtv st');
  same_m_k : m_k st = m_k st';
  same_n_k : dd_same (n_k st) (n_k st');
  same_n_kv : Forall2 dd_same (n_kv_ st) (n_kv_ st');
  same_t_ji : t_ji st = t_ji st';
}.








(** The shape the sampler keeps its vectors in: both active sequences
    sorted and headed by the sentinel, every active id within the vectors it
    indexes, and the per-document vectors of one shape. *)
Record well_formed (st : state F R) : Prop := {
  wf_dishes : sorted_ids (dishes_ st);
  wf_dishes_range : Forall (λ k, k < length (m_k st)) (dishes_ st);
  wf_n_kv : length (n_kv_ st) = length (m_k st);
  wf_tables : Forall2 (λ row n, sorted_ids row ∧ Forall (λ t, t < n) row)
                      (using_t st) (length <$> k_jt st);
  wf_n_jt : length <$> n_jt st = length <$> k_jt st;
  wf_n_jtv : length <$> n_jtv st = length <$> k_jt st;
  wf_t_ji : length (t_ji st) = length (k_jt st);
}.

(** What [create_dish] leaves alone. *)
Definition same_tables (st st' : state F R) : Prop :=
  using_t st' = using_t st ∧ k_jt st' = k_jt st ∧ n_jt st' = n_jt st ∧
  n_jtv st' = n_jtv st ∧ t_ji st' = t_ji st ∧ x_ji st' = x_ji st.

(** The table [t] of document [j] bears a dish, unless it is the sentinel
    or the table [hole] that [sampling_k] has taken off its dish and not yet
    seated again. *)
Definition bears_dish (st : state F R) (hole : option (nat * nat)) (j t : nat)
  : Prop :=
  0 < t → hole ≠ Some (j, t) → ∀ k, rd2 (k_jt st) j t = Ok k → 0 < k.

(** Every table that is active, and every table a word refers to, bears a
    dish; and the tables words refer to are within [k_jt]. *)
Record seating (hole : option (nat * nat)) (st : state F R) : Prop := {
  seat_active : ∀ j row t,
    using_t st !! j = Some row → t ∈ row → bears_dish st hole j t;
  seat_words : ∀ j trow t,
    t_ji st !! j = Some trow → t ∈ trow → bears_dish st hole j t;
  seat_range : ∀ j trow krow,
    t_ji st !! j = Some trow → k_jt st !! j = Some krow →
    Forall (λ t, t < length krow) trow;
}.

(** The states the sampler reaches: a constructed state, and any state left
    by resampling a word or a real active table. A sweep passes only
    through such states. *)
Inductive reachable : state F R → Prop :=
| reach_initialize def alpha beta gamma docs rng :
    reachable (initialize def alpha beta gamma docs rng)
| reach_sampling_t st j i st' :
    reachable st → sampling_t st j i = Ok st' → reachable st'
| reach_sampling_k st j t row st' :
    reachable st → using_t st !! j = Some row → t ∈ row → t ≠ 0 →
    sampling_k st j t = Ok st' → reachable st'.

(** The pairs (document, word) in the order the word phase visits them. *)
Definition word_order (docs : list (list nat)) : list (nat * nat) :=
  mjoin (imap (λ j row, pair j <$> seq 0 (length row)) docs).

(** The pairs (document, real active table) in the order the table phase
    visits them. *)
Definition table_order (rows : list (list nat)) : list (nat * nat) :=
  mjoin (imap (λ j row, pair j <$> filter (λ t, t ≠ 0) row) rows).

End Specs.

(** ** Further invariants *)

(** A computation that reads and writes every vector within its bounds: it
    returns, or it stops at a failed assertion or at a probability vector
    that is not valid. *)
Definition in_bounds {A} (r : result A) : Prop :=
  ∀ e, r = Err e → e = AssertFailed ∨ e = InvalidProbability.

Section Invariants.
Context {F R : Type} `{Build} `{FloatOps F} `{SpecialFns F} `{Sampler F R}.

(** What no operation of the sampler writes: the documents, the vocabulary
    size and the three hyper-parameters. *)
Definition same_params (st st' : state F R) : Prop :=
  x_ji st' = x_ji st ∧ V st' = V st ∧ alpha_ st' = alpha_ st ∧
  beta_ st' = beta_ st ∧ gamma_ st' = gamma_ st.

(** Every index the state stores is within the vector it is used with: a
    table entry for each word of each document, every dish id of [k_jt]
    within [m_k], and every counter of [n_kv_] made with [beta_] as its
    default value. *)
Record bounded (st : state F R) : Prop := {
  bd_words : length <$> t_ji st = length <$> x_ji st;
  bd_dishes : Forall (Forall (λ k, k < length (m_k st))) (k_jt st);
  bd_defaults : Forall (λ d, default_value d = beta_ st) (n_kv_ st);
}.

(** The word [i] of document [j] sits at a real active table that bears a
    dish. *)
Definition seated (st : state F R) (j i : nat) : Prop :=
  ∃ t row k, rd2 (t_ji st) j i = Ok t ∧ 0 < t ∧
             using_t st !! j = Some row ∧ t ∈ row ∧
             rd2 (k_jt st) j t = Ok k ∧ 0 < k.

(** The word [i] of document [j] has been given a real table. *)
Definition assigned (st : state F R) (j i : nat) : Prop :=
  ∃ t, rd2 (t_ji st) j i = Ok t ∧ 0 < t.

(** The categorical sampler answers with an index of the vector it is
    given. *)
Definition sampler_in_range : Prop :=
  ∀ (p : list F) (r : R), p ≠ [] → (sample_discrete p r).1 < length p.

End Invariants.

(** A sampler that answers as [S] does on every vector that passes
    [valid_probability_vector], and with [other] on the rest. *)
Definition sampler_off_valid {F R} `{FloatOps F} (S : Sampler F R)
    (other : list F → R → nat * R) : Sampler F R :=
  {| sample_discrete := λ p r,
       if valid_probability_vector p then @sample_discrete F R S p r
       else other p r |}.

(** ** Runs under two generators *)

(** The state with another generator in place of its own. *)
Definition with_rng {F R R'} (st : state F R) (r : R') : state F R' :=
  State (V st) (m st) (alpha_ st) (beta_ st) (gamma_ st) r (using_t st) (dishes_ st)
        (x_ji st) (k_jt st) (n_jt st) (n_jtv st) (m_k st) (n_k st) (n_kv_ st) (t_ji st).

(** Two states that differ in their generators at most. *)
Definition same_but_rng {F R1 R2} (st1 : state F R1) (st2 : state F R2) : Prop :=
  with_rng st1 tt = with_rng st2 tt.

(** Two generators in step: from related positions the two samplers answer
    every vector with the same index, and move to related positions. Two
    generators of one kind seeded alike are in step, the relation being
    equality. *)
Definition in_step {F R1 R2} (S1 : Sampler F R1) (S2 : Sampler F R2)
    (ρ : R1 → R2 → Prop) : Prop :=
  ∀ (p : list F) (r1 : R1) (r2 : R2), ρ r1 r2 →
    (@sample_discrete F R1 S1 p r1).1 = (@sample_discrete F R2 S2 p r2).1 ∧
    ρ (@sample_discrete F R1 S1 p r1).2 (@sample_discrete F R2 S2 p r2).2.

(** Two states that differ in their generators at most, the generators at
    related positions. *)
Definition alike {F R1 R2} (ρ : R1 → R2 → Prop)
    (st1 : state F R1) (st2 : state F R2) : Prop :=
  same_but_rng st1 st2 ∧ ρ (rng_ st1) (rng_ st2).

(** Two runs with the same outcome: the same failure, or two results that
    are related. *)
Definition same_outcome {A B} (rel : A → B → Prop) (r1 : result A) (r2 : result B)
  : Prop :=
  match r1, r2 with
  | Ok a, Ok b => rel a b
  | Err e1, Err e2 => e1 = e2
  | _, _ => False
  end.

(** ** Results, reads and writes *)

Lemma bind_Ok {A B} (r : result A) (f : A → result B) (b : B) :
  r ≫= f = Ok b ↔ ∃ a, r = Ok a ∧ f a = Ok b.
Proof.
  destruct r as [a|e]; simpl; split.
  - intros Hf. by exists a.
  - by intros (a' & [= <-] & Hf).
  - discriminate.
  - by intros (a' & [=] & _).
Qed.

Lemma assert_Ok `{Build} (c : bool) (u : unit) :
  assert c = Ok u ↔ NDEBUG = true ∨ c = true.
Proof.
  unfold assert. destruct NDEBUG, c, u; split; intros Hc; try done;
    first [ by left | by right | by destruct Hc ].
Qed.

Lemma assert_true `{Build} (c : bool) : c = true → assert c = Ok tt.
Proof. intros ->. unfold assert. by destruct NDEBUG. Qed.

Lemma rd_Ok {A} (l : list A) (i : nat) (a : A) : rd l i = Ok a ↔ l !! i = Some a.
Proof. unfold rd. destruct (l !! i); split; intros [=]; by subst. Qed.

Lemma rd_lt {A} (l : list A) (i : nat) (a : A) : rd l i = Ok a → i < length l.
Proof. rewrite rd_Ok. apply lookup_lt_Some. Qed.

Lemma rd_is_Ok {A} (l : list A) (i : nat) : i < length l → ∃ a, rd l i = Ok a.
Proof.
  intros Hi. destruct (lookup_lt_is_Some_2 l i Hi) as [a Ha].
  exists a. by apply rd_Ok.
Qed.

Lemma wr_Ok {A} (l : list A) (i : nat) (a : A) (l' : list A) :
  wr l i a = Ok l' ↔ i < length l ∧ l' = <[i := a]> l.
Proof.
  unfold wr. case_decide; split.
  - by intros [= <-].
  - by intros [_ ->].
  - intros [=].
  - intros [Hi _]. lia.
Qed.

Lemma wr_lt {A} (l : list A) (i : nat) (a : A) :
  i < length l → wr l i a = Ok (<[i := a]> l).
Proof. intros Hi. by apply wr_Ok. Qed.

Lemma rd2_Ok {A} (l : list (list A)) (j i : nat) (a : A) :
  rd2 l j i = Ok a ↔ ∃ row, l !! j = Some row ∧ row !! i = Some a.
Proof.
  unfold rd2. rewrite bind_Ok. setoid_rewrite rd_Ok. done.
Qed.

Lemma wr2_Ok {A} (l : list (list A)) (j i : nat) (a : A) (l' : list (list A)) :
  wr2 l j i a = Ok l' ↔
  ∃ row, l !! j = Some row ∧ i < length row ∧ l' = <[j := <[i := a]> row]> l.
Proof.
  unfold wr2. rewrite bind_Ok. setoid_rewrite bind_Ok.
  setoid_rewrite rd_Ok. setoid_rewrite wr_Ok. split.
  - intros (row & Hrow & row' & [Hi ->] & _ & ->). eauto.
  - intros (row & Hrow & Hi & ->). exists row. split; [done|].
    exists (<[i := a]> row). repeat split; try done. by eapply lookup_lt_Some.
Qed.

Lemma wr2_shape {A} (l l' : list (list A)) (j i : nat) (a : A) :
  wr2 l j i a = Ok l' → length <$> l' = length <$> l.
Proof.
  rewrite wr2_Ok. intros (row & Hrow & Hi & ->).
  rewrite list_fmap_insert, length_insert. by apply list_insert_id, list_lookup_fmap_Some_2.
Qed.





Lemma bind_ret {A B} (a : A) (f : A → result B) : Ok a ≫= f = f a.
Proof. done. Qed.

Lemma mapR_Ok {A B} (f : A → result B) (l : list A) (l' : list B) :
  mapR f l = Ok l' ↔ Forall2 (λ a b, f a = Ok b) l l'.
Proof.
  revert l'. induction l as [|a l IH]; intros l'; simpl.
  - split; [intros [= <-]; constructor | by inversion 1].
  - rewrite bind_Ok. split.
    + intros (b & Hb & Hrest). apply bind_Ok in Hrest as (bs & Hbs & [= <-]).
      constructor; [done|]. by apply IH.
    + inversion 1 as [|? b ? bs Hb Hbs]; subst. exists b. split; [done|].
      apply bind_Ok. exists bs. split; [by apply IH|done].
Qed.

Lemma mapR_total {A B} (f : A → result B) (l : list A) :
  Forall (λ a, ∃ b, f a = Ok b) l → ∃ l', mapR f l = Ok l'.
Proof.
  induction 1 as [|a l [b Hb] _ [l' Hl']]; simpl; [by eexists|].
  exists (b :: l'). by rewrite Hb, Hl'.
Qed.

Lemma foldR_ext {A S} (f g : S → A → result S) (s : S) (l : list A) :
  (∀ s a, f s a = g s a) → foldR f s l = foldR g s l.
Proof.
  intros Hfg. revert s. induction l as [|a l IH]; intros s; simpl; [done|].
  rewrite Hfg. destruct (g s a); simpl; [apply IH | done].
Qed.

Lemma foldR_app {A S} (f : S → A → result S) (s : S) (l1 l2 : list A) :
  foldR f s (l1 ++ l2) = foldR f s l1 ≫= λ s', foldR f s' l2.
Proof.
  revert s. induction l1 as [|a l1 IH]; intros s; simpl; [done|].
  destruct (f s a); simpl; [apply IH | done].
Qed.

Lemma foldR_fmap {A B S} (f : S → B → result S) (g : A → B) (s : S) (l : list A) :
  foldR f s (g <$> l) = foldR (λ s a, f s (g a)) s l.
Proof.
  revert s. induction l as [|a l IH]; intros s; simpl; [done|].
  destruct (f s (g a)); simpl; [apply IH | done].
Qed.

Lemma foldR_filter {A S} (P : A → Prop) `{∀ a, Decision (P a)}
    (f : S → A → result S) (s : S) (l : list A) :
  foldR (λ s a, if decide (P a) then f s a else Ok s) s l = foldR f s (filter P l).
Proof.
  revert s. induction l as [|a l IH]; intros s; [done|].
  rewrite filter_cons. simpl. destruct (decide (P a)); simpl; [|apply IH].
  destruct (f s a); simpl; [apply IH | done].
Qed.

(** A property of the state that every step of a fold keeps. *)
Lemma foldR_invariant {A S} (P : S → Prop) (f : S → A → result S) (s s' : S) (l : list A) :
  (∀ s a s', P s → f s a = Ok s' → P s') → P s → foldR f s l = Ok s' → P s'.
Proof.
  intros Hstep. revert s. induction l as [|a l IH]; intros s Hs; simpl.
  - by intros [= <-].
  - intros Hf. apply bind_Ok in Hf as (s1 & H1 & H2). eauto.
Qed.

(** Opens one successful bind, naming its value and its equation. *)
Tactic Notation "inv_bind" hyp(H) "as" simple_intropattern(p) ident(E) :=
  apply bind_Ok in H as (p & E & H).

(** Unfolds one successful step of a monadic computation. *)
Ltac step_ok H :=
  match type of H with
  | _ ≫= _ = Ok _ =>
      let H1 := fresh "E" in
      apply bind_Ok in H as (? & H1 & H)
  | Ok _ = Ok _ => injection H as H
  | Err _ = Ok _ => discriminate H
  end.

Ltac steps_ok H := repeat step_ok H.

(** ** Sorted id sequences and the first free id *)

Lemma removeFirst_sublist (l : list nat) (x : nat) : removeFirst l x `sublist_of` l.
Proof.
  induction l as [|y l IH]; simpl; [done|].
  case_decide; [by apply sublist_cons | by apply sublist_skip].
Qed.

Lemma Forall_sublist {A} (P : A → Prop) (l1 l2 : list A) :
  l1 `sublist_of` l2 → Forall P l2 → Forall P l1.
Proof.
  rewrite !Forall_forall. intros Hsub Hl x Hx. apply Hl. by eapply elem_of_sublist.
Qed.

Lemma removeFirst_Forall (P : nat → Prop) (l : list nat) (x : nat) :
  Forall P l → Forall P (removeFirst l x).
Proof. intros Hl. eapply Forall_sublist; [apply removeFirst_sublist | done]. Qed.

Lemma StronglySorted_sublist (l1 l2 : list nat) :
  l1 `sublist_of` l2 → StronglySorted lt l2 → StronglySorted lt l1.
Proof.
  induction 1 as [|x l1 l2 Hsub IH|x l1 l2 Hsub IH]; intros Hs; [done|..].
  - apply StronglySorted_cons in Hs as [Hx Hs].
    apply StronglySorted_cons. split; [|by apply IH].
    eapply Forall_sublist; [exact Hsub | done].
  - apply StronglySorted_cons in Hs as [_ Hs]. by apply IH.
Qed.

Lemma sorted_ids_removeFirst (l : list nat) (x : nat) :
  0 < x → sorted_ids l → sorted_ids (removeFirst l x).
Proof.
  intros Hx [Hhead Hs]. split.
  - destruct l as [|y l]; [done|]. simpl in *. injection Hhead as ->.
    by rewrite decide_False by lia.
  - eapply StronglySorted_sublist; [apply removeFirst_sublist | done].
Qed.

Lemma first_mismatch_spec (i : nat) (l : list nat) :
  StronglySorted lt l → Forall (λ x, i ≤ x) l →
  match first_mismatch i l with
  | Some k => ∃ n, k = i + n ∧ n < length l ∧ take n l = seq i n ∧
                   Forall (λ x, k < x) (drop n l)
  | None => l = seq i (length l)
  end.
Proof.
  revert i. induction l as [|x l IH]; intros i Hs Hge; simpl; [done|].
  apply StronglySorted_cons in Hs as [Hx Hs]. apply Forall_cons in Hge as [Hix Hge].
  case_decide as Hne.
  - exists 0. rewrite Nat.add_0_r. split; [done|]. split; [lia|]. split; [done|].
    simpl. constructor; [lia|]. eapply Forall_impl; [exact Hx|]. simpl. lia.
  - assert (i = x) as <- by lia.
    specialize (IH (S i) Hs). destruct (first_mismatch (S i) l) as [k|].
    + destruct IH as (n & -> & Hn & Htake & Hdrop).
      { eapply Forall_impl; [exact Hx|]. simpl. lia. }
      exists (S n). split; [lia|]. split; [lia|]. simpl. by rewrite Htake.
    + f_equal. apply IH. eapply Forall_impl; [exact Hx|]. simpl. lia.
Qed.

Lemma first_free_spec (l : list nat) :
  sorted_ids l →
  0 < first_free l ∧ first_free l ≤ length l ∧
  take (first_free l) l = seq 0 (first_free l) ∧
  Forall (λ x, first_free l < x) (drop (first_free l) l).
Proof.
  intros [Hhead Hs]. unfold first_free.
  pose proof (first_mismatch_spec 0 l Hs) as Hspec.
  destruct l as [|x l]; [done|]. simpl in Hhead. injection Hhead as ->.
  destruct (first_mismatch 0 (0 :: l)) as [k|] eqn:Hk; simpl.
  - destruct Hspec as (n & -> & Hn & Htake & Hdrop).
    { apply Forall_forall. intros; lia. }
    simpl in Hk. simpl. destruct n as [|n]; [|split; [lia|]; split; [simpl in Hn; lia|done]].
    simpl in Hdrop. apply Forall_cons in Hdrop as [? _]. lia.
  - split; [lia|]. split; [done|]. rewrite firstn_all, drop_all.
    split; [|done]. apply Hspec. apply Forall_forall. intros; lia.
Qed.

Lemma first_free_lowest (l : list nat) :
  sorted_ids l → lowest_unused (first_free l) l.
Proof.
  intros Hl. destruct (first_free_spec l Hl) as (Hpos & Hle & Htake & Hdrop).
  set (k := first_free l) in *. split; [done|]. split.
  - rewrite <-(take_drop k l), Htake. rewrite elem_of_app, elem_of_seq.
    intros [?|Hin]; [lia|]. rewrite Forall_forall in Hdrop. specialize (Hdrop _ Hin). lia.
  - intros k' Hk' Hlt. rewrite <-(take_drop k l), Htake. apply elem_of_app. left.
    apply elem_of_seq. lia.
Qed.

Lemma first_free_insert_sorted (l : list nat) :
  sorted_ids l →
  sorted_ids (take (first_free l) l ++ first_free l :: drop (first_free l) l).
Proof.
  intros Hl. destruct (first_free_spec l Hl) as (Hpos & Hle & Htake & Hdrop).
  destruct Hl as [Hhead Hs]. set (k := first_free l) in *. split.
  - rewrite Htake. destruct k; [lia|done].
  - apply StronglySorted_app. split; [|split].
    + intros x1 x2 Hx1 Hx2. rewrite Htake in Hx1. apply elem_of_seq in Hx1.
      apply elem_of_cons in Hx2 as [->|Hx2]; [lia|].
      rewrite Forall_forall in Hdrop. specialize (Hdrop _ Hx2). lia.
    + eapply StronglySorted_sublist; [apply sublist_take | done].
    + apply StronglySorted_cons. split; [done|].
      eapply StronglySorted_sublist; [apply sublist_drop | done].
Qed.

Lemma first_free_insert_adds_one (l : list nat) :
  sorted_ids l →
  adds_one (first_free l) l (take (first_free l) l ++ first_free l :: drop (first_free l) l).
Proof.
  intros Hl. split; [by apply first_free_lowest|].
  rewrite <-Permutation_middle. by rewrite take_drop.
Qed.

(** The first free id indexes every vector that the active ids index, once
    the vector has been extended by one when no active id was skipped. *)
Lemma first_free_range (l : list nat) (n : nat) :
  sorted_ids l → Forall (λ x, x < n) l →
  (first_free l < length l → first_free l < n) ∧ first_free l ≤ n.
Proof.
  intros Hl Hn. destruct (first_free_spec l Hl) as (Hpos & Hle & Htake & Hdrop).
  set (k := first_free l) in *.
  assert (k < length l → k < n) as Hlt.
  { intros Hk. destruct (lookup_lt_is_Some_2 l k Hk) as [x Hx].
    assert (x ∈ drop k l) as Hin.
    { apply list_elem_of_lookup. exists 0. by rewrite lookup_drop, Nat.add_0_r. }
    rewrite Forall_forall in Hdrop. specialize (Hdrop _ Hin).
    rewrite Forall_forall in Hn. specialize (Hn x (list_elem_of_lookup_2 _ _ _ Hx)). lia. }
  split; [done|]. destruct (decide (k < length l)) as [|Hge]; [by apply Nat.lt_le_incl, Hlt|].
  assert (k = length l) as Hk by lia.
  assert (l !! (k - 1) = Some (k - 1)) as Hlast.
  { rewrite <-(take_drop k l), lookup_app_l by (rewrite length_take; lia).
    rewrite Htake. rewrite lookup_seq. split; [lia | lia]. }
  rewrite Forall_forall in Hn. specialize (Hn _ (list_elem_of_lookup_2 _ _ _ Hlast)). lia.
Qed.

Lemma first_free_back (l : list nat) :
  sorted_ids l → first_free l = length l → last l = Some (first_free l - 1).
Proof.
  intros Hl Hk. destruct (first_free_spec l Hl) as (Hpos & Hle & Htake & Hdrop).
  rewrite Hk in *. rewrite firstn_all in Htake. rewrite Htake at 1.
  rewrite last_lookup, length_seq. rewrite lookup_seq. simpl.
  destruct (length l) eqn:Hlen; [lia|]. simpl. split; [f_equal; lia | lia].
Qed.

Lemma Forall2_insert_l {A B} (P : A → B → Prop) (l : list A) (k : list B) i x y :
  Forall2 P l k → k !! i = Some y → P x y → Forall2 P (<[i := x]> l) k.
Proof.
  intros Hlk Hy Hxy. rewrite <-(list_insert_id k i y) by done. by apply Forall2_insert.
Qed.

Lemma foldR_length {A B} (f : list B → A → result (list B)) (s s' : list B) (l : list A) :
  (∀ s a s', f s a = Ok s' → length s' = length s) →
  foldR f s l = Ok s' → length s' = length s.
Proof.
  intros Hstep. apply (foldR_invariant (λ x, length x = length s)); [|done].
  intros x a x' Hx Hf. by rewrite (Hstep _ _ _ Hf).
Qed.

Lemma insert_at_Ok {A} (v : list A) (pos : nat) (x : A) :
  pos ≤ length v → insert_at v pos x = Ok (take pos v ++ x :: drop pos v).
Proof. intros Hpos. unfold insert_at. by rewrite decide_True. Qed.

Lemma back_Ok {A} (v : list A) (a : A) : last v = Some a → back v = Ok a.
Proof. intros Hv. unfold back. by rewrite Hv. Qed.

Lemma Forall2_insert_r {A B} (P : A → B → Prop) (l : list A) (k : list B) i x y :
  Forall2 P l k → l !! i = Some x → P x y → Forall2 P l (<[i := y]> k).
Proof.
  intros Hlk Hx Hxy. rewrite <-(list_insert_id l i x) by done. by apply Forall2_insert.
Qed.

Lemma shape_lookup {A} (l : list (list A)) (j n : nat) :
  (length <$> l) !! j = Some n ↔ ∃ row, l !! j = Some row ∧ length row = n.
Proof.
  rewrite list_lookup_fmap_Some. split.
  - intros (row & Hrow & ->). eauto.
  - intros (row & Hrow & <-). eauto.
Qed.

(** ** [size_t] arithmetic *)

Lemma sz_dec_pos (x : N) : (0 < x)%N → is_size x → sz_dec x = (x - 1)%N.
Proof.
  unfold sz_dec, is_size, SIZE_MOD. intros Hpos Hx.
  replace (x + (2 ^ 64 - 1))%N with ((x - 1) + 1 * 2 ^ 64)%N by lia.
  rewrite N.Div0.mod_add. apply N.mod_small. lia.
Qed.

Lemma sz_dec_zero_iff (x : N) : is_size x → sz_dec x = 0%N ↔ x = 1%N.
Proof.
  intros Hx. destruct (decide (x = 0%N)) as [->|Hne].
  - split; [|done]. by vm_compute.
  - rewrite sz_dec_pos by (done || lia). lia.
Qed.

Lemma sz_inc_dec (x : N) : is_size x → sz_inc (sz_dec x) = x.
Proof.
  unfold sz_inc, sz_dec, is_size, SIZE_MOD. intros Hx.
  rewrite N.Div0.add_mod_idemp_l.
  replace (x + (2 ^ 64 - 1) + 1)%N with (x + 1 * 2 ^ 64)%N by lia.
  rewrite N.Div0.mod_add. by apply N.mod_small.
Qed.

(** ** The weights of the tables under the contract of the model *)

Section Weights.
Context {F R : Type} `{Build} `{FloatOps F} `{SpecialFns F} `{Sampler F R}.
Context `{!ExactOrder F}.
Implicit Types (st : state F R) (j i t k : nat).








End Weights.

Section Proofs.
Context {F R : Type} `{Build} `{FloatOps F} `{SpecialFns F} `{Sampler F R}.
Implicit Types (st : state F R) (j i t k : nat).

(** ** Reads after writes, and counters that read the same *)

Lemma rd2_wr2_eq {A} (l l' : list (list A)) j i (a : A) :
  wr2 l j i a = Ok l' → rd2 l' j i = Ok a.
Proof.
  rewrite wr2_Ok, rd2_Ok. intros (row & Hrow & Hi & ->).
  exists (<[i := a]> row). split.
  - apply list_lookup_insert_eq. by eapply lookup_lt_Some.
  - by apply list_lookup_insert_eq.
Qed.

Lemma wr2_rd2 {A} (l : list (list A)) j i (a b : A) :
  rd2 l j i = Ok a → ∃ l', wr2 l j i b = Ok l'.
Proof.
  rewrite rd2_Ok. intros (row & Hrow & Hi). eexists. apply wr2_Ok.
  exists row. repeat split; try done. by eapply lookup_lt_Some.
Qed.

Lemma wr2_wr2_id {A} (l l' : list (list A)) j i (a b : A) :
  rd2 l j i = Ok a → wr2 l j i b = Ok l' → wr2 l' j i a = Ok l.
Proof.
  rewrite rd2_Ok, !wr2_Ok. intros (row & Hrow & Hi) (row' & Hrow' & Hi' & ->).
  simplify_eq. exists (<[i := b]> row). split.
  - apply list_lookup_insert_eq. by eapply lookup_lt_Some.
  - split; [by rewrite length_insert|].
    rewrite list_insert_insert_eq, list_insert_insert_eq.
    rewrite (list_insert_id row) by done. by rewrite list_insert_id.
Qed.

Lemma wr2_id {A} (l : list (list A)) j i (a : A) :
  rd2 l j i = Ok a → wr2 l j i a = Ok l.
Proof.
  rewrite rd2_Ok, wr2_Ok. intros (row & Hrow & Hi). exists row.
  repeat split; try done; [by eapply lookup_lt_Some|].
  rewrite (list_insert_id row) by done. by rewrite list_insert_id.
Qed.

Lemma Forall2_insert_r_same {A} (P : A → A → Prop) (l : list A) i (x y : A) :
  (∀ a, P a a) → l !! i = Some x → P x y → Forall2 P l (<[i := y]> l).
Proof.
  intros Hrefl Hx Hxy. rewrite <-(list_insert_id l i x) at 1 by done.
  apply Forall2_insert; [|done]. by apply Forall_Forall2_diag, Forall_forall.
Qed.

Lemma map_same_refl (mp : gmap nat N) : map_same mp mp.
Proof. done. Qed.

Lemma Forall2_map_same_refl (row : list (gmap nat N)) : Forall2 map_same row row.
Proof. by apply Forall_Forall2_diag, Forall_forall. Qed.

Lemma dd_same_refl (d : defaultdict F) : dd_same d d.
Proof. done. Qed.

Lemma dd_incr_decr (d : defaultdict F) t :
  f_add (f_sub (dd_get d t) f_one) f_one = dd_get d t →
  dd_same d (dd_incr (dd_decr d t f_one) t f_one).
Proof.
  intros Hrt. unfold dd_same, dd_incr, dd_decr, dd_get in *.
  destruct (dd_map d !! t) as [x|] eqn:Hx; simpl; rewrite lookup_insert_eq; simpl;
    (split; [done|]); intros t'; rewrite insert_insert_eq, Hrt;
    (destruct (decide (t = t')) as [->|Hne];
       [rewrite lookup_insert_eq | rewrite lookup_insert_ne by done]); by rewrite ?Hx.
Qed.

Lemma map_at_insert_eq (mp : gmap nat N) v (x : N) : map_at (<[v := x]> mp) v = x.
Proof. unfold map_at. by rewrite lookup_insert_eq. Qed.

Lemma map_at_insert_ne (mp : gmap nat N) v v' (x : N) :
  v ≠ v' → map_at (<[v := x]> mp) v' = map_at mp v'.
Proof. intros Hne. unfold map_at. by rewrite lookup_insert_ne. Qed.

Lemma map_same_round_trip (mp : gmap nat N) v :
  is_size (map_at mp v) →
  map_same mp (<[v := sz_inc (map_at (<[v := sz_dec (map_at mp v)]> mp) v)]>
                 (<[v := sz_dec (map_at mp v)]> mp)).
Proof.
  intros Hsz v'. rewrite map_at_insert_eq, insert_insert_eq, sz_inc_dec by done.
  destruct (decide (v = v')) as [->|Hne].
  - by rewrite map_at_insert_eq.
  - by rewrite map_at_insert_ne.
Qed.

(** ** Normalization in exact arithmetic *)

Lemma fold_add_div `{!ExactDiv F} (xs : list F) (x s : F) :
  fold_left f_add ((λ y, f_div y s) <$> xs) (f_div x s) = f_div (fold_left f_add xs x) s.
Proof.
  revert x. induction xs as [|y xs IH]; intros x; simpl; [done|].
  by rewrite <-f_div_add, IH.
Qed.

Lemma normalize_sums_to_one `{!ExactDiv F} (v : list F) :
  v ≠ [] → f_eqb (eigen_sum v) f_zero = false → eigen_sum (normalize v) = f_one.
Proof.
  destruct v as [|x xs]; [done|]. intros _ Hs. unfold normalize.
  set (s := eigen_sum (x :: xs)) in *. simpl.
  rewrite fold_add_div. by apply f_div_same.
Qed.

(** ** Detaching an unassigned word *)

(** C4. When the word [i] of document [j] is unassigned (its table is the
    sentinel 0), [remove_table st j i] succeeds and returns the state it was
    given. *)
Theorem remove_table_unassigned st j i :
  rd2 (t_ji st) j i = Ok 0 → remove_table st j i = Ok st.
Proof.
  intros Ht. unfold remove_table. rewrite Ht. reflexivity.
Qed.

(** ** The table posterior *)


(** ** Detach followed by attach *)

(** C5, as the code has it. Let the word [i] of document [j] sit at the
    table [t > 0], which bears the dish [k > 0], and let the table not be
    left empty by the detach (its word count is not 1). If the two float
    counters [n_k[k]] and [n_kv[k][v]] come back exactly from -1 then +1,
    as they do in exact arithmetic, then [remove_table st j i] followed by
    [add_table _ j t i] succeeds and restores every count. *)
Theorem detach_attach_round_trip st j i t k v (c : N) (d : defaultdict F) (mp : gmap nat N) :
  rd2 (t_ji st) j i = Ok t → 0 < t →
  rd2 (k_jt st) j t = Ok k → 0 < k →
  rd2 (x_ji st) j i = Ok v →
  rd (n_kv_ st) k = Ok d →
  rd2 (n_jt st) j t = Ok c → is_size c → c ≠ 1%N →
  rd2 (n_jtv st) j t = Ok mp → is_size (map_at mp v) →
  f_add (f_sub (dd_get (n_k st) k) f_one) f_one = dd_get (n_k st) k →
  f_add (f_sub (dd_get d v) f_one) f_one = dd_get d v →
  ∃ st1 st2, remove_table st j i = Ok st1 ∧ add_table st1 j t i = Ok st2 ∧
             same_counts st st2.
Proof.
  intros Ht Htpos Hk Hkpos Hv Hd Hc Hcsz Hc1 Hmp Hmpsz Hnk Hnkv.
  destruct (wr2_rd2 _ _ _ _ (sz_dec c) Hc) as [n_jt1 Hn_jt1].
  destruct (wr2_rd2 _ _ _ _ (<[v := sz_dec (map_at mp v)]> mp) Hmp) as [n_jtv1 Hn_jtv1].
  assert (k < length (n_kv_ st)) as Hklt by by eapply rd_lt.
  set (st1 := set_n_jtv (set_n_jt (set_n_k (set_n_kv_ st (<[k := dd_decr d v f_one]> (n_kv_ st)))
                 (dd_decr (n_k st) k f_one)) n_jt1) n_jtv1).
  assert (remove_table st j i = Ok st1) as Hrem.
  { unfold remove_table. rewrite Ht. simpl. rewrite decide_True by done.
    rewrite Hk, bind_ret, assert_true, bind_ret by by apply bool_decide_eq_true_2.
    rewrite Hv. simpl. rewrite Hd. simpl. rewrite wr_lt by done. simpl.
    rewrite Hc. simpl. rewrite Hn_jt1. simpl. rewrite Hmp. simpl. rewrite Hn_jtv1. simpl.
    rewrite decide_False; [done|]. by rewrite sz_dec_zero_iff. }
  destruct (wr2_rd2 _ _ _ _ (<[v:=sz_inc (map_at (<[v:=sz_dec (map_at mp v)]> mp) v)]>
              (<[v:=sz_dec (map_at mp v)]> mp)) (rd2_wr2_eq _ _ _ _ _ Hn_jtv1)) as [n_jtv2 Hn_jtv2].
  exists st1. eexists. split; [done|].
  unfold add_table. simpl.
  rewrite (wr2_id _ _ _ _ Ht). simpl. rewrite (rd2_wr2_eq _ _ _ _ _ Hn_jt1). simpl.
  rewrite sz_inc_dec by done.
  rewrite (wr2_wr2_id _ _ _ _ _ _ Hc Hn_jt1). simpl.
  rewrite Hk. simpl. rewrite Hv. simpl.
  unfold rd at 1. rewrite list_lookup_insert_eq by done. simpl.
  rewrite wr_lt by by rewrite length_insert. simpl.
  rewrite (rd2_wr2_eq _ _ _ _ _ Hn_jtv1). simpl.
  rewrite Hn_jtv2. simpl. split; [reflexivity|].
  split; simpl; try done.
  - apply wr2_Ok in Hn_jtv1 as (vrow & Hvrow & Hvt & ->).
    apply wr2_Ok in Hn_jtv2 as (vrow' & Hvrow' & _ & ->).
    rewrite list_lookup_insert_eq in Hvrow' by by eapply lookup_lt_Some.
    injection Hvrow' as <-. rewrite !list_insert_insert_eq.
    apply rd2_Ok in Hmp as (vrow' & ? & Hmp). simplify_eq.
    eapply Forall2_insert_r_same; [apply Forall2_map_same_refl|done|].
    eapply Forall2_insert_r_same; [apply map_same_refl|done|].
    by apply map_same_round_trip.
  - by apply dd_incr_decr.
  - rewrite list_insert_insert_eq. apply rd_Ok in Hd.
    eapply Forall2_insert_r_same; [apply dd_same_refl|done|].
    by apply dd_incr_decr.
Qed.

(** ** Leaving a dish *)

(** C6, as the code has it. For a table [t] of document [j] that bears the
    dish [k], a dish with [mk > 0] tables, [leave_from_dish st j t]
    succeeds; it lowers [m_k[k]] to [mk - 1] and the global count [m] by one
    (modulo 2^64). When [m_k[k]] reaches 0 (that is, [mk = 1]) the dish is
    removed from the active sequence and [k_jt[j][t]] is cleared to the
    sentinel. Otherwise the dish stays active and [k_jt[j][t]] keeps [k].
    No other member changes. *)
Theorem leave_from_dish_spec st j t k (krow : list nat) (mk : N) :
  k_jt st !! j = Some krow → krow !! t = Some k → 0 < k →
  m_k st !! k = Some mk → (0 < mk)%N → is_size mk →
  let st1 := set_m (set_m_k st (<[k := (mk - 1)%N]> (m_k st))) (sz_dec (m st)) in
  leave_from_dish st j t =
    Ok (if decide (mk = 1%N)
        then set_k_jt (delete_dish st1 k) (<[j := <[t := 0]> krow]> (k_jt st))
        else st1) ∧
  (mk ≠ 1%N → ∃ st', leave_from_dish st j t = Ok st' ∧
      dishes_ st' = dishes_ st ∧ rd2 (k_jt st') j t = Ok k) ∧
  (mk = 1%N → ∃ st', leave_from_dish st j t = Ok st' ∧
      dishes_ st' = removeFirst (dishes_ st) k ∧ rd2 (k_jt st') j t = Ok 0).
Proof.
  intros Hrow Hk Hpos Hmk Hmkpos Hsz st1.
  assert (leave_from_dish st j t =
    Ok (if decide (mk = 1%N)
        then set_k_jt (delete_dish st1 k) (<[j := <[t := 0]> krow]> (k_jt st))
        else st1)) as Heq.
  { unfold leave_from_dish.
    assert (rd2 (k_jt st) j t = Ok k) as -> by (apply rd2_Ok; eauto).
    rewrite bind_ret, assert_true, bind_ret by by apply bool_decide_eq_true_2.
    assert (rd (m_k st) k = Ok mk) as -> by by apply rd_Ok.
    rewrite bind_ret, assert_true, bind_ret by by apply bool_decide_eq_true_2.
    rewrite wr_lt by by eapply lookup_lt_Some. simpl.
    rewrite (sz_dec_pos mk) by done. fold st1.
    destruct (decide (mk = 1%N)) as [->|Hne].
    - simpl. assert (wr2 (k_jt st) j t 0 = Ok (<[j := <[t := 0]> krow]> (k_jt st))) as ->; [|done].
      apply wr2_Ok. exists krow. repeat split; try done. by eapply lookup_lt_Some.
    - rewrite decide_False by lia. done. }
  split; [done|]. split; intros Hcase; eexists; (split; [exact Heq|]).
  - rewrite decide_False by done. split; [done|]. apply rd2_Ok; eauto.
  - rewrite decide_True by done. split; [done|]. simpl.
    apply rd2_Ok. exists (<[t := 0]> krow). split.
    + apply list_lookup_insert_eq. by eapply lookup_lt_Some.
    + apply list_lookup_insert_eq. by eapply lookup_lt_Some.
Qed.

(** ** Construction and the accessors that are stubs *)

(** C7, as the code has it. Construction fails exactly when
    [MICROSCOPES_DCHECK] is compiled in and the declared document count or
    the vocabulary size is 0. Nothing else is checked: for every alpha,
    beta, gamma and every document list the state is built. *)
Theorem construct_checks (debug_mode : bool) (n v : N) (alpha beta gamma : F)
    (docs : list (list nat)) (rng : R) :
  construct debug_mode n v alpha beta gamma docs rng =
    if debug_mode && (bool_decide (n = 0%N) || bool_decide (v = 0%N))
    then Err CheckFailed
    else Ok (initialize (Model_definition n v) alpha beta gamma docs rng).
Proof.
  unfold construct, model_definition_new, MICROSCOPES_DCHECK.
  destruct debug_mode; simpl; [|done].
  destruct (decide (n = 0%N)) as [->|Hn]; [done|].
  destruct (decide (v = 0%N)) as [->|Hv].
  - rewrite (bool_decide_eq_true_2 (0 < n)%N) by lia. simpl.
    by rewrite (bool_decide_eq_false_2 (n = 0%N)).
  - rewrite (bool_decide_eq_true_2 (0 < n)%N) by lia.
    rewrite (bool_decide_eq_true_2 (0 < v)%N) by lia. simpl.
    by rewrite (bool_decide_eq_false_2 (n = 0%N)), (bool_decide_eq_false_2 (v = 0%N)).
Qed.

(** C9, what the code does. [table_assignments] and [dish_assignments]
    never report one entry per document: whatever the state, each raises
    the "not implemented" check when [MICROSCOPES_DCHECK] is compiled in and
    returns an empty container when it is not. *)
Theorem assignment_accessors_empty (debug_mode : bool) st :
  table_assignments debug_mode st = (if debug_mode then Err CheckFailed else Ok []) ∧
  dish_assignments debug_mode st = (if debug_mode then Err CheckFailed else Ok []).
Proof. by destruct debug_mode. Qed.

(** C10. [score_assignment] and [score_data] return 0 for every state and
    every generator, and leave the state as it was. *)
Theorem scores_are_zero st (rng : R) :
  score_assignment st = (f_of_size 0, st) ∧ score_data st rng = (f_of_size 0, st).
Proof. done. Qed.

(** ** What a resampling step leaves alone *)

Lemma delete_table_x_ji st j t st' :
  delete_table st j t = Ok st' → x_ji st' = x_ji st ∧ t_ji st' = t_ji st.
Proof.
  unfold delete_table. intros Hop. steps_ok Hop. case_decide; steps_ok Hop; by subst.
Qed.

Lemma remove_table_x_ji st j i st' :
  remove_table st j i = Ok st' → x_ji st' = x_ji st.
Proof.
  unfold remove_table. intros Hop. steps_ok Hop.
  case_decide; steps_ok Hop; [|by subst].
  case_decide; steps_ok Hop; [|by subst].
  by apply delete_table_x_ji in Hop as [-> _].
Qed.

Lemma add_table_x_ji st j t i st' :
  add_table st j t i = Ok st' → x_ji st' = x_ji st.
Proof. unfold add_table. intros Hop. steps_ok Hop. by subst. Qed.

Lemma create_dish_frame st k st' :
  create_dish st = Ok (k, st') →
  x_ji st' = x_ji st ∧ using_t st' = using_t st ∧ k_jt st' = k_jt st ∧
  n_jt st' = n_jt st ∧ n_jtv st' = n_jtv st ∧ t_ji st' = t_ji st ∧ k = first_free (dishes_ st).
Proof.
  unfold create_dish. intros Hop. steps_ok Hop. simplify_eq. simpl.
  case_decide; steps_ok E; by subst.
Qed.

Lemma create_table_x_ji st j k t st' :
  create_table st j k = Ok (t, st') → x_ji st' = x_ji st.
Proof.
  unfold create_table. intros Hop. steps_ok Hop. simplify_eq. simpl.
  case_decide; steps_ok E0; by subst.
Qed.

Lemma new_table_x_ji st j (f_k : list F) t st' :
  new_table st j f_k = Ok (t, st') → x_ji st' = x_ji st.
Proof.
  unfold new_table. intros Hop.
  inv_bind Hop as p_k Hp. inv_bind Hop as ? Hval. inv_bind Hop as k_new Hk.
  inv_bind Hop as [k st2] Hks. apply create_table_x_ji in Hop. rewrite Hop. simpl.
  case_decide.
  - by apply create_dish_frame in Hks as [-> _].
  - by simplify_eq.
Qed.

Lemma sampling_t_x_ji st j i st' :
  sampling_t st j i = Ok st' → x_ji st' = x_ji st.
Proof.
  unfold sampling_t. intros Hop.
  inv_bind Hop as st1 Hrem. inv_bind Hop as v Hv. inv_bind Hop as f_k Hfk.
  inv_bind Hop as f0 Hf0. inv_bind Hop as ? Hassert. inv_bind Hop as p_t Hp.
  inv_bind Hop as ? Hval. inv_bind Hop as t_new Ht. inv_bind Hop as [t st2] Hts.
  apply add_table_x_ji in Hop. rewrite Hop. simpl.
  apply remove_table_x_ji in Hrem. rewrite <-Hrem.
  case_decide.
  - by apply new_table_x_ji in Hts as ->.
  - by simplify_eq.
Qed.

Lemma sampling_t_fold_x_ji st st' (l : list (nat * nat)) :
  foldR (λ st ji, sampling_t st ji.1 ji.2) st l = Ok st' → x_ji st' = x_ji st.
Proof.
  apply (foldR_invariant (λ s, x_ji s = x_ji st)); [|done].
  intros s ji s' Hs Hstep. by rewrite (sampling_t_x_ji _ _ _ _ Hstep).
Qed.

Lemma word_phase_from (docs rest : list (list nat)) (o : nat) st :
  x_ji st = docs → drop o docs = rest →
  foldR (λ st j, row ← rd (x_ji st) j;
                 foldR (λ st i, sampling_t st j i) st (seq 0 (length row)))
        st (seq o (length rest)) =
  foldR (λ st ji, sampling_t st ji.1 ji.2) st
        (mjoin (imap (λ j row, pair (o + j) <$> seq 0 (length row)) rest)).
Proof.
  revert o st. induction rest as [|row rest IH]; intros o st Hdocs Hdrop; [done|].
  cbn [length seq foldR imap mjoin list_join].
  assert (x_ji st !! o = Some row) as Hrow.
  { rewrite Hdocs, <-(Nat.add_0_r o), <-lookup_drop, Hdrop. done. }
  apply rd_Ok in Hrow. rewrite Hrow, bind_ret, foldR_app, Nat.add_0_r.
  rewrite <-(foldR_fmap (λ st ji, sampling_t st ji.1 ji.2) (pair o)).
  destruct (foldR _ st (pair o <$> _)) as [st1|] eqn:Hinner; [|done].
  rewrite !bind_ret. rewrite (IH (S o)).
  - f_equal. f_equal. apply imap_ext. intros. simpl. f_equal. f_equal. lia.
  - apply sampling_t_fold_x_ji in Hinner. congruence.
  - by rewrite <-Nat.add_1_r, <-drop_drop, Hdrop.
Qed.

Lemma word_phase_order st :
  word_phase st = foldR (λ st ji, sampling_t st ji.1 ji.2) st (word_order (x_ji st)).
Proof.
  unfold word_phase, word_order. by rewrite (word_phase_from (x_ji st) (x_ji st) 0).
Qed.

(** [sampling_k] leaves the active tables of every document as they are:
    the table loop of [_inference] walks a vector that does not change
    under it. *)
Lemma leave_from_dish_frame st j t st' :
  leave_from_dish st j t = Ok st' →
  using_t st' = using_t st ∧ x_ji st' = x_ji st.
Proof.
  unfold leave_from_dish. intros Hop.
  inv_bind Hop as k Hk. inv_bind Hop as ? Ha1. inv_bind Hop as mk Hmk.
  inv_bind Hop as ? Ha2. inv_bind Hop as m_k' Hw.
  case_decide; [inv_bind Hop as k_jt' Hw2|]; by simplify_eq.
Qed.

Lemma seat_at_dish_frame st j t k st' :
  seat_at_dish st j t k = Ok st' →
  using_t st' = using_t st ∧ x_ji st' = x_ji st.
Proof.
  unfold seat_at_dish. intros Hop.
  inv_bind Hop as mk Hmk. inv_bind Hop as m_k' Hw. inv_bind Hop as k_old Hk.
  case_decide; [|by simplify_eq].
  inv_bind Hop as ? Ha. inv_bind Hop as k_jt' Hw2. inv_bind Hop as c Hc.
  inv_bind Hop as mp Hmp. inv_bind Hop as n_kv' Hf. by simplify_eq.
Qed.

Lemma sampling_k_frame st j t st' :
  sampling_k st j t = Ok st' → using_t st' = using_t st ∧ x_ji st' = x_ji st.
Proof.
  unfold sampling_k. intros Hop.
  inv_bind Hop as st1 Hleave. inv_bind Hop as p_k Hp. inv_bind Hop as ? Hval.
  inv_bind Hop as ? Ha. inv_bind Hop as k_new Hk. inv_bind Hop as [k st2] Hks.
  apply seat_at_dish_frame in Hop as [-> ->]. simpl.
  apply leave_from_dish_frame in Hleave as [<- <-].
  case_decide.
  - by apply create_dish_frame in Hks as (-> & -> & _).
  - by simplify_eq.
Qed.

Lemma sampling_k_fold_frame st st' (l : list (nat * nat)) :
  foldR (λ st jt, sampling_k st jt.1 jt.2) st l = Ok st' →
  using_t st' = using_t st ∧ x_ji st' = x_ji st.
Proof.
  apply (foldR_invariant (λ s, using_t s = using_t st ∧ x_ji s = x_ji st)); [|done].
  intros s jt s' [Hu Hx] Hstep. apply sampling_k_frame in Hstep as [-> ->]. done.
Qed.

Lemma table_phase_from (rows rest : list (list nat)) (o : nat) st :
  using_t st = rows → drop o rows = rest →
  foldR (λ st j, row ← rd (using_t st) j;
                 foldR (λ st t, if decide (t ≠ 0) then sampling_k st j t else Ok st) st row)
        st (seq o (length rest)) =
  foldR (λ st jt, sampling_k st jt.1 jt.2) st
        (mjoin (imap (λ j row, pair (o + j) <$> filter (λ t, t ≠ 0) row) rest)).
Proof.
  revert o st. induction rest as [|row rest IH]; intros o st Hrows Hdrop; [done|].
  cbn [length seq foldR imap mjoin list_join].
  assert (using_t st !! o = Some row) as Hrow.
  { rewrite Hrows, <-(Nat.add_0_r o), <-lookup_drop, Hdrop. done. }
  apply rd_Ok in Hrow. rewrite Hrow, bind_ret, foldR_app, Nat.add_0_r.
  rewrite foldR_filter.
  rewrite <-(foldR_fmap (λ st jt, sampling_k st jt.1 jt.2) (pair o)).
  destruct (foldR _ st (pair o <$> _)) as [st1|] eqn:Hinner; [|done].
  rewrite !bind_ret. rewrite (IH (S o)).
  - f_equal. f_equal. apply imap_ext. intros. simpl. f_equal. f_equal. lia.
  - apply sampling_k_fold_frame in Hinner as [-> _]. done.
  - by rewrite <-Nat.add_1_r, <-drop_drop, Hdrop.
Qed.

Lemma table_phase_order st :
  length (using_t st) = length (x_ji st) →
  table_phase st =
    foldR (λ st jt, sampling_k st jt.1 jt.2) st (table_order (using_t st)).
Proof.
  intros Hlen. unfold table_phase, table_order. rewrite <-Hlen.
  by rewrite (table_phase_from (using_t st) (using_t st) 0).
Qed.

(** ** The invariant of the sampler *)

Lemma initialize_well_formed def (alpha beta gamma : F) docs (rng : R) :
  well_formed (initialize def alpha beta gamma docs rng).
Proof.
  split; simpl.
  - split; [done|]. repeat constructor.
  - repeat constructor.
  - done.
  - rewrite <-list_fmap_compose. apply Forall2_fmap, Forall_Forall2_diag, Forall_forall.
    intros d _. simpl. split; [split; [done|repeat constructor]|]. repeat constructor.
  - rewrite <-!list_fmap_compose. by apply list_fmap_ext.
  - rewrite <-!list_fmap_compose. by apply list_fmap_ext.
  - by rewrite !length_fmap.
Qed.

Lemma set_rng_well_formed st (r : R) : well_formed st → well_formed (set_rng_ st r).
Proof. intros []. by split. Qed.

Lemma delete_table_well_formed st j t k st' :
  well_formed st → 0 < t → rd2 (k_jt st) j t = Ok k → 0 < k →
  delete_table st j t = Ok st' → well_formed st'.
Proof.
  intros [Hds Hdr Hnkv Htabs Hnjt Hnjtv Htji] Ht Hk Hkpos. unfold delete_table. rewrite Hk, bind_ret. intros Hop.
  inv_bind Hop as row Hrow. inv_bind Hop as using_t' Hw. inv_bind Hop as mk Hmk.
  inv_bind Hop as m_k' Hw2. inv_bind Hop as ? Ha.
  apply wr_Ok in Hw as [Hj ->]. apply wr_Ok in Hw2 as [Hklt ->]. apply rd_Ok in Hrow.
  assert (Forall2 (λ row n, sorted_ids row ∧ Forall (λ t, t < n) row)
            (<[j := removeFirst row t]> (using_t st)) (length <$> k_jt st)) as Htab.
  { destruct (Forall2_lookup_l _ _ _ _ _ Htabs Hrow) as (n & Hn & Hsorted & Hrange).
    eapply Forall2_insert_l; [done|done|]. split.
    - by apply sorted_ids_removeFirst.
    - by apply removeFirst_Forall. }
  case_decide; simplify_eq; split; simpl; rewrite ?length_insert; try done.
  - by apply sorted_ids_removeFirst.
  - by apply removeFirst_Forall.
Qed.

Lemma remove_table_well_formed st j i st' :
  well_formed st → seating None st → remove_table st j i = Ok st' → well_formed st'.
Proof.
  intros Hwf Hseat. unfold remove_table. intros Hop. inv_bind Hop as t Ht.
  case_decide as Htpos; [|by simplify_eq].
  inv_bind Hop as k Hk. inv_bind Hop as ? Ha. inv_bind Hop as v Hv.
  inv_bind Hop as d Hd. inv_bind Hop as n_kv' Hw. inv_bind Hop as c Hc.
  inv_bind Hop as n_jt' Hw2. inv_bind Hop as mp Hmp. inv_bind Hop as n_jtv' Hw3.
  assert (0 < k) as Hkpos.
  { apply rd2_Ok in Ht as (trow & Htrow & Ht).
    eapply (seat_words _ _ Hseat j trow t); [done|by eapply list_elem_of_lookup_2|done|done|done]. }
  apply wr_Ok in Hw as [Hklt ->]. apply wr2_shape in Hw2, Hw3.
  match type of Hop with
  | (if _ then delete_table ?s _ _ else _) = _ => assert (well_formed s) as Hwf'
  end.
  { destruct Hwf. split; simpl; rewrite ?length_insert; try done; congruence. }
  case_decide; [|by simplify_eq].
  by eapply (delete_table_well_formed _ j t k).
Qed.

Lemma add_table_well_formed st j t i st' :
  well_formed st → add_table st j t i = Ok st' → well_formed st'.
Proof.
  intros Hwf. unfold add_table. intros Hop.
  inv_bind Hop as t_ji' Hw. inv_bind Hop as c Hc. inv_bind Hop as n_jt' Hw2.
  inv_bind Hop as k Hk. inv_bind Hop as v Hv. inv_bind Hop as d Hd.
  inv_bind Hop as n_kv' Hw3. inv_bind Hop as mp Hmp. inv_bind Hop as n_jtv' Hw4.
  apply wr_Ok in Hw3 as [Hklt ->]. apply wr2_shape in Hw2, Hw4.
  pose proof (f_equal length (wr2_shape _ _ _ _ _ Hw)) as Hlen. rewrite !length_fmap in Hlen.
  simplify_eq. destruct Hwf. split; simpl; rewrite ?length_insert; try done; congruence.
Qed.

Lemma create_dish_spec st :
  well_formed st →
  let k := first_free (dishes_ st) in
  ∃ st', create_dish st = Ok (k, st') ∧ well_formed st' ∧
         dishes_ st' = take k (dishes_ st) ++ k :: drop k (dishes_ st) ∧
         k < length (m_k st') ∧ same_tables st st'.
Proof.
  intros [Hds Hdr Hnkv Htabs Hnjt Hnjtv Htji] k0. subst k0.
  pose proof (first_free_spec _ Hds) as (Hpos & Hle & Htake & Hdrop).
  pose proof (first_free_range _ _ Hds Hdr) as [Hlt Hle'].
  pose proof (first_free_back _ Hds) as Hback.
  pose proof (first_free_insert_sorted _ Hds) as Hsorted.
  unfold create_dish.
  remember (first_free (dishes_ st)) as k eqn:Hkdef. clear Hkdef.
  cbn zeta.
  match goal with
  | |- context [ if decide (k = length (dishes_ st)) then ?a else ?b ] =>
      assert (∃ st1, (if decide (k = length (dishes_ st)) then a else b) = Ok st1 ∧
               dishes_ st1 = dishes_ st ∧ k < length (m_k st1) ∧
               length (n_kv_ st1) = length (m_k st1) ∧
               length (m_k st) ≤ length (m_k st1) ∧ same_tables st st1)
        as (st1 & Hst1 & Hds1 & Hk1 & Hnkv1 & Hgrow & Hsame)
  end.
  { case_decide as Hfull.
    - destruct (rd_is_Ok (m_k st) 0 ltac:(lia)) as [m0 Hm0].
      eexists. rewrite Hm0, bind_ret. simpl dishes_.
      rewrite (back_Ok _ (k - 1)) by by apply Hback.
      rewrite bind_ret, (assert_true (bool_decide (k = k - 1 + 1))), bind_ret
        by (apply bool_decide_eq_true_2; lia).
      simpl n_kv_.
      rewrite assert_true, bind_ret
        by (apply bool_decide_eq_true_2; rewrite length_app; simpl; lia).
      split; [done|]. simpl.
      rewrite !length_app. simpl. repeat split; try done; lia.
    - exists st. repeat split; try done; lia. }
  eexists. rewrite Hst1, bind_ret, Hds1.
  rewrite insert_at_Ok, bind_ret by done.
  rewrite (wr_lt (n_kv_ st1)), bind_ret by lia.
  rewrite (wr_lt (m_k st1)), bind_ret by done.
  split; [reflexivity|]. destruct Hsame as (Hu & Hk & Hn & Hv & Ht & Hx).
  split; [|simpl; rewrite length_insert; by repeat split].
  split; simpl; rewrite ?length_insert, ?Hu, ?Hk, ?Hn, ?Hv, ?Ht; try done.
  apply Forall_app. split; [|apply Forall_cons; split; [done|]].
  - eapply Forall_sublist; [apply sublist_take|]. eapply Forall_impl; [exact Hdr|]. simpl. lia.
  - eapply Forall_sublist; [apply sublist_drop|]. eapply Forall_impl; [exact Hdr|]. simpl. lia.
Qed.

Lemma create_table_spec st j k (row : list nat) :
  well_formed st → using_t st !! j = Some row → 0 < k → k < length (m_k st) →
  let t := first_free row in
  ∃ st', create_table st j k = Ok (t, st') ∧ well_formed st' ∧
         using_t st' = <[j := take t row ++ t :: drop t row]> (using_t st) ∧
         dishes_ st' = dishes_ st ∧ rd2 (k_jt st') j t = Ok k ∧
         t_ji st' = t_ji st ∧ x_ji st' = x_ji st ∧ n_kv_ st' = n_kv_ st ∧
         ∃ krow pad, k_jt st !! j = Some krow ∧ t < length (krow ++ pad) ∧
                     k_jt st' = <[j := <[t := k]> (krow ++ pad)]> (k_jt st).
Proof.
  intros Hwf Hrow Hkpos Hklt t0. subst t0.
  pose proof Hwf as [Hds Hdr Hnkv Htabs Hnjt Hnjtv Htji].
  destruct (Forall2_lookup_l _ _ _ _ _ Htabs Hrow) as (n & Hn & Hsorted & Hrange).
  pose proof (first_free_spec _ Hsorted) as (Hpos & Hle & Htake & Hdrop).
  pose proof (first_free_range _ _ Hsorted Hrange) as [Hlt Hle'].
  pose proof (first_free_insert_sorted _ Hsorted) as Hsorted'.
  pose proof Hn as Hn1. rewrite <-Hnjt in Hn1. pose proof Hn as Hn2. rewrite <-Hnjtv in Hn2.
  apply shape_lookup in Hn as (krow & Hkrow & Hklen).
  apply shape_lookup in Hn1 as (nrow & Hnrow & Hnlen).
  apply shape_lookup in Hn2 as (vrow & Hvrow & Hvlen).
  unfold create_table. apply rd_Ok in Hrow. rewrite Hrow, bind_ret. apply rd_Ok in Hrow.
  remember (first_free row) as t eqn:Htdef. clear Htdef. cbn zeta.
  match goal with
  | |- context [ if decide (t = length row) then ?a else ?b ] =>
      assert (∃ st1 n1, (if decide (t = length row) then a else b) = Ok st1 ∧
               well_formed st1 ∧ using_t st1 = using_t st ∧
               (length <$> k_jt st1) !! j = Some n1 ∧ t < n1 ∧ n ≤ n1 ∧
               m_k st1 = m_k st ∧ dishes_ st1 = dishes_ st ∧ m st1 = m st ∧
               t_ji st1 = t_ji st ∧ x_ji st1 = x_ji st ∧ n_kv_ st1 = n_kv_ st ∧
               ∃ pad, k_jt st1 = <[j := krow ++ pad]> (k_jt st))
        as (st1 & n1 & Hst1 & Hwf1 & Hu1 & Hn1 & Htn1 & Hnn1 & Hm1 & Hd1 & Hmm1 & Ht1 & Hx1 & Hkv1 & pad & Hpad)
  end.
  { case_decide as Hfull.
    - apply rd_Ok in Hnrow, Hkrow, Hvrow. rewrite Hnrow, bind_ret.
      rewrite (wr_lt (n_jt st)), bind_ret by by eapply rd_lt.
      rewrite Hkrow, bind_ret. rewrite (wr_lt (k_jt st)), bind_ret by by eapply rd_lt.
      rewrite Hvrow, bind_ret. rewrite (wr_lt (n_jtv st)), bind_ret by by eapply rd_lt.
      apply rd_Ok in Hnrow, Hkrow, Hvrow.
      eexists _, (S n). split; [reflexivity|]. simpl.
      assert (length <$> <[j := krow ++ [0]]> (k_jt st) = <[j := S n]> (length <$> k_jt st)) as Hshape.
      { rewrite list_fmap_insert, length_app. simpl. f_equal. lia. }
      split; [|rewrite Hshape; repeat split; try done; try lia;
               [apply list_lookup_insert_eq; rewrite length_fmap; by eapply lookup_lt_Some
               |by exists [0]]].
      split; simpl; rewrite ?length_insert; try done.
      + rewrite Hshape. eapply Forall2_insert_r; [done|done|]. split; [done|].
        eapply Forall_impl; [exact Hrange|]. simpl. lia.
      + rewrite Hshape, list_fmap_insert, length_app. simpl. rewrite Hnjt. f_equal. lia.
      + rewrite Hshape, list_fmap_insert, length_app. simpl. rewrite Hnjtv. f_equal. lia.
    - exists st, n. split; [done|]. split; [done|]. repeat split; try done; try lia.
      + apply shape_lookup. eauto.
      + exists []. by rewrite app_nil_r, list_insert_id. }
  pose proof Hwf1 as [Hds1 Hdr1 Hnkv1 Htabs1 Hnjt1 Hnjtv1 Htji1].
  pose proof Hn1 as Hn1'. rewrite <-Hnjt1 in Hn1'.
  apply shape_lookup in Hn1 as (krow1 & Hkrow1 & Hklen1).
  apply shape_lookup in Hn1' as (nrow1 & Hnrow1 & Hnlen1).
  destruct (rd_is_Ok (m_k st1) k ltac:(by rewrite Hm1)) as [mk Hmk].
  eexists. rewrite Hst1, bind_ret. rewrite insert_at_Ok, bind_ret by done.
  rewrite (wr_lt (using_t st1)), bind_ret by (rewrite Hu1; by eapply lookup_lt_Some).
  assert (wr2 (n_jt st1) j t 0%N = Ok (<[j := <[t := 0%N]> nrow1]> (n_jt st1))) as ->.
  { apply wr2_Ok. exists nrow1. repeat split; try done. lia. }
  rewrite bind_ret, assert_true, bind_ret by (apply bool_decide_eq_true_2; lia).
  assert (wr2 (k_jt st1) j t k = Ok (<[j := <[t := k]> krow1]> (k_jt st1))) as ->.
  { apply wr2_Ok. exists krow1. repeat split; try done. lia. }
  rewrite bind_ret.
  rewrite Hmk, bind_ret, (wr_lt (m_k st1)), bind_ret by by rewrite Hm1.
  split; [reflexivity|]. simpl.
  assert (length <$> <[j := <[t := k]> krow1]> (k_jt st1) = length <$> k_jt st1) as Hshape.
  { rewrite list_fmap_insert, length_insert. apply list_insert_id.
    apply shape_lookup. eauto. }
  split; [|rewrite Hu1; repeat split; try done].
  - split; simpl; rewrite ?length_insert, ?Hshape; try done.
    + eapply Forall2_insert_l; [done|apply shape_lookup; eauto|]. split; [done|].
      rewrite Hu1 in Htabs1.
      apply Forall_app. split; [|apply Forall_cons; split; [lia|]].
      * eapply Forall_sublist; [apply sublist_take|]. eapply Forall_impl; [exact Hrange|]. simpl. lia.
      * eapply Forall_sublist; [apply sublist_drop|]. eapply Forall_impl; [exact Hrange|]. simpl. lia.
    + rewrite list_fmap_insert, length_insert. rewrite list_insert_id; [done|].
      apply shape_lookup. eauto.
  - apply rd2_Ok. exists (<[t := k]> krow1). split.
    + apply list_lookup_insert_eq. by eapply lookup_lt_Some.
    + apply list_lookup_insert_eq. lia.
  - rewrite Hpad in Hkrow1. rewrite list_lookup_insert_eq in Hkrow1 by by eapply lookup_lt_Some.
    injection Hkrow1 as <-. exists krow, pad. split; [done|]. split; [lia|].
    by rewrite Hpad, list_insert_insert_eq.
Qed.

Lemma create_dish_well_formed st k st' :
  well_formed st → create_dish st = Ok (k, st') →
  well_formed st' ∧ 0 < k ∧ k < length (m_k st') ∧ same_tables st st'.
Proof.
  intros Hwf Hop. destruct (create_dish_spec st Hwf) as (st2 & Hst2 & Hwf2 & _ & Hk & Hsame).
  rewrite Hop in Hst2. injection Hst2 as -> ->. split; [done|]. split; [|done].
  apply (first_free_spec _ (wf_dishes _ Hwf)).
Qed.

Lemma create_table_inv st j k t st' :
  create_table st j k = Ok (t, st') →
  k < length (m_k st) ∧ ∃ row, using_t st !! j = Some row.
Proof.
  unfold create_table. intros Hop. inv_bind Hop as row Hrow. inv_bind Hop as st1 Hst1.
  inv_bind Hop as row' Hrow'. inv_bind Hop as using_t' Hw. inv_bind Hop as n_jt' Hw2.
  inv_bind Hop as ? Ha. inv_bind Hop as k_jt' Hw3. inv_bind Hop as mk Hmk.
  apply rd_lt in Hmk. apply rd_Ok in Hrow.
  assert (m_k st1 = m_k st) as Hm.
  { case_decide; [|by simplify_eq].
    inv_bind Hst1 as nrow Hn. inv_bind Hst1 as n_jt1 Hw4. inv_bind Hst1 as krow Hk.
    inv_bind Hst1 as k_jt1 Hw5. inv_bind Hst1 as vrow Hv. inv_bind Hst1 as n_jtv1 Hw6.
    by simplify_eq. }
  rewrite Hm in Hmk. split; [done|]. eauto.
Qed.

(** What [create_table] changes in [using_t] and [k_jt], when it succeeds
    for a dish [k > 0] from a well-formed state. *)
Lemma create_table_effect st j k t st' :
  well_formed st → 0 < k → create_table st j k = Ok (t, st') →
  well_formed st' ∧ 0 < t ∧ t_ji st' = t_ji st ∧
  ∃ row krow pad,
    using_t st !! j = Some row ∧ k_jt st !! j = Some krow ∧
    Forall (λ t', t' < length krow) row ∧ (t ∉ row) ∧
    t < length (krow ++ pad) ∧
    using_t st' = <[j := take t row ++ t :: drop t row]> (using_t st) ∧
    k_jt st' = <[j := <[t := k]> (krow ++ pad)]> (k_jt st).
Proof.
  intros Hwf Hkpos Hop. destruct (create_table_inv _ _ _ _ _ Hop) as (Hklt & row & Hrow).
  destruct (create_table_spec st j k row Hwf Hrow Hkpos Hklt)
    as (st2 & Hst2 & Hwf2 & Hu & _ & _ & Htj & _ & _ & krow & pad & Hkrow & Htlt & Hkj).
  rewrite Hop in Hst2. injection Hst2 as -> ->. split; [done|].
  destruct (Forall2_lookup_l _ _ _ _ _ (wf_tables _ Hwf) Hrow) as (n & Hn & Hsorted & Hrange).
  apply shape_lookup in Hn as (krow' & Hkrow' & <-). simplify_eq.
  split; [apply (first_free_spec _ Hsorted)|]. split; [done|].
  exists row, krow, pad. repeat split; try done.
  apply (first_free_lowest _ Hsorted).
Qed.

Lemma leave_from_dish_well_formed st j t st' :
  well_formed st → (∀ k, rd2 (k_jt st) j t = Ok k → 0 < k) →
  leave_from_dish st j t = Ok st' → well_formed st'.
Proof.
  intros [Hds Hdr Hnkv Htabs Hnjt Hnjtv Htji] Hbears. unfold leave_from_dish. intros Hop.
  inv_bind Hop as k Hk. inv_bind Hop as ? Ha1. inv_bind Hop as mk Hmk.
  inv_bind Hop as ? Ha2. inv_bind Hop as m_k' Hw.
  specialize (Hbears _ Hk). apply wr_Ok in Hw as [Hklt ->].
  case_decide.
  - inv_bind Hop as k_jt' Hw2. simpl in Hw2. pose proof (wr2_shape _ _ _ _ _ Hw2) as Hshape.
    simplify_eq. split; simpl; rewrite ?length_insert, ?Hshape; try done.
    + by apply sorted_ids_removeFirst.
    + by apply removeFirst_Forall.
    + pose proof (f_equal length Hshape) as Hlen. rewrite !length_fmap in Hlen. congruence.
  - simplify_eq. split; simpl; rewrite ?length_insert; done.
Qed.

Lemma move_word_length k_old k_new (n_kv n_kv' : list (defaultdict F)) (kv : nat * N) :
  move_word k_old k_new n_kv kv = Ok n_kv' → length n_kv' = length n_kv.
Proof.
  unfold move_word. intros Hop. inv_bind Hop as n_kv1 H1'. inv_bind Hop as d Hd.
  apply wr_Ok in Hop as [_ ->]. rewrite length_insert.
  case_decide; [|by simplify_eq]. inv_bind H1' as d' Hd'.
  apply wr_Ok in H1' as [_ ->]. by rewrite length_insert.
Qed.

Lemma seat_at_dish_well_formed st j t k st' :
  well_formed st → seat_at_dish st j t k = Ok st' → well_formed st'.
Proof.
  intros [Hds Hdr Hnkv Htabs Hnjt Hnjtv Htji]. unfold seat_at_dish. intros Hop.
  inv_bind Hop as mk Hmk. inv_bind Hop as m_k' Hw. inv_bind Hop as k_old Hk.
  apply wr_Ok in Hw as [Hklt ->]. simpl in Hk.
  case_decide; [|simplify_eq; split; simpl; rewrite ?length_insert; done].
  inv_bind Hop as ? Ha. inv_bind Hop as k_jt' Hw2. inv_bind Hop as c Hc.
  inv_bind Hop as mp Hmp. inv_bind Hop as n_kv' Hf. simpl in *.
  pose proof (wr2_shape _ _ _ _ _ Hw2) as Hshape.
  apply (foldR_length _ _ _ _ (λ s a s', move_word_length k_old k s s' a)) in Hf.
  simplify_eq. split; simpl; rewrite ?length_insert, ?Hshape; try done; try congruence.
  pose proof (f_equal length Hshape) as Hlen. rewrite !length_fmap in Hlen. congruence.
Qed.

Lemma remove_table_t_ji st j i st' :
  remove_table st j i = Ok st' →
  t_ji st' = t_ji st ∧ ∃ t0, rd2 (t_ji st) j i = Ok t0.
Proof.
  unfold remove_table. intros Hop. inv_bind Hop as t Ht. split; [|eauto].
  case_decide; [|by simplify_eq].
  inv_bind Hop as k Hk. inv_bind Hop as ? Ha. inv_bind Hop as v Hv.
  inv_bind Hop as d Hd. inv_bind Hop as n_kv' Hw. inv_bind Hop as c Hc.
  inv_bind Hop as n_jt' Hw2. inv_bind Hop as mp Hmp. inv_bind Hop as n_jtv' Hw3.
  case_decide; [|by simplify_eq].
  by apply delete_table_x_ji in Hop as [_ ->].
Qed.

(** *** Tables bear dishes *)

Lemma bears_dish_weaken st hole j t :
  bears_dish st None j t → bears_dish st hole j t.
Proof. intros Hb Ht _. by apply Hb. Qed.

Lemma seating_weaken st hole : seating None st → seating hole st.
Proof.
  intros [Ha Hw Hr]. split; [| |done].
  - intros j row t Hrow Ht. by eapply bears_dish_weaken, Ha.
  - intros j trow t Hrow Ht. by eapply bears_dish_weaken, Hw.
Qed.

Lemma initialize_seating def (alpha beta gamma : F) docs (rng : R) :
  seating None (initialize def alpha beta gamma docs rng).
Proof.
  split; cbn [initialize using_t t_ji k_jt].
  - intros j row t Hrow Ht Hpos. apply list_lookup_fmap_Some in Hrow as (d & -> & _).
    apply list_elem_of_singleton in Ht. lia.
  - intros j trow t Hrow Ht Hpos. apply list_lookup_fmap_Some in Hrow as (d & -> & _).
    apply elem_of_replicate in Ht as [-> _]. lia.
  - intros j trow krow Htrow Hkrow.
    apply list_lookup_fmap_Some in Htrow as (d & -> & _).
    apply list_lookup_fmap_Some in Hkrow as (d' & -> & _).
    apply Forall_forall. intros t Ht. apply elem_of_replicate in Ht as [-> _]. simpl. lia.
Qed.

(** A seating carries over to a state with the same [k_jt] and [t_ji] and
    no new active table. *)
Lemma seating_frame st st' hole :
  k_jt st' = k_jt st → t_ji st' = t_ji st →
  (∀ j row', using_t st' !! j = Some row' →
             ∃ row, using_t st !! j = Some row ∧ row' ⊆ row) →
  seating hole st → seating hole st'.
Proof.
  intros Hk Ht Hu [Ha Hw Hr]. split.
  - intros j row' t Hrow' Hin. destruct (Hu _ _ Hrow') as (row & Hrow & Hsub).
    unfold bears_dish. rewrite Hk. apply (Ha j row t Hrow). by apply Hsub.
  - intros j trow t. unfold bears_dish. rewrite Hk, Ht. apply Hw.
  - intros j trow krow. rewrite Hk, Ht. apply Hr.
Qed.

Lemma set_rng_seating st hole (r : R) : seating hole st → seating hole (set_rng_ st r).
Proof. apply seating_frame; try done. intros j row' Hrow'. by exists row'. Qed.

Lemma delete_table_tables st j t st' :
  delete_table st j t = Ok st' →
  k_jt st' = k_jt st ∧
  ∀ j' row', using_t st' !! j' = Some row' →
             ∃ row, using_t st !! j' = Some row ∧ row' ⊆ row.
Proof.
  unfold delete_table. intros Hop. inv_bind Hop as k Hk. inv_bind Hop as row Hrow.
  inv_bind Hop as using_t' Hw. inv_bind Hop as mk Hmk. inv_bind Hop as m_k' Hw2.
  inv_bind Hop as ? Ha. apply wr_Ok in Hw as [Hj ->]. apply rd_Ok in Hrow.
  assert (∀ j' row', <[j := removeFirst row t]> (using_t st) !! j' = Some row' →
            ∃ row0, using_t st !! j' = Some row0 ∧ row' ⊆ row0) as Hsub.
  { intros j' row'. destruct (decide (j = j')) as [<-|Hne].
    - rewrite list_lookup_insert_eq by done. intros [= <-]. exists row. split; [done|].
      apply sublist_subseteq, removeFirst_sublist.
    - rewrite list_lookup_insert_ne by done. intros Hrow'. by exists row'. }
  case_decide; simplify_eq; by split.
Qed.

Lemma remove_table_seating st hole j i st' :
  seating hole st → remove_table st j i = Ok st' → seating hole st'.
Proof.
  intros Hseat Hop. destruct (remove_table_t_ji _ _ _ _ Hop) as [Ht _].
  revert Hop. unfold remove_table. intros Hop. inv_bind Hop as t Ht0.
  case_decide; [|by simplify_eq].
  inv_bind Hop as k Hk. inv_bind Hop as ? Ha. inv_bind Hop as v Hv.
  inv_bind Hop as d Hd. inv_bind Hop as n_kv' Hw. inv_bind Hop as c Hc.
  inv_bind Hop as n_jt' Hw2. inv_bind Hop as mp Hmp. inv_bind Hop as n_jtv' Hw3.
  case_decide.
  - apply delete_table_tables in Hop as [Hkj Hu]. simpl in Hkj, Hu.
    by eapply (seating_frame st st').
  - simplify_eq. eapply (seating_frame st); [reflexivity|reflexivity| |exact Hseat].
    intros j' row' Hrow'. by exists row'.
Qed.

Lemma add_table_tables st j t i st' :
  add_table st j t i = Ok st' →
  k_jt st' = k_jt st ∧ using_t st' = using_t st ∧
  (∃ k, rd2 (k_jt st) j t = Ok k) ∧
  ∃ trow, t_ji st !! j = Some trow ∧ i < length trow ∧
          t_ji st' = <[j := <[i := t]> trow]> (t_ji st).
Proof.
  unfold add_table. intros Hop.
  inv_bind Hop as t_ji' Hw. inv_bind Hop as c Hc. inv_bind Hop as n_jt' Hw2.
  inv_bind Hop as k Hk. inv_bind Hop as v Hv. inv_bind Hop as d Hd.
  inv_bind Hop as n_kv' Hw3. inv_bind Hop as mp Hmp. inv_bind Hop as n_jtv' Hw4.
  apply wr2_Ok in Hw as (trow & Htrow & Hi & ->). simplify_eq. simpl.
  repeat split; eauto.
Qed.

Lemma add_table_seating st hole j t i st' :
  seating hole st → bears_dish st hole j t →
  add_table st j t i = Ok st' → seating hole st'.
Proof.
  intros [Ha Hw Hr] Hb Hop.
  destruct (add_table_tables _ _ _ _ _ Hop) as (Hk & Hu & (k & Hkt) & trow & Htrow & Hi & Ht).
  split.
  - intros j' row t' Hrow Hin. unfold bears_dish. rewrite Hk. rewrite Hu in Hrow. by eapply Ha.
  - intros j' trow' t' Htrow' Hin. unfold bears_dish. rewrite Hk. rewrite Ht in Htrow'.
    destruct (decide (j = j')) as [<-|Hne].
    + rewrite list_lookup_insert_eq in Htrow' by by eapply lookup_lt_Some.
      injection Htrow' as <-. apply list_elem_of_lookup in Hin as [i' Hi'].
      destruct (decide (i = i')) as [<-|Hne].
      * rewrite list_lookup_insert_eq in Hi' by done. by injection Hi' as <-.
      * rewrite list_lookup_insert_ne in Hi' by done.
        eapply Hw; [done|]. by eapply list_elem_of_lookup_2.
    + rewrite list_lookup_insert_ne in Htrow' by done. by eapply Hw.
  - intros j' trow' krow Htrow' Hkrow. rewrite Hk in Hkrow. rewrite Ht in Htrow'.
    destruct (decide (j = j')) as [<-|Hne].
    + rewrite list_lookup_insert_eq in Htrow' by by eapply lookup_lt_Some.
      injection Htrow' as <-. apply Forall_insert; [by eapply Hr|].
      apply rd2_Ok in Hkt as (krow' & Hkrow' & Hkt). simplify_eq. by eapply lookup_lt_Some.
    + rewrite list_lookup_insert_ne in Htrow' by done. by eapply Hr.
Qed.

Lemma rd2_insert2 {A} (l : list (list A)) (j t : nat) (x : A) (row : list A)
    (j' t' : nat) (y : A) :
  l !! j = Some row → rd2 (<[j := <[t := x]> row]> l) j' t' = Ok y →
  (j' = j ∧ t' = t ∧ y = x) ∨ ((j', t') ≠ (j, t) ∧ rd2 l j' t' = Ok y).
Proof.
  intros Hrow. rewrite !rd2_Ok. intros (row' & Hrow' & Hy).
  apply list_lookup_insert_Some in Hrow' as [(<- & <- & Hj)|[Hne Hrow']].
  - apply list_lookup_insert_Some in Hy as [(<- & <- & Ht)|[Hne Hy]]; [by left|].
    right. split; [congruence|]. eauto.
  - right. split; [congruence|]. eauto.
Qed.

Lemma create_dish_seating st hole k st' :
  seating hole st → create_dish st = Ok (k, st') → seating hole st'.
Proof.
  intros Hseat Hop. apply create_dish_frame in Hop as (_ & Hu & Hk & _ & _ & Ht & _).
  eapply (seating_frame st); [done|done| |done].
  intros j row' Hrow'. exists row'. by rewrite <-Hu.
Qed.

Lemma create_table_seating st hole j k t st' :
  well_formed st → seating hole st → 0 < k →
  create_table st j k = Ok (t, st') →
  seating hole st' ∧ bears_dish st' hole j t ∧
  ∃ row', using_t st' !! j = Some row' ∧ t ∈ row'.
Proof.
  intros Hwf [Ha Hw Hr] Hkpos Hop.
  destruct (create_table_effect _ _ _ _ _ Hwf Hkpos Hop)
    as (Hwf' & Htpos & Htj & row & krow & pad & Hrow & Hkrow & Hrange & Hnotin & Htlt & Hu & Hkj).
  assert (∀ j' t' k', rd2 (k_jt st') j' t' = Ok k' →
            (j' = j ∧ t' = t ∧ k' = k) ∨
            ((j', t') ≠ (j, t) ∧ rd2 (k_jt st) j' t' = Ok k') ∨
            (j' = j ∧ length krow ≤ t')) as Hread.
  { intros j' t' k'. rewrite Hkj.
    rewrite <-(list_insert_insert_eq (k_jt st) j (<[t := k]> (krow ++ pad)) (krow ++ pad)).
    intros Hk'. apply rd2_insert2 in Hk' as [?|[Hne Hk']]; [by left| |].
    2:{ apply list_lookup_insert_eq. by eapply lookup_lt_Some. }
    right. apply rd2_Ok in Hk' as (krow' & Hkrow' & Hk').
    apply list_lookup_insert_Some in Hkrow' as [(<- & <- & Hj)|[Hnej Hkrow']].
    - destruct (decide (t' < length krow)) as [Hlt|Hge]; [|right; split; [done|lia]].
      left. split; [done|]. apply rd2_Ok. exists krow. split; [done|].
      by rewrite lookup_app_l in Hk'.
    - left. split; [done|]. apply rd2_Ok. eauto. }
  assert (bears_dish st' hole j t) as Hbt.
  { intros _ _ k' Hk'. destruct (Hread _ _ _ Hk') as [(_ & _ & ->)|[[Hne _]|[_ Hge]]]; [done|done|].
    apply rd2_Ok in Hk' as (krow' & Hkrow' & Hk'). rewrite Hkj in Hkrow'.
    rewrite list_lookup_insert_eq in Hkrow' by by eapply lookup_lt_Some.
    injection Hkrow' as <-. rewrite list_lookup_insert_eq in Hk' by done. by injection Hk' as <-. }
  split; [|split; [done|]].
  - split.
    + intros j' row'' t' Hrow'' Hin Hpos Hhole k' Hk'.
      destruct (Hread _ _ _ Hk') as [(-> & -> & ->)|[[Hne Hold]|[-> Hge]]]; [done| |].
      * rewrite Hu in Hrow''. destruct (decide (j = j')) as [<-|Hnej].
        -- rewrite list_lookup_insert_eq in Hrow'' by by eapply lookup_lt_Some.
           injection Hrow'' as <-.
           assert (t' ∈ row) as Hin'.
           { apply elem_of_app in Hin as [Hin|Hin].
             - by eapply elem_of_sublist; [|apply sublist_take].
             - apply elem_of_cons in Hin as [->|Hin]; [congruence|].
               by eapply elem_of_sublist; [|apply sublist_drop]. }
           by eapply (Ha j row t').
        -- rewrite list_lookup_insert_ne in Hrow'' by done. by eapply (Ha j' row'' t').
      * rewrite Hu in Hrow''.
        rewrite list_lookup_insert_eq in Hrow'' by by eapply lookup_lt_Some.
        injection Hrow'' as <-.
        destruct (decide (t' = t)) as [->|Hnet]; [by eapply Hbt|].
        assert (t' ∈ row) as Hin'.
        { apply elem_of_app in Hin as [Hin|Hin].
          - by eapply elem_of_sublist; [|apply sublist_take].
          - apply elem_of_cons in Hin as [->|Hin]; [congruence|].
            by eapply elem_of_sublist; [|apply sublist_drop]. }
        rewrite Forall_forall in Hrange. specialize (Hrange _ Hin'). lia.
    + intros j' trow t' Htrow Hin Hpos Hhole k' Hk'. rewrite Htj in Htrow.
      destruct (Hread _ _ _ Hk') as [(-> & -> & ->)|[[Hne Hold]|[-> Hge]]]; [done| |].
      * by eapply (Hw j' trow t').
      * pose proof (Hr _ _ _ Htrow Hkrow) as Hlt. rewrite Forall_forall in Hlt.
        specialize (Hlt _ Hin). lia.
    + intros j' trow krow' Htrow Hkrow'. rewrite Htj in Htrow. rewrite Hkj in Hkrow'.
      apply list_lookup_insert_Some in Hkrow' as [(<- & <- & Hj)|[Hnej Hkrow']].
      * eapply Forall_impl; [by eapply Hr|]. simpl. intros t' Ht'.
        rewrite length_insert, length_app. lia.
      * by eapply Hr.
  - eexists. split; [rewrite Hu; apply list_lookup_insert_eq; by eapply lookup_lt_Some|].
    set_solver.
Qed.

Lemma leave_from_dish_tables st j t st' :
  leave_from_dish st j t = Ok st' →
  using_t st' = using_t st ∧ t_ji st' = t_ji st ∧
  (k_jt st' = k_jt st ∨
   ∃ krow, k_jt st !! j = Some krow ∧ k_jt st' = <[j := <[t := 0]> krow]> (k_jt st)).
Proof.
  unfold leave_from_dish. intros Hop.
  inv_bind Hop as k Hk. inv_bind Hop as ? Ha1. inv_bind Hop as mk Hmk.
  inv_bind Hop as ? Ha2. inv_bind Hop as m_k' Hw.
  case_decide; [|simplify_eq; repeat split; by left].
  inv_bind Hop as k_jt' Hw2. simpl in Hw2.
  apply wr2_Ok in Hw2 as (krow & Hkrow & Ht & ->). simplify_eq. repeat split. right. eauto.
Qed.

Lemma leave_from_dish_seating st j t st' :
  seating None st → leave_from_dish st j t = Ok st' → seating (Some (j, t)) st'.
Proof.
  intros Hseat Hop.
  destruct (leave_from_dish_tables _ _ _ _ Hop) as (Hu & Ht & [Hk|(krow & Hkrow & Hk)]).
  - apply seating_weaken. eapply (seating_frame st); [done|done| |done].
    intros j' row' Hrow'. exists row'. by rewrite <-Hu.
  - destruct Hseat as [Ha Hw Hr].
    assert (∀ j' t' k', Some (j, t) ≠ Some (j', t') → rd2 (k_jt st') j' t' = Ok k' →
              rd2 (k_jt st) j' t' = Ok k') as Hread.
    { intros j' t' k' Hhole Hk'. rewrite Hk in Hk'.
      apply rd2_insert2 in Hk' as [(-> & -> & _)|[_ Hk']]; done. }
    split.
    + intros j' row t' Hrow Hin Hpos Hhole k' Hk'. rewrite Hu in Hrow.
      by eapply (Ha j' row t'); [| | |done|eapply Hread].
    + intros j' trow t' Htrow Hin Hpos Hhole k' Hk'. rewrite Ht in Htrow.
      by eapply (Hw j' trow t'); [| | |done|eapply Hread].
    + intros j' trow krow' Htrow Hkrow'. rewrite Ht in Htrow. rewrite Hk in Hkrow'.
      apply list_lookup_insert_Some in Hkrow' as [(<- & <- & Hj)|[Hnej Hkrow']].
      * rewrite length_insert. by eapply Hr.
      * by eapply Hr.
Qed.

Lemma seat_at_dish_tables st j t k st' :
  seat_at_dish st j t k = Ok st' →
  using_t st' = using_t st ∧ t_ji st' = t_ji st ∧
  ((k_jt st' = k_jt st ∧ rd2 (k_jt st) j t = Ok k) ∨
   ∃ krow, k_jt st !! j = Some krow ∧ t < length krow ∧
           k_jt st' = <[j := <[t := k]> krow]> (k_jt st)).
Proof.
  unfold seat_at_dish. intros Hop.
  inv_bind Hop as mk Hmk. inv_bind Hop as m_k' Hw. inv_bind Hop as k_old Hk. simpl in Hk.
  case_decide as Hne.
  - inv_bind Hop as ? Ha. inv_bind Hop as k_jt' Hw2. inv_bind Hop as c Hc.
    inv_bind Hop as mp Hmp. inv_bind Hop as n_kv' Hf. simpl in Hw2.
    apply wr2_Ok in Hw2 as (krow & Hkrow & Ht & ->). simplify_eq. repeat split. right. eauto.
  - assert (k = k_old) as -> by (destruct (decide (k = k_old)); [done|by destruct Hne]).
    simplify_eq. repeat split. by left.
Qed.

Lemma seat_at_dish_seating st j t k st' :
  seating (Some (j, t)) st → 0 < k → seat_at_dish st j t k = Ok st' → seating None st'.
Proof.
  intros [Ha Hw Hr] Hkpos Hop.
  destruct (seat_at_dish_tables _ _ _ _ _ Hop)
    as (Hu & Ht & [[Hk Hkt]|(krow & Hkrow & Htlt & Hk)]).
  - assert (∀ j' t', bears_dish st (Some (j, t)) j' t' → bears_dish st' None j' t') as Hb.
    { intros j' t' Hb Hpos _ k' Hk'. rewrite Hk in Hk'.
      destruct (decide ((j, t) = (j', t'))) as [[= <- <-]|Hne]; [congruence|].
      apply Hb; [done|congruence|done]. }
    split.
    + intros j' row t' Hrow Hin. rewrite Hu in Hrow. by eapply Hb, Ha.
    + intros j' trow t' Htrow Hin. rewrite Ht in Htrow. by eapply Hb, Hw.
    + intros j' trow krow. rewrite Ht, Hk. apply Hr.
  - assert (∀ j' t', bears_dish st (Some (j, t)) j' t' → bears_dish st' None j' t') as Hb.
    { intros j' t' Hb Hpos _ k' Hk'. rewrite Hk in Hk'.
      apply rd2_insert2 in Hk' as [(-> & -> & ->)|[Hne Hk']]; [done| |done].
      apply Hb; [done|congruence|done]. }
    split.
    + intros j' row t' Hrow Hin. rewrite Hu in Hrow. by eapply Hb, Ha.
    + intros j' trow t' Htrow Hin. rewrite Ht in Htrow. by eapply Hb, Hw.
    + intros j' trow krow' Htrow Hkrow'. rewrite Ht in Htrow. rewrite Hk in Hkrow'.
      apply list_lookup_insert_Some in Hkrow' as [(<- & <- & Hj)|[Hnej Hkrow']].
      * rewrite length_insert. by eapply Hr.
      * by eapply Hr.
Qed.

Lemma drawn_dish st hole (k : nat) (ks : nat * state F R) :
  well_formed st → seating hole st →
  (if decide (k = 0) then create_dish st else Ok (k, st)) = Ok ks →
  well_formed ks.2 ∧ seating hole ks.2 ∧ 0 < ks.1.
Proof.
  intros Hwf Hseat Hks. destruct ks as [k' st']. case_decide as Hk.
  - destruct (create_dish_well_formed _ _ _ Hwf Hks) as (Hwf' & Hpos & _ & _).
    split; [done|]. split; [|done]. by eapply create_dish_seating.
  - simplify_eq. simpl. split; [done|]. split; [done|lia].
Qed.

Lemma new_table_invariant st j (f_k : list F) t st' :
  well_formed st → seating None st → new_table st j f_k = Ok (t, st') →
  well_formed st' ∧ seating None st' ∧ bears_dish st' None j t.
Proof.
  intros Hwf Hseat. unfold new_table. intros Hop.
  inv_bind Hop as p_k Hp. inv_bind Hop as ? Hval. inv_bind Hop as k_new Hk.
  inv_bind Hop as ks Hks.
  apply (drawn_dish _ None) in Hks as (Hwf2 & Hseat2 & Hpos);
    [|by apply set_rng_well_formed|by apply set_rng_seating].
  destruct (create_table_effect _ _ _ _ _ Hwf2 Hpos Hop) as (Hwf' & _).
  destruct (create_table_seating _ _ _ _ _ _ Hwf2 Hseat2 Hpos Hop) as (Hseat' & Hb & _).
  done.
Qed.

Lemma sampling_t_invariant st j i st' :
  well_formed st → seating None st → sampling_t st j i = Ok st' →
  well_formed st' ∧ seating None st'.
Proof.
  intros Hwf Hseat. unfold sampling_t. intros Hop.
  inv_bind Hop as st1 Hrem. inv_bind Hop as v Hv. inv_bind Hop as f_k Hfk.
  inv_bind Hop as f0 Hf0. inv_bind Hop as ? Hassert. inv_bind Hop as p_t Hp.
  inv_bind Hop as ? Hval. inv_bind Hop as t_new Ht. inv_bind Hop as [t st2] Hts.
  simpl in Hop.
  pose proof (remove_table_well_formed _ _ _ _ Hwf Hseat Hrem) as Hwf1.
  pose proof (remove_table_seating _ _ _ _ _ Hseat Hrem) as Hseat1.
  assert (well_formed st2 ∧ seating None st2 ∧ bears_dish st2 None j t)
    as (Hwf2 & Hseat2 & Hb).
  { case_decide as Hnew.
    - eapply new_table_invariant; [| |done];
        [by apply set_rng_well_formed|by apply set_rng_seating].
    - simplify_eq. split; [by apply set_rng_well_formed|].
      split; [by apply set_rng_seating|].
      simpl in Ht. apply rd2_Ok in Ht as (row & Hrow & Ht).
      apply (seat_active None (set_rng_ st1 (sample_discrete p_t (rng_ st1)).2)
               (set_rng_seating _ _ _ Hseat1) j row t Hrow).
      by eapply list_elem_of_lookup_2. }
  split; [by eapply add_table_well_formed|by eapply add_table_seating].
Qed.

Lemma sampling_k_invariant st j t (row : list nat) st' :
  well_formed st → seating None st →
  using_t st !! j = Some row → t ∈ row → t ≠ 0 →
  sampling_k st j t = Ok st' →
  well_formed st' ∧ seating None st'.
Proof.
  intros Hwf Hseat Hrow Hin Hne. unfold sampling_k. intros Hop.
  inv_bind Hop as st1 Hleave. inv_bind Hop as p_k Hp. inv_bind Hop as ? Hval.
  inv_bind Hop as ? Ha. inv_bind Hop as k_new Hk. inv_bind Hop as ks Hks.
  assert (well_formed st1) as Hwf1.
  { eapply leave_from_dish_well_formed; [done| |done].
    apply (seat_active None st Hseat j row t Hrow Hin); [lia|done]. }
  pose proof (leave_from_dish_seating _ _ _ _ Hseat Hleave) as Hseat1.
  apply (drawn_dish _ (Some (j, t))) in Hks as (Hwf2 & Hseat2 & Hpos);
    [|by apply set_rng_well_formed|by apply set_rng_seating].
  split.
  - eapply (seat_at_dish_well_formed ks.2 j t ks.1); [exact Hwf2|]. exact Hop.
  - eapply (seat_at_dish_seating ks.2 j t ks.1); [exact Hseat2|exact Hpos|exact Hop].
Qed.

Lemma reachable_invariant st : reachable st → well_formed st ∧ seating None st.
Proof.
  induction 1 as [| st j i st' _ [IHw IHs] Hstep
                  | st j t row st' _ [IHw IHs] Hrow Hin Hne Hstep].
  - split; [apply initialize_well_formed|apply initialize_seating].
  - by eapply sampling_t_invariant.
  - by eapply sampling_k_invariant.
Qed.

Lemma add_table_spec st j t i k t0 v (row : list nat) :
  well_formed st → using_t st !! j = Some row → t ∈ row →
  rd2 (k_jt st) j t = Ok k → k < length (n_kv_ st) →
  rd2 (t_ji st) j i = Ok t0 → rd2 (x_ji st) j i = Ok v →
  ∃ st', add_table st j t i = Ok st' ∧ dishes_ st' = dishes_ st ∧
         using_t st' = using_t st ∧ k_jt st' = k_jt st ∧ rd2 (t_ji st') j i = Ok t.
Proof.
  intros [Hds Hdr Hnkv Htabs Hnjt Hnjtv Htji] Hrow Ht Hk Hklt Ht0 Hv.
  destruct (Forall2_lookup_l _ _ _ _ _ Htabs Hrow) as (n & Hn & _ & Hrange).
  rewrite Forall_forall in Hrange. specialize (Hrange _ Ht).
  pose proof Hn as Hn1. rewrite <-Hnjt in Hn1. pose proof Hn as Hn2. rewrite <-Hnjtv in Hn2.
  apply shape_lookup in Hn1 as (nrow & Hnrow & Hnlen).
  apply shape_lookup in Hn2 as (vrow & Hvrow & Hvlen).
  destruct (lookup_lt_is_Some_2 nrow t ltac:(lia)) as [c Hc].
  destruct (lookup_lt_is_Some_2 vrow t ltac:(lia)) as [mp Hmp].
  destruct (rd_is_Ok (n_kv_ st) k Hklt) as [d Hd].
  destruct (wr2_rd2 _ _ _ _ t Ht0) as [t_ji' Hw].
  assert (rd2 (n_jt st) j t = Ok c) as Hc' by (apply rd2_Ok; eauto).
  assert (rd2 (n_jtv st) j t = Ok mp) as Hmp' by (apply rd2_Ok; eauto).
  destruct (wr2_rd2 _ _ _ _ (sz_inc c) Hc') as [n_jt' Hw2].
  destruct (wr2_rd2 _ _ _ _ (<[v := sz_inc (map_at mp v)]> mp) Hmp') as [n_jtv' Hw3].
  eexists. unfold add_table.
  rewrite Hw, bind_ret, Hc', bind_ret, Hw2, bind_ret, Hk, bind_ret, Hv, bind_ret.
  rewrite Hd, bind_ret, (wr_lt (n_kv_ st)), bind_ret by done.
  rewrite Hmp', bind_ret, Hw3, bind_ret.
  split; [reflexivity|]. simpl. repeat split; try done.
  by apply (rd2_wr2_eq (t_ji st)).
Qed.

Lemma calc_dish_posterior_w_rng st (r : R) (f_k : list F) :
  calc_dish_posterior_w (set_rng_ st r) f_k = calc_dish_posterior_w st f_k.
Proof. done. Qed.

(** ** Minting a table and a dish *)

(** C3. Take a reachable state and a word [i] of document [j] whose
    resampling, once the word is detached (state [st1]), draws the sentinel
    table and then the sentinel dish. Then [sampling_t] succeeds and
    allocates exactly one dish id [k] and exactly one table id [t]: [k] is
    the lowest positive integer not in the active dish sequence of [st1],
    [t] the lowest positive integer not in the active table sequence of
    document [j] in [st1], no other document's tables change, and the word
    ends at table [t], which bears dish [k]. *)
Theorem new_table_new_dish_lowest_ids st st1 j i v (f_k p_t p_k : list F) (f0 : F)
    (row : list nat) :
  reachable st →
  remove_table st j i = Ok st1 →
  rd2 (x_ji st1) j i = Ok v → calc_f_k st1 v = Ok f_k →
  rd f_k 0 = Ok f0 → f_eqb f0 f_zero = true →
  calc_table_posterior st1 j f_k = Ok p_t → valid_probability_vector p_t = true →
  using_t st1 !! j = Some row →
  row !! (sample_discrete p_t (rng_ st1)).1 = Some 0 →
  calc_dish_posterior_w st1 f_k = Ok p_k → valid_probability_vector p_k = true →
  dishes_ st1 !! (sample_discrete p_k (sample_discrete p_t (rng_ st1)).2).1 = Some 0 →
  ∃ k t st',
    sampling_t st j i = Ok st' ∧
    lowest_unused k (dishes_ st1) ∧ adds_one k (dishes_ st1) (dishes_ st') ∧
    lowest_unused t row ∧
    (∃ row', using_t st' = <[j := row']> (using_t st1) ∧ adds_one t row row') ∧
    rd2 (t_ji st') j i = Ok t ∧ rd2 (k_jt st') j t = Ok k.
Proof.
  intros Hreach Hrem Hv Hfk Hf0 Hzero Hp_t Hval_t Hrow Hdraw_t Hp_k Hval_k Hdraw_k.
  destruct (reachable_invariant _ Hreach) as [Hwf0 Hseat0].
  pose proof (remove_table_well_formed _ _ _ _ Hwf0 Hseat0 Hrem) as Hwf1.
  destruct (remove_table_t_ji _ _ _ _ Hrem) as [Htji (t0 & Ht0)]. rewrite <-Htji in Ht0.
  set (d1 := sample_discrete p_t (rng_ st1)) in *.
  set (d2 := sample_discrete p_k d1.2) in *.
  set (sta := set_rng_ (set_rng_ st1 d1.2) d2.2).
  assert (well_formed sta) as Hwfa by by do 2 apply set_rng_well_formed.
  destruct (create_dish_spec sta Hwfa) as (st2 & Hcd & Hwf2 & Hds2 & Hk2 & Hsame).
  destruct Hsame as (Hu2 & Hkj2 & Hnj2 & Hnv2 & Htj2 & Hx2).
  set (k := first_free (dishes_ sta)) in *.
  assert (0 < k) as Hkpos by apply (first_free_spec _ (wf_dishes _ Hwfa)).
  destruct (create_table_spec st2 j k row Hwf2) as
    (st3 & Hct & Hwf3 & Hu3 & Hds3 & Hkj3 & Htj3 & Hx3 & Hkv3 & _); [by rewrite Hu2|done|done|].
  set (t := first_free row) in *.
  pose proof (Forall2_lookup_l _ _ _ _ _ (wf_tables _ Hwf1) Hrow) as (n & _ & Hsorted & _).
  destruct (add_table_spec st3 j t i k t0 v (take t row ++ t :: drop t row) Hwf3)
    as (st4 & Hat & Hds4 & Hu4 & Hkj4 & Htj4).
  { rewrite Hu3, Hu2. apply list_lookup_insert_eq. by eapply lookup_lt_Some. }
  { set_solver. }
  { done. }
  { rewrite Hkv3, (wf_n_kv _ Hwf2). done. }
  { by rewrite Htj3, Htj2. }
  { by rewrite Hx3, Hx2. }
  exists k, t, st4. split; [|split; [|split; [|split; [|split; [|split]]]]].
  - unfold sampling_t. rewrite Hrem, bind_ret, Hv, bind_ret, Hfk, bind_ret, Hf0, bind_ret.
    rewrite assert_true, bind_ret, Hp_t, bind_ret by done.
    unfold validate_probability_vector at 1. rewrite Hval_t, bind_ret. fold d1.
    assert (rd2 (using_t (set_rng_ st1 d1.2)) j d1.1 = Ok 0) as -> by (apply rd2_Ok; eauto).
    rewrite bind_ret, decide_True by done.
    unfold new_table. rewrite calc_dish_posterior_w_rng, Hp_k, bind_ret.
    unfold validate_probability_vector. rewrite Hval_k, bind_ret.
    change (rng_ (set_rng_ st1 d1.2)) with d1.2. fold d2. fold sta.
    assert (rd (dishes_ sta) d2.1 = Ok 0) as -> by by apply rd_Ok.
    rewrite bind_ret, decide_True by done. rewrite Hcd, bind_ret. cbn [fst snd].
    rewrite Hct, bind_ret. cbn [fst snd]. done.
  - by apply first_free_lowest, (wf_dishes _ Hwfa).
  - rewrite Hds4, Hds3, Hds2. by apply first_free_insert_adds_one, (wf_dishes _ Hwfa).
  - by apply first_free_lowest.
  - eexists. split; [by rewrite Hu4, Hu3, Hu2|]. by apply first_free_insert_adds_one.
  - done.
  - by rewrite Hkj4.
Qed.

(** ** The validity test *)

Lemma valid_loop_Some (p : list F) (s s' : F) :
  valid_loop p s = Some s' ↔
  Forall (λ x, f_isfinite x = true) p ∧ Forall (λ x, f_ltb x f_zero = false) p ∧
  s' = fold_left f_add p s.
Proof.
  revert s. induction p as [|x p IH]; intros s; simpl.
  - split; [intros [= <-]; by repeat constructor | by intros (_ & _ & ->)].
  - destruct (f_isfinite x) eqn:Hfin; simpl.
    + destruct (f_ltb x f_zero) eqn:Hneg.
      * split; [done|]. intros (_ & Hnn & _). apply Forall_cons in Hnn as [? _]. congruence.
      * rewrite IH, !Forall_cons. split.
        -- by intros (? & ? & ->).
        -- by intros ((_ & ?) & (_ & ?) & ->).
    + split; [done|]. intros (Hf & _). apply Forall_cons in Hf as [? _]. congruence.
Qed.

Lemma valid_probability_vector_iff (p : list F) :
  valid_probability_vector p = true ↔
  Forall (λ x, f_isfinite x = true) p ∧ Forall (λ x, f_ltb x f_zero = false) p ∧
  f_lt_tolerance (f_abs (f_sub f_one (running_sum p))) = true.
Proof.
  unfold valid_probability_vector, running_sum.
  destruct (valid_loop p f_zero) as [s|] eqn:Hloop.
  - apply valid_loop_Some in Hloop as (Hf & Hn & ->). split; [done|]. by intros (_ & _ & ?).
  - split; [done|]. intros (Hf & Hn & _).
    assert (valid_loop p f_zero = Some (fold_left f_add p f_zero)) as Hs
      by by apply valid_loop_Some.
    congruence.
Qed.

Lemma validate_Ok (p : list F) (u : unit) :
  validate_probability_vector p = Ok u ↔ valid_probability_vector p = true.
Proof.
  unfold validate_probability_vector. by destruct (valid_probability_vector p), u.
Qed.

End Proofs.

(** ** Samplers that answer alike on valid vectors *)

Section TwoSamplers.
Context {F R : Type} `{Build} `{FloatOps F} `{SpecialFns F}.
Context (S1 S2 : Sampler F R).
Context (Hagree : ∀ (p : list F) (r : R),
            valid_probability_vector p = true →
            @sample_discrete F R S1 p r = @sample_discrete F R S2 p r).
Implicit Types (st : state F R) (j i t k : nat).

Lemma new_table_agree st j (f_k : list F) :
  @new_table F R _ _ S1 st j f_k = @new_table F R _ _ S2 st j f_k.
Proof.
  unfold new_table. destruct (calc_dish_posterior_w st f_k) as [p_k|]; [|done].
  rewrite !bind_ret. unfold validate_probability_vector.
  destruct (valid_probability_vector p_k) eqn:Hv; [|done].
  rewrite !bind_ret. by rewrite Hagree.
Qed.

Lemma sampling_t_agree st j i :
  @sampling_t F R _ _ S1 st j i = @sampling_t F R _ _ S2 st j i.
Proof.
  unfold sampling_t. destruct (remove_table st j i) as [st1|]; [|done].
  rewrite !bind_ret.
  destruct (rd2 (x_ji st1) j i) as [v|]; [|done]. rewrite !bind_ret.
  destruct (calc_f_k st1 v) as [f_k|]; [|done]. rewrite !bind_ret.
  destruct (rd f_k 0) as [f0|]; [|done]. rewrite !bind_ret.
  destruct (assert (f_eqb f0 f_zero)); [|done]. rewrite !bind_ret.
  destruct (calc_table_posterior st1 j f_k) as [p_t|]; [|done]. rewrite !bind_ret.
  unfold validate_probability_vector.
  destruct (valid_probability_vector p_t) eqn:Hv; [|done]. rewrite !bind_ret.
  rewrite Hagree by done.
  destruct (rd2 _ j _) as [t_new|]; [|done]. rewrite !bind_ret.
  case_decide; [|done]. by rewrite new_table_agree.
Qed.

Lemma sampling_k_agree st j t :
  @sampling_k F R _ _ _ S1 st j t = @sampling_k F R _ _ _ S2 st j t.
Proof.
  unfold sampling_k. destruct (leave_from_dish st j t) as [st1|]; [|done].
  rewrite !bind_ret.
  destruct (calc_dish_posterior_t st1 j t) as [p_k|]; [|done]. rewrite !bind_ret.
  unfold validate_probability_vector.
  destruct (valid_probability_vector p_k) eqn:Hv; [|done]. rewrite !bind_ret.
  by rewrite Hagree.
Qed.

Lemma word_phase_agree st : @word_phase F R _ _ S1 st = @word_phase F R _ _ S2 st.
Proof.
  apply foldR_ext. intros s j. destruct (rd (x_ji s) j); [|done]. rewrite !bind_ret.
  apply foldR_ext. intros. apply sampling_t_agree.
Qed.

Lemma table_phase_agree st : @table_phase F R _ _ _ S1 st = @table_phase F R _ _ _ S2 st.
Proof.
  apply foldR_ext. intros s j. destruct (rd (using_t s) j); [|done]. rewrite !bind_ret.
  apply foldR_ext. intros s' t. case_decide; [|done]. apply sampling_k_agree.
Qed.

Lemma inference_agree st : @_inference F R _ _ _ S1 st = @_inference F R _ _ _ S2 st.
Proof.
  unfold _inference. rewrite word_phase_agree.
  destruct (word_phase st) as [st1|]; [|done]. rewrite !bind_ret.
  apply table_phase_agree.
Qed.
End TwoSamplers.

(** ** The sweep *)

Section Sweep.
Context {F R : Type} `{Build} `{FloatOps F} `{SpecialFns F}.
Implicit Types (st : state F R) (j i t k : nat).

(** C2. [valid_probability_vector] accepts a vector exactly when every
    entry is finite, no entry is below 0, and the running sum of the entries
    is within 0.01 of 1. A vector that fails the test makes
    [validate_probability_vector] fail. Each of [calc_table_posterior],
    [calc_dish_posterior_w] and [calc_dish_posterior_t] is followed by that
    validation: when the vector it returned fails the test, the resampling
    step fails with [InvalidProbability]. And a whole sweep never hands the
    sampler a vector that fails the test: its outcome is the same whatever
    the sampler would answer on such vectors. *)
Theorem posterior_vectors_validated (S : Sampler F R) :
  (∀ p : list F,
     valid_probability_vector p = true ↔
     Forall (λ x, f_isfinite x = true) p ∧ Forall (λ x, f_ltb x f_zero = false) p ∧
     f_lt_tolerance (f_abs (f_sub f_one (running_sum p))) = true) ∧
  (∀ p : list F,
     valid_probability_vector p = false →
     validate_probability_vector p = Err InvalidProbability) ∧
  (∀ st j i st1 v (f_k : list F) f0 p_t,
     remove_table st j i = Ok st1 → rd2 (x_ji st1) j i = Ok v →
     calc_f_k st1 v = Ok f_k → rd f_k 0 = Ok f0 → f_eqb f0 f_zero = true →
     calc_table_posterior st1 j f_k = Ok p_t →
     valid_probability_vector p_t = false →
     sampling_t st j i = Err InvalidProbability) ∧
  (∀ st j (f_k p_k : list F),
     calc_dish_posterior_w st f_k = Ok p_k →
     valid_probability_vector p_k = false →
     new_table st j f_k = Err InvalidProbability) ∧
  (∀ st j t st1 (p_k : list F),
     leave_from_dish st j t = Ok st1 →
     calc_dish_posterior_t st1 j t = Ok p_k →
     valid_probability_vector p_k = false →
     sampling_k st j t = Err InvalidProbability) ∧
  (∀ (other : list F → R → nat * R) st,
     @_inference F R _ _ _ (sampler_off_valid S other) st = @_inference F R _ _ _ S st).
Proof.
  split; [apply valid_probability_vector_iff|].
  split; [intros p Hp; unfold validate_probability_vector; by rewrite Hp|].
  split; [|split; [|split]].
  - intros st j i st1 v f_k f0 p_t Hrem Hv Hfk Hf0 Hzero Hp Hbad.
    unfold sampling_t. rewrite Hrem, bind_ret, Hv, bind_ret, Hfk, bind_ret, Hf0, bind_ret.
    rewrite assert_true, bind_ret, Hp, bind_ret by done.
    unfold validate_probability_vector. by rewrite Hbad.
  - intros st j f_k p_k Hp Hbad. unfold new_table. rewrite Hp, bind_ret.
    unfold validate_probability_vector. by rewrite Hbad.
  - intros st j t st1 p_k Hleave Hp Hbad. unfold sampling_k.
    rewrite Hleave, bind_ret, Hp, bind_ret.
    unfold validate_probability_vector. by rewrite Hbad.
  - intros other st. apply inference_agree. intros p r Hv. simpl. by rewrite Hv.
Qed.

End Sweep.

(** ** The generator and the rest of the state *)

(** Splits a goal on the outcome of its first step, until both sides are
    the same. *)
Ltac crunch_step :=
  match goal with
  | |- _ = _ => reflexivity
  | |- context [decide ?P] => destruct (decide P); simpl
  | |- context [mbind _ ?x] =>
      lazymatch x with
      | Ok _ => fail
      | Err _ => fail
      | mbind _ _ => fail
      | _ => destruct x eqn:?; simpl
      end
  end.

Lemma same_outcome_bind {A B A' B'} (rel : A → B → Prop) (rel' : A' → B' → Prop)
    (r1 : result A) (r2 : result B) (f1 : A → result A') (f2 : B → result B') :
  same_outcome rel r1 r2 →
  (∀ a b, rel a b → same_outcome rel' (f1 a) (f2 b)) →
  same_outcome rel' (r1 ≫= f1) (r2 ≫= f2).
Proof. destruct r1, r2; simpl; try done. intros Hr Hf. by apply Hf. Qed.

Lemma foldR_same_outcome {A S1 S2} (rel : S1 → S2 → Prop)
    (f1 : S1 → A → result S1) (f2 : S2 → A → result S2) (s1 : S1) (s2 : S2) (l : list A) :
  (∀ s1 s2 a, rel s1 s2 → same_outcome rel (f1 s1 a) (f2 s2 a)) →
  rel s1 s2 → same_outcome rel (foldR f1 s1 l) (foldR f2 s2 l).
Proof.
  intros Hstep. revert s1 s2. induction l as [|a l IH]; intros s1 s2 Hrel; simpl; [done|].
  eapply same_outcome_bind; [by apply Hstep|]. intros s1' s2' Hrel'. by apply IH.
Qed.

Section Generators.
Context {F : Type} `{Build} `{FloatOps F} `{SpecialFns F}.

Lemma with_rng_id {R} (st : state F R) : with_rng st (rng_ st) = st.
Proof. by destruct st. Qed.

Lemma with_rng_with_rng {R R' R''} (st : state F R) (r : R') (r' : R'') :
  with_rng (with_rng st r) r' = with_rng st r'.
Proof. done. Qed.

Lemma same_but_rng_with_rng {R1 R2} (st1 : state F R1) (st2 : state F R2) :
  same_but_rng st1 st2 ↔ st2 = with_rng st1 (rng_ st2).
Proof.
  unfold same_but_rng. split.
  - intros Heq. rewrite <-(with_rng_id st2) at 1.
    rewrite <-(with_rng_with_rng st2 tt (rng_ st2)), <-Heq. done.
  - intros ->. done.
Qed.

Lemma remove_table_with_rng {R R'} (st : state F R) (r : R') j i :
  remove_table (with_rng st r) j i = remove_table st j i ≫= λ st', Ok (with_rng st' r).
Proof.
  destruct st. unfold remove_table, delete_table, delete_dish, with_rng. simpl.
  repeat crunch_step.
Qed.

Lemma add_table_with_rng {R R'} (st : state F R) (r : R') j t i :
  add_table (with_rng st r) j t i = add_table st j t i ≫= λ st', Ok (with_rng st' r).
Proof. destruct st. unfold add_table, with_rng. simpl. repeat crunch_step. Qed.

Lemma create_dish_with_rng {R R'} (st : state F R) (r : R') :
  create_dish (with_rng st r) = create_dish st ≫= λ ks, Ok (ks.1, with_rng ks.2 r).
Proof. destruct st. unfold create_dish, with_rng. simpl. repeat crunch_step. Qed.

Lemma create_table_with_rng {R R'} (st : state F R) (r : R') j k :
  create_table (with_rng st r) j k =
    create_table st j k ≫= λ ts, Ok (ts.1, with_rng ts.2 r).
Proof. destruct st. unfold create_table, with_rng. simpl. repeat crunch_step. Qed.

Lemma leave_from_dish_with_rng {R R'} (st : state F R) (r : R') j t :
  leave_from_dish (with_rng st r) j t =
    leave_from_dish st j t ≫= λ st', Ok (with_rng st' r).
Proof.
  destruct st. unfold leave_from_dish, delete_dish, with_rng. simpl. repeat crunch_step.
Qed.

Lemma seat_at_dish_with_rng {R R'} (st : state F R) (r : R') j t k :
  seat_at_dish (with_rng st r) j t k =
    seat_at_dish st j t k ≫= λ st', Ok (with_rng st' r).
Proof. destruct st. unfold seat_at_dish, with_rng. simpl. repeat crunch_step. Qed.

Lemma calc_f_k_with_rng {R R'} (st : state F R) (r : R') v :
  calc_f_k (with_rng st r) v = calc_f_k st v.
Proof. done. Qed.

Lemma calc_table_posterior_with_rng {R R'} (st : state F R) (r : R') j (f_k : list F) :
  calc_table_posterior (with_rng st r) j f_k = calc_table_posterior st j f_k.
Proof. done. Qed.

Lemma calc_dish_posterior_w_with_rng {R R'} (st : state F R) (r : R') (f_k : list F) :
  calc_dish_posterior_w (with_rng st r) f_k = calc_dish_posterior_w st f_k.
Proof. done. Qed.

Lemma calc_dish_posterior_t_with_rng {R R'} (st : state F R) (r : R') j t :
  calc_dish_posterior_t (with_rng st r) j t = calc_dish_posterior_t st j t.
Proof. done. Qed.

Lemma remove_table_rng {R} (st st' : state F R) j i :
  remove_table st j i = Ok st' → rng_ st' = rng_ st.
Proof.
  intros Hop. pose proof (remove_table_with_rng st (rng_ st) j i) as Hc.
  rewrite with_rng_id, Hop in Hc. injection Hc as Hc. exact (f_equal rng_ Hc).
Qed.

Lemma add_table_rng {R} (st st' : state F R) j t i :
  add_table st j t i = Ok st' → rng_ st' = rng_ st.
Proof.
  intros Hop. pose proof (add_table_with_rng st (rng_ st) j t i) as Hc.
  rewrite with_rng_id, Hop in Hc. injection Hc as Hc. exact (f_equal rng_ Hc).
Qed.

Lemma create_dish_rng {R} (st : state F R) (ks : nat * state F R) :
  create_dish st = Ok ks → rng_ ks.2 = rng_ st.
Proof.
  intros Hop. pose proof (create_dish_with_rng st (rng_ st)) as Hc.
  rewrite with_rng_id, Hop in Hc. injection Hc as Hc.
  rewrite Hc. done.
Qed.

Lemma create_table_rng {R} (st : state F R) j k (ts : nat * state F R) :
  create_table st j k = Ok ts → rng_ ts.2 = rng_ st.
Proof.
  intros Hop. pose proof (create_table_with_rng st (rng_ st) j k) as Hc.
  rewrite with_rng_id, Hop in Hc. injection Hc as Hc.
  rewrite Hc. done.
Qed.

Lemma leave_from_dish_rng {R} (st st' : state F R) j t :
  leave_from_dish st j t = Ok st' → rng_ st' = rng_ st.
Proof.
  intros Hop. pose proof (leave_from_dish_with_rng st (rng_ st) j t) as Hc.
  rewrite with_rng_id, Hop in Hc. injection Hc as Hc. exact (f_equal rng_ Hc).
Qed.

Lemma seat_at_dish_rng {R} (st st' : state F R) j t k :
  seat_at_dish st j t k = Ok st' → rng_ st' = rng_ st.
Proof.
  intros Hop. pose proof (seat_at_dish_with_rng st (rng_ st) j t k) as Hc.
  rewrite with_rng_id, Hop in Hc. injection Hc as Hc. exact (f_equal rng_ Hc).
Qed.

End Generators.

(** ** Two runs whose generators are in step *)

Section InStep.
Context {F R1 R2 : Type} `{Build} `{FloatOps F} `{SpecialFns F}.
Context (S1 : Sampler F R1) (S2 : Sampler F R2) (ρ : R1 → R2 → Prop).
Context (Hstep : in_step S1 S2 ρ).

Lemma alike_with_rng (st1 : state F R1) (st2 : state F R2) :
  alike ρ st1 st2 ↔ ∃ r2, st2 = with_rng st1 r2 ∧ ρ (rng_ st1) r2.
Proof.
  unfold alike. rewrite same_but_rng_with_rng. split.
  - intros [Heq Hρ]. by exists (rng_ st2).
  - intros (r2 & -> & Hρ). done.
Qed.

Lemma drawn_dish_in_step (st1 : state F R1) (st2 : state F R2) (k : nat) :
  alike ρ st1 st2 →
  same_outcome (λ a b, a.1 = b.1 ∧ alike ρ a.2 b.2)
    (if decide (k = 0) then create_dish st1 else Ok (k, st1))
    (if decide (k = 0) then create_dish st2 else Ok (k, st2)).
Proof.
  intros Hrel. case_decide; [|done].
  apply alike_with_rng in Hrel as (r2 & -> & Hρ). rewrite create_dish_with_rng.
  destruct (create_dish st1) as [ks|e] eqn:Hcd; simpl; [|done]. split; [done|].
  apply alike_with_rng. exists r2. split; [done|].
  by rewrite (create_dish_rng _ _ Hcd).
Qed.

Lemma new_table_in_step (st1 : state F R1) (st2 : state F R2) j (f_k : list F) :
  alike ρ st1 st2 →
  same_outcome (λ a b, a.1 = b.1 ∧ alike ρ a.2 b.2)
    (@new_table F R1 _ _ S1 st1 j f_k) (@new_table F R2 _ _ S2 st2 j f_k).
Proof.
  intros Hrel. apply alike_with_rng in Hrel as (r2 & -> & Hρ). unfold new_table.
  rewrite calc_dish_posterior_w_with_rng.
  destruct (calc_dish_posterior_w st1 f_k) as [p_k|e]; simpl; [|done].
  destruct (validate_probability_vector p_k) as [[]|e]; simpl; [|done].
  destruct (Hstep p_k (rng_ st1) r2 Hρ) as [Hd Hr]. rewrite <-Hd.
  destruct (rd (dishes_ st1) _) as [k_new|e]; simpl; [|done].
  eapply same_outcome_bind.
  { apply (drawn_dish_in_step (set_rng_ st1 (sample_discrete p_k (rng_ st1)).2)
             (with_rng st1 (sample_discrete p_k r2).2)).
    apply alike_with_rng. by eexists. }
  intros [k1 s1] [k2 s2] [Hk Hs]. simpl in *. subst k2.
  apply alike_with_rng in Hs as (r2' & -> & Hρ'). rewrite create_table_with_rng.
  destruct (create_table s1 j k1) as [ts|e] eqn:Hct; simpl; [|done]. split; [done|].
  apply alike_with_rng. exists r2'. split; [done|].
  by rewrite (create_table_rng _ _ _ _ Hct).
Qed.

Lemma sampling_t_in_step (st1 : state F R1) (st2 : state F R2) j i :
  alike ρ st1 st2 →
  same_outcome (alike ρ) (@sampling_t F R1 _ _ S1 st1 j i) (@sampling_t F R2 _ _ S2 st2 j i).
Proof.
  intros Hrel. apply alike_with_rng in Hrel as (r2 & -> & Hρ). unfold sampling_t.
  rewrite remove_table_with_rng.
  destruct (remove_table st1 j i) as [st|e] eqn:Hrem; simpl; [|done].
  rewrite <-(remove_table_rng _ _ _ _ Hrem) in Hρ.
  destruct (rd2 (x_ji st) j i) as [v|e]; simpl; [|done].
  rewrite calc_f_k_with_rng.
  destruct (calc_f_k st v) as [f_k|e]; simpl; [|done].
  destruct (rd f_k 0) as [f0|e]; simpl; [|done].
  destruct (assert (f_eqb f0 f_zero)) as [[]|e]; simpl; [|done].
  rewrite calc_table_posterior_with_rng.
  destruct (calc_table_posterior st j f_k) as [p_t|e]; simpl; [|done].
  destruct (validate_probability_vector p_t) as [[]|e]; simpl; [|done].
  destruct (Hstep p_t (rng_ st) r2 Hρ) as [Hd Hr]. rewrite <-Hd.
  destruct (rd2 (using_t st) j _) as [t_new|e]; simpl; [|done].
  eapply (same_outcome_bind (λ a b, a.1 = b.1 ∧ alike ρ a.2 b.2)).
  { case_decide.
    - apply new_table_in_step. apply alike_with_rng. by eexists.
    - split; [done|]. apply alike_with_rng. by eexists. }
  intros [t1 s1] [t2 s2] [Ht Hs]. simpl in *. subst t2.
  apply alike_with_rng in Hs as (r2' & -> & Hρ'). rewrite add_table_with_rng.
  destruct (add_table s1 j t1 i) as [st'|e] eqn:Hat; simpl; [|done].
  apply alike_with_rng. exists r2'. split; [done|].
  by rewrite (add_table_rng _ _ _ _ _ Hat).
Qed.

Lemma sampling_k_in_step (st1 : state F R1) (st2 : state F R2) j t :
  alike ρ st1 st2 →
  same_outcome (alike ρ) (@sampling_k F R1 _ _ _ S1 st1 j t)
                         (@sampling_k F R2 _ _ _ S2 st2 j t).
Proof.
  intros Hrel. apply alike_with_rng in Hrel as (r2 & -> & Hρ). unfold sampling_k.
  rewrite leave_from_dish_with_rng.
  destruct (leave_from_dish st1 j t) as [st|e] eqn:Hleave; simpl; [|done].
  rewrite <-(leave_from_dish_rng _ _ _ _ Hleave) in Hρ.
  rewrite calc_dish_posterior_t_with_rng.
  destruct (calc_dish_posterior_t st j t) as [p_k|e]; simpl; [|done].
  destruct (validate_probability_vector p_k) as [[]|e]; simpl; [|done].
  destruct (assert _) as [[]|e]; simpl; [|done].
  destruct (Hstep p_k (rng_ st) r2 Hρ) as [Hd Hr]. rewrite <-Hd.
  destruct (rd (dishes_ st) _) as [k_new|e]; simpl; [|done].
  eapply same_outcome_bind.
  { apply (drawn_dish_in_step (set_rng_ st (sample_discrete p_k (rng_ st)).2)
             (with_rng st (sample_discrete p_k r2).2)).
    apply alike_with_rng. by eexists. }
  intros [k1 s1] [k2 s2] [Hk Hs]. simpl in *. subst k2.
  apply alike_with_rng in Hs as (r2' & -> & Hρ'). rewrite seat_at_dish_with_rng.
  destruct (seat_at_dish s1 j t k1) as [st'|e] eqn:Hseat; simpl; [|done].
  apply alike_with_rng. exists r2'. split; [done|].
  by rewrite (seat_at_dish_rng _ _ _ _ _ Hseat).
Qed.

Lemma alike_fields (st1 : state F R1) (st2 : state F R2) :
  alike ρ st1 st2 → x_ji st2 = x_ji st1 ∧ using_t st2 = using_t st1.
Proof. intros Hrel. by apply alike_with_rng in Hrel as (r2 & -> & _). Qed.

Lemma word_phase_in_step (st1 : state F R1) (st2 : state F R2) :
  alike ρ st1 st2 →
  same_outcome (alike ρ) (@word_phase F R1 _ _ S1 st1) (@word_phase F R2 _ _ S2 st2).
Proof.
  intros Hrel. unfold word_phase. destruct (alike_fields _ _ Hrel) as [-> _].
  apply foldR_same_outcome; [|done]. intros s1 s2 j Hs.
  destruct (alike_fields _ _ Hs) as [-> _].
  destruct (rd (x_ji s1) j) as [row|e]; simpl; [|done].
  apply foldR_same_outcome; [|done]. intros s1' s2' i Hs'. by apply sampling_t_in_step.
Qed.

Lemma table_phase_in_step (st1 : state F R1) (st2 : state F R2) :
  alike ρ st1 st2 →
  same_outcome (alike ρ) (@table_phase F R1 _ _ _ S1 st1) (@table_phase F R2 _ _ _ S2 st2).
Proof.
  intros Hrel. unfold table_phase. destruct (alike_fields _ _ Hrel) as [-> _].
  apply foldR_same_outcome; [|done]. intros s1 s2 j Hs.
  destruct (alike_fields _ _ Hs) as [_ ->].
  destruct (rd (using_t s1) j) as [row|e]; simpl; [|done].
  apply foldR_same_outcome; [|done]. intros s1' s2' t Hs'.
  case_decide; [|done]. by apply sampling_k_in_step.
Qed.

Lemma inference_in_step (st1 : state F R1) (st2 : state F R2) :
  alike ρ st1 st2 →
  same_outcome (alike ρ) (@_inference F R1 _ _ _ S1 st1) (@_inference F R2 _ _ _ S2 st2).
Proof.
  intros Hrel. unfold _inference.
  eapply same_outcome_bind; [by apply word_phase_in_step|].
  intros s1 s2 Hs. by apply table_phase_in_step.
Qed.

End InStep.

(** ** A run and the draws it consumed *)

Section Replay.
Context {F R : Type} `{Build} `{FloatOps F} `{SpecialFns F}.
Context (S : Sampler F R).
Implicit Types (st : state F R) (ds rest : list nat).

Lemma foldR_replay {A} (f1 : state F R → A → result (state F R))
    (f2 : state F (list nat) → A → result (state F (list nat))) st st' (l : list A) :
  (∀ s a s', f1 s a = Ok s' →
             ∃ ds, ∀ rest, f2 (with_rng s (ds ++ rest)) a = Ok (with_rng s' rest)) →
  foldR f1 st l = Ok st' →
  ∃ ds, ∀ rest, foldR f2 (with_rng st (ds ++ rest)) l = Ok (with_rng st' rest).
Proof.
  intros Hstep. revert st. induction l as [|a l IH]; intros st; simpl.
  - intros [= <-]. by exists [].
  - intros Hop. inv_bind Hop as s1 Ha.
    destruct (Hstep _ _ _ Ha) as [ds1 Hds1]. destruct (IH _ Hop) as [ds2 Hds2].
    exists (ds1 ++ ds2). intros rest. by rewrite <-app_assoc, Hds1, bind_ret.
Qed.

Lemma drawn_dish_replay st (k : nat) (ks : nat * state F R) rest :
  (if decide (k = 0) then create_dish st else Ok (k, st)) = Ok ks →
  (if decide (k = 0) then create_dish (with_rng st rest) else Ok (k, with_rng st rest))
    = Ok (ks.1, with_rng ks.2 rest).
Proof.
  case_decide.
  - intros Hcd. by rewrite create_dish_with_rng, Hcd.
  - by intros [= <-].
Qed.

Lemma new_table_replay st j (f_k : list F) (ts : nat * state F R) :
  @new_table F R _ _ S st j f_k = Ok ts →
  ∃ ds, ∀ rest,
    @new_table F (list nat) _ _ replay_sampler (with_rng st (ds ++ rest)) j f_k =
      Ok (ts.1, with_rng ts.2 rest).
Proof.
  unfold new_table. intros Hop.
  inv_bind Hop as p_k Hp. inv_bind Hop as ? Hval. inv_bind Hop as k_new Hk.
  inv_bind Hop as ks Hks.
  exists [(sample_discrete p_k (rng_ st)).1]. intros rest.
  rewrite calc_dish_posterior_w_with_rng, Hp, bind_ret, Hval, bind_ret.
  cbn [app sample_discrete replay_sampler rng_ with_rng fst snd].
  change (dishes_ (set_rng_ (with_rng st ((sample_discrete p_k (rng_ st)).1 :: rest)) rest))
    with (dishes_ (set_rng_ st (sample_discrete p_k (rng_ st)).2)).
  rewrite Hk, bind_ret.
  change (set_rng_ (with_rng st ((sample_discrete p_k (rng_ st)).1 :: rest)) rest)
    with (with_rng (set_rng_ st (sample_discrete p_k (rng_ st)).2) rest).
  rewrite (drawn_dish_replay _ _ _ _ Hks), bind_ret. cbn [fst snd].
  by rewrite create_table_with_rng, Hop.
Qed.

Lemma sampling_t_replay st j i st' :
  @sampling_t F R _ _ S st j i = Ok st' →
  ∃ ds, ∀ rest,
    @sampling_t F (list nat) _ _ replay_sampler (with_rng st (ds ++ rest)) j i =
      Ok (with_rng st' rest).
Proof.
  unfold sampling_t. intros Hop.
  inv_bind Hop as st1 Hrem. inv_bind Hop as v Hv. inv_bind Hop as f_k Hfk.
  inv_bind Hop as f0 Hf0. inv_bind Hop as ? Hassert. inv_bind Hop as p_t Hp.
  inv_bind Hop as ? Hval. inv_bind Hop as t_new Ht. inv_bind Hop as ts Hts.
  set (d := sample_discrete p_t (rng_ st1)) in *.
  assert (∃ ds2, ∀ rest,
            (if decide (t_new = 0)
             then @new_table F (list nat) _ _ replay_sampler
                    (with_rng (set_rng_ st1 d.2) (ds2 ++ rest)) j f_k
             else Ok (t_new, with_rng (set_rng_ st1 d.2) (ds2 ++ rest))) =
            Ok (ts.1, with_rng ts.2 rest)) as [ds2 Hds2].
  { case_decide.
    - by apply new_table_replay.
    - exists []. intros rest. by simplify_eq. }
  exists (d.1 :: ds2). intros rest.
  rewrite remove_table_with_rng, Hrem, !bind_ret.
  change (x_ji (with_rng st1 ((d.1 :: ds2) ++ rest))) with (x_ji st1).
  rewrite Hv, bind_ret, calc_f_k_with_rng, Hfk, bind_ret, Hf0, bind_ret, Hassert, bind_ret.
  rewrite calc_table_posterior_with_rng, Hp, bind_ret, Hval, bind_ret.
  cbn [app sample_discrete replay_sampler rng_ with_rng fst snd].
  change (using_t (set_rng_ (with_rng st1 (d.1 :: ds2 ++ rest)) (ds2 ++ rest)))
    with (using_t (set_rng_ st1 d.2)).
  rewrite Ht, bind_ret.
  change (set_rng_ (with_rng st1 (d.1 :: ds2 ++ rest)) (ds2 ++ rest))
    with (with_rng (set_rng_ st1 d.2) (ds2 ++ rest)).
  rewrite Hds2, bind_ret. cbn [fst snd]. by rewrite add_table_with_rng, Hop.
Qed.

Lemma sampling_k_replay st j t st' :
  @sampling_k F R _ _ _ S st j t = Ok st' →
  ∃ ds, ∀ rest,
    @sampling_k F (list nat) _ _ _ replay_sampler (with_rng st (ds ++ rest)) j t =
      Ok (with_rng st' rest).
Proof.
  unfold sampling_k. intros Hop.
  inv_bind Hop as st1 Hleave. inv_bind Hop as p_k Hp. inv_bind Hop as ? Hval.
  inv_bind Hop as ? Ha. inv_bind Hop as k_new Hk. inv_bind Hop as ks Hks.
  exists [(sample_discrete p_k (rng_ st1)).1]. intros rest.
  rewrite leave_from_dish_with_rng, Hleave, !bind_ret.
  rewrite calc_dish_posterior_t_with_rng, Hp, bind_ret, Hval, bind_ret.
  change (dishes_ (with_rng st1 ([(sample_discrete p_k (rng_ st1)).1] ++ rest)))
    with (dishes_ st1).
  rewrite Ha, bind_ret.
  cbn [app sample_discrete replay_sampler rng_ with_rng fst snd].
  change (dishes_ (set_rng_ (with_rng st1 ((sample_discrete p_k (rng_ st1)).1 :: rest)) rest))
    with (dishes_ (set_rng_ st1 (sample_discrete p_k (rng_ st1)).2)).
  rewrite Hk, bind_ret.
  change (set_rng_ (with_rng st1 ((sample_discrete p_k (rng_ st1)).1 :: rest)) rest)
    with (with_rng (set_rng_ st1 (sample_discrete p_k (rng_ st1)).2) rest).
  rewrite (drawn_dish_replay _ _ _ _ Hks), bind_ret. cbn [fst snd].
  by rewrite seat_at_dish_with_rng, Hop.
Qed.

Lemma word_phase_replay st st' :
  @word_phase F R _ _ S st = Ok st' →
  ∃ ds, ∀ rest,
    @word_phase F (list nat) _ _ replay_sampler (with_rng st (ds ++ rest)) =
      Ok (with_rng st' rest).
Proof.
  unfold word_phase. intros Hop.
  eapply foldR_replay in Hop as [ds Hds]; [by exists ds|].
  intros s j s' Hj. inv_bind Hj as row Hrow.
  eapply foldR_replay in Hj as [ds Hds].
  - exists ds. intros rest.
    change (x_ji (with_rng s (ds ++ rest))) with (x_ji s). by rewrite Hrow, bind_ret.
  - intros s1 i s1' Hi. by apply sampling_t_replay.
Qed.

Lemma table_phase_replay st st' :
  @table_phase F R _ _ _ S st = Ok st' →
  ∃ ds, ∀ rest,
    @table_phase F (list nat) _ _ _ replay_sampler (with_rng st (ds ++ rest)) =
      Ok (with_rng st' rest).
Proof.
  unfold table_phase. intros Hop.
  eapply foldR_replay in Hop as [ds Hds]; [by exists ds|].
  intros s j s' Hj. inv_bind Hj as row Hrow.
  eapply foldR_replay in Hj as [ds Hds].
  - exists ds. intros rest.
    change (using_t (with_rng s (ds ++ rest))) with (using_t s). by rewrite Hrow, bind_ret.
  - intros s1 t s1' Ht. destruct (decide (t ≠ 0)) as [Hne|Heq].
    + destruct (sampling_k_replay _ _ _ _ Ht) as [ds Hds].
      exists ds. intros rest. rewrite decide_True by done. apply Hds.
    + exists []. intros rest. rewrite decide_False by done. by simplify_eq.
Qed.

Lemma inference_replay st st' :
  @_inference F R _ _ _ S st = Ok st' →
  ∃ dw dt mid,
    @word_phase F R _ _ S st = Ok mid ∧ @table_phase F R _ _ _ S mid = Ok st' ∧
    ∀ rest,
      @word_phase F (list nat) _ _ replay_sampler (with_rng st (dw ++ dt ++ rest)) =
        Ok (with_rng mid (dt ++ rest)) ∧
      @table_phase F (list nat) _ _ _ replay_sampler (with_rng mid (dt ++ rest)) =
        Ok (with_rng st' rest) ∧
      @_inference F (list nat) _ _ _ replay_sampler (with_rng st (dw ++ dt ++ rest)) =
        Ok (with_rng st' rest).
Proof.
  unfold _inference. intros Hop. inv_bind Hop as mid Hword.
  destruct (word_phase_replay _ _ Hword) as [dw Hdw].
  destruct (table_phase_replay _ _ Hop) as [dt Hdt].
  exists dw, dt, mid. split; [done|]. split; [done|]. intros rest.
  split; [done|]. split; [done|]. by rewrite Hdw, bind_ret.
Qed.

End Replay.

(** ** The sweep and its generator *)

Section Determinism.
Context {F R1 R2 : Type} `{Build} `{FloatOps F} `{SpecialFns F}.
Context (S1 : Sampler F R1) (S2 : Sampler F R2).

(** C8. The generator acts on a sweep through the draws alone. Take two
    runs of [_inference] from states that differ in their generators at
    most, under two samplers whose generators are in step (as two
    generators seeded alike are): the runs end alike, with the same failure
    or in states that again differ in their generators at most, the
    generators still in step. A run that returns can be replayed from the
    list of the draws it consumed, those of the word phase before those of
    the table phase, to the state it ended in. A sweep is the word phase
    followed by the table phase; the word phase resamples every word of
    every document in document-major order; and the table phase resamples
    every real active table of every document in document-major order. *)
Theorem sweep_deterministic (ρ : R1 → R2 → Prop)
    (st1 : state F R1) (st2 : state F R2) :
  in_step S1 S2 ρ → alike ρ st1 st2 →
  same_outcome (alike ρ)
    (@_inference F R1 _ _ _ S1 st1) (@_inference F R2 _ _ _ S2 st2) ∧
  (∀ st1', @_inference F R1 _ _ _ S1 st1 = Ok st1' →
     ∃ dw dt mid,
       @word_phase F R1 _ _ S1 st1 = Ok mid ∧
       @table_phase F R1 _ _ _ S1 mid = Ok st1' ∧
       ∀ rest,
         @word_phase F (list nat) _ _ replay_sampler (with_rng st1 (dw ++ dt ++ rest)) =
           Ok (with_rng mid (dt ++ rest)) ∧
         @table_phase F (list nat) _ _ _ replay_sampler (with_rng mid (dt ++ rest)) =
           Ok (with_rng st1' rest) ∧
         @_inference F (list nat) _ _ _ replay_sampler (with_rng st1 (dw ++ dt ++ rest)) =
           Ok (with_rng st1' rest)) ∧
  @_inference F R1 _ _ _ S1 st1 =
    (@word_phase F R1 _ _ S1 st1 ≫= λ st, @table_phase F R1 _ _ _ S1 st) ∧
  @word_phase F R1 _ _ S1 st1 =
    foldR (λ st ji, @sampling_t F R1 _ _ S1 st ji.1 ji.2) st1 (word_order (x_ji st1)) ∧
  (∀ st, length (using_t st) = length (x_ji st) →
     @table_phase F R1 _ _ _ S1 st =
       foldR (λ st jt, @sampling_k F R1 _ _ _ S1 st jt.1 jt.2) st (table_order (using_t st))).
Proof.
  intros Hstep Halike. split; [|split; [|split; [|split]]].
  - by apply (inference_in_step S1 S2 ρ).
  - intros st1' Hrun. by apply inference_replay.
  - done.
  - apply word_phase_order.
  - intros st Hlen. by apply table_phase_order.
Qed.

End Determinism.

(** ** The example states *)

(** The example states, member by member (the float counters apart). *)
Example state_one_word_members :
  using_t state_one_word = [[0; 1]; [0]; [0]] ∧ dishes_ state_one_word = [0; 1] ∧
  k_jt state_one_word = [[0; 1]; [0]; [0]] ∧
  n_jt state_one_word = [[0; 1]; [0]; [0]]%N ∧
  m_k state_one_word = [1; 1]%N ∧ m state_one_word = 1%N ∧
  t_ji state_one_word = [[1; 0; 0; 0]; [0; 0; 0; 0]; [0; 0; 0; 0]].
Proof. repeat split; reflexivity. Qed.

Example state_two_words_members :
  using_t state_two_words = [[0; 1]; [0]; [0]] ∧ dishes_ state_two_words = [0; 1] ∧
  k_jt state_two_words = [[0; 1]; [0]; [0]] ∧
  n_jt state_two_words = [[0; 2]; [0]; [0]]%N ∧
  m_k state_two_words = [1; 1]%N ∧ m state_two_words = 1%N ∧
  t_ji state_two_words = [[1; 1; 0; 0]; [0; 0; 0; 0]; [0; 0; 0; 0]].
Proof. repeat split; reflexivity. Qed.

Example state_shared_dish_members :
  using_t state_shared_dish = [[0; 1]; [0; 1]; [0]] ∧
  dishes_ state_shared_dish = [0; 1] ∧
  k_jt state_shared_dish = [[0; 1]; [0; 1]; [0]] ∧
  n_jt state_shared_dish = [[0; 1]; [0; 1]; [0]]%N ∧
  m_k state_shared_dish = [1; 2]%N ∧ m state_shared_dish = 2%N ∧
  t_ji state_shared_dish = [[1; 0; 0; 0]; [1; 0; 0; 0]; [0; 0; 0; 0]].
Proof. repeat split; reflexivity. Qed.

(** ** The claims on the examples *)

(** Construction does not look at the hyperparameters: with alpha = 0,
    which is not positive, and the checks compiled in, it returns a state. *)
Lemma construct_accepts_zero_alpha :
  f_ltb f_zero (f_zero : spec_float) = false ∧
  construct true 3 7 f_zero (b32 1 100) (b32 1 2) docs_A ([] : list nat) =
    Ok (initialize (Model_definition 3 7) f_zero (b32 1 100) (b32 1 2) docs_A []).
Proof. split; reflexivity. Qed.


(** A detach and attach that do not restore the state: in
    [state_one_word] the word 0 of document 0 sits alone at table 1.
    Detaching it destroys the table and its dish, and attaching it again to
    table 1 brings neither back. *)
Lemma detach_attach_drops_table :
  rd2 (t_ji state_one_word) 0 0 = Ok 1 ∧
  ∃ st1 st2,
    remove_table state_one_word 0 0 = Ok st1 ∧ add_table st1 0 1 0 = Ok st2 ∧
    using_t state_one_word = [[0; 1]; [0]; [0]] ∧ using_t st2 = [[0]; [0]; [0]] ∧
    dishes_ state_one_word = [0; 1] ∧ dishes_ st2 = [0] ∧
    m_k state_one_word = [1; 1]%N ∧ m_k st2 = [1; 0]%N ∧
    m state_one_word = 1%N ∧ m st2 = 0%N.
Proof.
  split; [reflexivity|]. do 2 eexists.
  split; [vm_compute; reflexivity|]. split; [vm_compute; reflexivity|].
  repeat split; reflexivity.
Qed.

(** A detach and attach that restore every count: in [state_two_words]
    the table of word 0 holds two words. *)
Lemma detach_attach_round_trip_witness :
  ∃ st1 st2,
    remove_table state_two_words 0 0 = Ok st1 ∧ add_table st1 0 1 0 = Ok st2 ∧
    same_counts state_two_words st2.
Proof.
  eapply (detach_attach_round_trip state_two_words 0 0 1 1 0 2%N);
    first [ vm_compute; reflexivity | lia | done ].
Defined.

(** A table that keeps its dish: in [state_shared_dish] table 1 of
    document 0 bears dish 1, which table 1 of document 1 bears too; after
    [leave_from_dish] the table still refers to dish 1, not to the
    sentinel. *)
Lemma leave_from_dish_keeps_dish :
  rd2 (k_jt state_shared_dish) 0 1 = Ok 1 ∧
  rd (m_k state_shared_dish) 1 = Ok 2%N ∧
  ∃ st', leave_from_dish state_shared_dish 0 1 = Ok st' ∧
         rd2 (k_jt st') 0 1 = Ok 1 ∧ rd2 (k_jt st') 0 1 ≠ Ok 0.
Proof.
  split; [reflexivity|]. split; [reflexivity|].
  eexists. split; [vm_compute; reflexivity|]. split; [reflexivity|discriminate].
Qed.

(** The same table, by the general statement: the dish stays active. *)
Lemma leave_from_dish_spec_witness :
  ∃ st', leave_from_dish state_shared_dish 0 1 = Ok st' ∧
         dishes_ st' = dishes_ state_shared_dish ∧ rd2 (k_jt st') 0 1 = Ok 1.
Proof.
  refine (proj1 (proj2 (leave_from_dish_spec state_shared_dish 0 1 1 [0; 1] 2
                          _ _ _ _ _ _)) _);
    first [reflexivity | vm_compute; reflexivity | lia | done].
Defined.

(** Validation at work: built with alpha = 0, Scenario A gives its first
    word the table posterior [NaN]; the test rejects it and the step
    fails. *)
Lemma posterior_vectors_validated_witness :
  calc_table_posterior state_zero_alpha 0 [f_zero] = Ok [S754_nan] ∧
  valid_probability_vector [S754_nan] = false ∧
  sampling_t state_zero_alpha 0 0 = Err InvalidProbability.
Proof.
  split; [reflexivity|]. split; [reflexivity|].
  apply (proj1 (proj2 (proj2 (posterior_vectors_validated replay_sampler)))
           state_zero_alpha 0 0 state_zero_alpha 0 [f_zero] f_zero [S754_nan]);
    reflexivity.
Defined.

(** A sweep of Scenario A under two generators of different kinds that
    are in step: a replayed list of draws that is exhausted, and the
    sampler that always answers with the first entry. *)
Lemma sweep_deterministic_witness :
  in_step (@replay_sampler spec_float) (@first_sampler spec_float)
          (λ (l : list nat) (_ : unit), l = []) ∧
  alike (λ (l : list nat) (_ : unit), l = []) (state_A []) state_A_first ∧
  same_outcome (alike (λ (l : list nat) (_ : unit), l = []))
    (_inference (state_A []))
    (@_inference spec_float unit _ _ _ first_sampler state_A_first).
Proof.
  assert (in_step (@replay_sampler spec_float) (@first_sampler spec_float)
            (λ (l : list nat) (_ : unit), l = [])) as Hstep.
  { intros p r1 r2 ->. by split. }
  assert (alike (λ (l : list nat) (_ : unit), l = []) (state_A []) state_A_first)
    as Halike.
  { split; reflexivity. }
  split; [exact Hstep|]. split; [exact Halike|].
  exact (proj1 (sweep_deterministic replay_sampler first_sampler _ _ _ Hstep Halike)).
Defined.

(** The first word of Scenario A, replaying the draws 0, 0, gets the new
    table 1 and the new dish 1. *)
Lemma new_table_new_dish_lowest_ids_witness :
  ∃ k t st',
    sampling_t (state_A [0; 0]) 0 0 = Ok st' ∧
    lowest_unused k (dishes_ (state_A [0; 0])) ∧
    adds_one k (dishes_ (state_A [0; 0])) (dishes_ st') ∧
    lowest_unused t [0] ∧
    (∃ row', using_t st' = <[0 := row']> (using_t (state_A [0; 0])) ∧
             adds_one t [0] row') ∧
    rd2 (t_ji st') 0 0 = Ok t ∧ rd2 (k_jt st') 0 t = Ok k.
Proof.
  apply (new_table_new_dish_lowest_ids (state_A [0; 0]) (state_A [0; 0]) 0 0 0
           [f_zero] [f_one] [f_one] f_zero [0]);
    first [ apply reach_initialize | reflexivity ].
Defined.

(** In a freshly built state every word is unassigned, and detaching one
    changes nothing. *)
Lemma remove_table_unassigned_witness :
  rd2 (t_ji (state_A [])) 2 3 = Ok 0 ∧
  remove_table (state_A []) 2 3 = Ok (state_A []).
Proof.
  split; [reflexivity|].
  apply (remove_table_unassigned (state_A []) 2 3). reflexivity.
Defined.

(** * Further properties of util.hpp *)

(** X1. [removeFirst] leaves a vector without the element as it is, and
    otherwise erases the first occurrence only: everything before it and
    everything after it, later occurrences included, stays in place. *)
Theorem removeFirst_erases_first_only {A} `{EqDecision A} (v : list A) (element : A) :
  (element ∉ v → removeFirst v element = v) ∧
  (∀ l1 l2, v = l1 ++ element :: l2 → element ∉ l1 →
            removeFirst v element = l1 ++ l2 ∧
            length (removeFirst v element) + 1 = length v).
Proof.
  split.
  - induction v as [|x v IH]; simpl; [done|]. intros Hnotin.
    apply not_elem_of_cons in Hnotin as [Hne Hnotin].
    rewrite decide_False by done. by rewrite IH.
  - intros l1 l2 -> Hnotin. assert (removeFirst (l1 ++ element :: l2) element = l1 ++ l2) as ->.
    { induction l1 as [|x l1 IH]; simpl; [by rewrite decide_True|].
      apply not_elem_of_cons in Hnotin as [Hne Hnotin].
      rewrite decide_False by done. by rewrite IH. }
    split; [done|]. rewrite !length_app. simpl. lia.
Qed.

(** X2. [selectByIndex] returns, in the order of [index], the elements of
    [v] at those positions, one per index and repeats included; it reads
    outside [v] exactly when some index is not below the size of [v]. *)
Theorem selectByIndex_spec {A} (v : list A) (index : list nat) :
  (Forall (λ i, i < length v) index →
   ∃ new_v, selectByIndex v index = Ok new_v ∧ length new_v = length index ∧
            ∀ n i, index !! n = Some i → new_v !! n = v !! i) ∧
  (¬ Forall (λ i, i < length v) index → selectByIndex v index = Err OutOfRange).
Proof.
  unfold selectByIndex. induction index as [|i index [IHok IHerr]]; simpl.
  - split; [|by intros []]. intros _. exists []. by split.
  - split.
    + intros Hall. apply Forall_cons in Hall as [Hi Hall].
      destruct (IHok Hall) as (new_v & -> & Hlen & Hnth).
      destruct (rd_is_Ok v i Hi) as [a Ha]. rewrite Ha, !bind_ret.
      exists (a :: new_v). split; [done|]. split; [simpl; by rewrite Hlen|].
      intros [|n] i'; simpl; [|by apply Hnth].
      intros [= <-]. symmetry. by apply rd_Ok.
    + intros Hnot. destruct (rd v i) as [a|e] eqn:Ha.
      * rewrite bind_ret. rewrite IHerr; [done|].
        intros Hall. apply Hnot, Forall_cons. split; [|done]. by eapply rd_lt.
      * unfold rd in Ha. destruct (v !! i); by simplify_eq.
Qed.

Lemma unique_members_inner (s : gset nat) (l : list nat) (x : nat) :
  x ∈ foldl (λ unique_values val, {[val]} ∪ unique_values) s l ↔ x ∈ s ∨ x ∈ l.
Proof.
  revert s. induction l as [|y l IH]; intros s; simpl; [set_solver|].
  rewrite IH. set_solver.
Qed.

Lemma unique_members_outer (s : gset nat) (nested_list : list (list nat)) (x : nat) :
  x ∈ foldl (λ unique_values lst,
               foldl (λ unique_values val, {[val]} ∪ unique_values) unique_values lst)
            s nested_list ↔ x ∈ s ∨ x ∈ mjoin nested_list.
Proof.
  revert s. induction nested_list as [|l nested_list IH]; intros s; simpl; [set_solver|].
  rewrite IH, unique_members_inner, elem_of_app. tauto.
Qed.

Lemma fold_largest (v : list nat) (x : nat) :
  let r := fold_left (λ largest y, if decide (largest < y) then y else largest) v x in
  r ∈ x :: v ∧ ∀ y, y ∈ x :: v → y ≤ r.
Proof.
  revert x. induction v as [|z v IH]; intros x; simpl.
  - split; [set_solver|]. intros y Hy. apply list_elem_of_singleton in Hy. lia.
  - destruct (IH (if decide (x < z) then z else x)) as [Hin Hmax]. split.
    + apply elem_of_cons in Hin as [->|Hin]; [|set_solver].
      case_decide; set_solver.
    + intros y Hy. apply elem_of_cons in Hy as [->|Hy].
      * etrans; [|apply Hmax; left]. case_decide; lia.
      * apply elem_of_cons in Hy as [->|Hy]; [|apply Hmax; set_solver].
        etrans; [|apply Hmax; left]. case_decide; lia.
Qed.

(** X3. [unique_members] holds exactly the values that occur in some inner
    list. [max_element] of a nested list returns a value that occurs in it
    and that no other value exceeds; it dereferences the end of an empty set
    exactly when no inner list has an element. *)
Theorem nested_max_element_spec (nested_list : list (list nat)) :
  (∀ x, x ∈ lda_util.unique_members nested_list ↔ ∃ l, l ∈ nested_list ∧ x ∈ l) ∧
  match lda_util.max_element nested_list with
  | Ok largest => largest ∈ mjoin nested_list ∧ ∀ x, x ∈ mjoin nested_list → x ≤ largest
  | Err e => e = OutOfRange ∧ Forall (λ l, l = []) nested_list
  end.
Proof.
  split.
  - intros x. unfold lda_util.unique_members. rewrite unique_members_outer.
    rewrite list_elem_of_join. set_solver.
  - unfold lda_util.max_element.
    set (s := foldl _ ∅ nested_list).
    assert (∀ x, x ∈ merge_sort le (elements s) ↔ x ∈ mjoin nested_list) as Hs.
    { intros x. rewrite merge_sort_Permutation, elem_of_elements. unfold s.
      rewrite unique_members_outer. set_solver. }
    destruct (merge_sort le (elements s)) as [|x v].
    + split; [done|]. apply Forall_forall. intros l Hl.
      destruct l as [|y l]; [done|]. exfalso.
      assert (y ∈ mjoin nested_list) as Hy
        by (apply list_elem_of_join; exists (y :: l); split; [left|done]).
      apply Hs in Hy. by apply elem_of_nil in Hy.
    + destruct (fold_largest v x) as [Hin Hmax]. split.
      * by apply Hs.
      * intros y Hy. by apply Hmax, Hs.
Qed.

Section UtilFacts.
Context {F : Type} `{FloatOps F}.

(** X4. A [defaultdict] reads its default value at a key it does not hold;
    [set], [incr] and [decr] change the reading of the key they are given
    only, make that key present and keep the default value; [incr] and
    [decr] count a missing key from the default value. *)
Theorem defaultdict_updates (d : defaultdict F) (t : nat) (x : F) :
  (dd_contains d t = false → dd_get d t = default_value d) ∧
  dd_get (dd_set d t x) t = x ∧
  dd_get (dd_incr d t x) t =
    (if dd_contains d t then f_add (dd_get d t) x else f_add x (default_value d)) ∧
  dd_get (dd_decr d t x) t =
    (if dd_contains d t then f_sub (dd_get d t) x else f_sub (default_value d) x) ∧
  ∀ d', d' ∈ [dd_set d t x; dd_incr d t x; dd_decr d t x] →
        default_value d' = default_value d ∧ dd_contains d' t = true ∧
        ∀ t', t' ≠ t → dd_get d' t' = dd_get d t' ∧ dd_contains d' t' = dd_contains d t'.
Proof.
  unfold dd_contains, dd_get, dd_set, dd_incr, dd_decr.
  split; [|split; [|split; [|split]]].
  - intros Hc. apply bool_decide_eq_false in Hc.
    destruct (dd_map d !! t); [by destruct Hc|done].
  - simpl. by rewrite lookup_insert_eq.
  - destruct (dd_map d !! t) as [y|] eqn:Hy; simpl; by rewrite lookup_insert_eq.
  - destruct (dd_map d !! t) as [y|] eqn:Hy; simpl; by rewrite lookup_insert_eq.
  - intros d' Hd'.
    assert (∃ y, d' = Defaultdict (default_value d) (<[t := y]> (dd_map d))) as [y ->].
    { repeat (apply elem_of_cons in Hd' as [->|Hd']); [by eexists| | |by apply elem_of_nil in Hd'];
        destruct (dd_map d !! t); by eexists. }
    simpl. split; [done|]. split.
    + rewrite lookup_insert_eq. by apply bool_decide_eq_true_2.
    + intros t' Hne. by rewrite lookup_insert_ne.
Qed.

(** X5. [normalize] keeps the size of the vector (an empty vector stays
    empty), and in exact arithmetic the normalized vector sums to 1
    whenever the vector is not empty and its sum is not 0. *)
Theorem normalize_spec (v : list F) :
  length (normalize v) = length v ∧
  (ExactDiv F → v ≠ [] → f_eqb (eigen_sum v) f_zero = false →
   eigen_sum (normalize v) = f_one).
Proof.
  split; [unfold normalize; by rewrite length_fmap|].
  intros Hex Hne Hs. by apply normalize_sums_to_one.
Qed.

End UtilFacts.

(** * Further invariants of the sampler *)

Lemma wr_Forall {A} (P : A → Prop) (l l' : list A) (i : nat) (x : A) :
  Forall P l → P x → wr l i x = Ok l' → Forall P l'.
Proof.
  intros Hl Hx Hw. apply wr_Ok in Hw as [_ ->]. by apply Forall_insert.
Qed.

Lemma wr2_Forall {A} (P : A → Prop) (l l' : list (list A)) (j i : nat) (x : A) :
  Forall (Forall P) l → P x → wr2 l j i x = Ok l' → Forall (Forall P) l'.
Proof.
  intros Hl Hx Hw. apply wr2_Ok in Hw as (row & Hrow & Hi & ->).
  apply Forall_insert; [done|]. apply Forall_insert; [|done].
  rewrite Forall_forall in Hl. apply Hl. by eapply list_elem_of_lookup_2.
Qed.

Lemma Forall_Forall_impl {A} (P Q : A → Prop) (l : list (list A)) :
  (∀ x, P x → Q x) → Forall (Forall P) l → Forall (Forall Q) l.
Proof.
  intros HPQ Hl. eapply Forall_impl; [done|]. intros row Hrow. by eapply Forall_impl.
Qed.

Section InvariantProofs.
Context {F R : Type} `{Build} `{FloatOps F} `{SpecialFns F} `{Sampler F R}.
Implicit Types (st : state F R) (j i t k : nat).

Lemma same_params_refl st : same_params st st.
Proof. by repeat split. Qed.

Lemma same_params_trans st1 st2 st3 :
  same_params st1 st2 → same_params st2 st3 → same_params st1 st3.
Proof.
  unfold same_params. intros (-> & -> & -> & -> & ->) (-> & -> & -> & -> & ->). done.
Qed.

Lemma default_value_incr (d : defaultdict F) v (x : F) :
  default_value (dd_incr d v x) = default_value d.
Proof. unfold dd_incr. by destruct (dd_map d !! v). Qed.

Lemma default_value_decr (d : defaultdict F) v (x : F) :
  default_value (dd_decr d v x) = default_value d.
Proof. unfold dd_decr. by destruct (dd_map d !! v). Qed.

Lemma initialize_bounded def (alpha beta gamma : F) docs (rng : R) :
  bounded (initialize def alpha beta gamma docs rng).
Proof.
  split; simpl.
  - rewrite <-list_fmap_compose. apply list_fmap_ext. intros ? d _. simpl.
    by rewrite length_replicate.
  - apply Forall_fmap, Forall_forall. intros d _. simpl. repeat constructor.
  - by repeat constructor.
Qed.

Lemma set_rng_bounded st (r : R) : bounded st → bounded (set_rng_ st r).
Proof. by intros []. Qed.

Lemma delete_table_effect st j t st' :
  delete_table st j t = Ok st' →
  same_params st st' ∧ k_jt st' = k_jt st ∧ t_ji st' = t_ji st ∧
  n_kv_ st' = n_kv_ st ∧ length (m_k st') = length (m_k st).
Proof.
  unfold delete_table. intros Hop.
  inv_bind Hop as k Hk. inv_bind Hop as row Hrow. inv_bind Hop as using_t' Hw.
  inv_bind Hop as mk Hmk. inv_bind Hop as m_k' Hw2. inv_bind Hop as ? Ha.
  apply wr_Ok in Hw2 as [_ ->].
  case_decide; simplify_eq; simpl; by rewrite length_insert.
Qed.

Lemma remove_table_bounded st j i st' :
  bounded st → remove_table st j i = Ok st' → bounded st' ∧ same_params st st'.
Proof.
  intros [Hw Hd Hb]. unfold remove_table. intros Hop. inv_bind Hop as t Ht.
  case_decide; [|simplify_eq; by split].
  inv_bind Hop as k Hk. inv_bind Hop as ? Ha. inv_bind Hop as v Hv.
  inv_bind Hop as d Hd'. inv_bind Hop as n_kv' Hwkv. inv_bind Hop as c Hc.
  inv_bind Hop as n_jt' Hw2. inv_bind Hop as mp Hmp. inv_bind Hop as n_jtv' Hw3.
  assert (Forall (λ d, default_value d = beta_ st) n_kv') as Hb'.
  { eapply wr_Forall; [done| |done]. rewrite default_value_decr.
    rewrite Forall_forall in Hb. apply Hb. apply rd_Ok in Hd'.
    by eapply list_elem_of_lookup_2. }
  case_decide; [|simplify_eq; by split].
  apply delete_table_effect in Hop as (Hp & Hk' & Ht' & Hkv' & Hm').
  simpl in *. split; [|done]. destruct Hp as (Hx & _ & _ & Hbeta & _). simpl in *.
  split; by rewrite ?Hk', ?Ht', ?Hkv', ?Hm', ?Hx, ?Hbeta.
Qed.

Lemma add_table_bounded st j t i st' :
  bounded st → add_table st j t i = Ok st' → bounded st' ∧ same_params st st'.
Proof.
  intros [Hw Hd Hb]. unfold add_table. intros Hop.
  inv_bind Hop as t_ji' Hwt. inv_bind Hop as c Hc. inv_bind Hop as n_jt' Hw2.
  inv_bind Hop as k Hk. inv_bind Hop as v Hv. inv_bind Hop as d Hd'.
  inv_bind Hop as n_kv' Hwkv. inv_bind Hop as mp Hmp. inv_bind Hop as n_jtv' Hw3.
  simplify_eq. split; [|done]. split; simpl; [|done|].
  - by rewrite (wr2_shape _ _ _ _ _ Hwt).
  - eapply wr_Forall; [done| |done]. rewrite default_value_incr.
    rewrite Forall_forall in Hb. apply Hb. apply rd_Ok in Hd'.
    by eapply list_elem_of_lookup_2.
Qed.

Lemma create_dish_bounded st k st' :
  bounded st → create_dish st = Ok (k, st') → bounded st' ∧ same_params st st'.
Proof.
  intros [Hw Hd Hb]. unfold create_dish. intros Hop.
  inv_bind Hop as st1 Hst1. inv_bind Hop as dishes' Hins. inv_bind Hop as n_kv' Hwkv.
  inv_bind Hop as m_k' Hwm. simplify_eq.
  assert (bounded st1 ∧ same_params st st1) as [[Hw1 Hd1 Hb1] Hp1].
  { case_decide; [|simplify_eq; by split].
    inv_bind Hst1 as m0 Hm0. inv_bind Hst1 as b Hback. inv_bind Hst1 as ? Ha1.
    inv_bind Hst1 as ? Ha2. simplify_eq. split; [|done]. split; simpl; [done| |].
    - eapply Forall_Forall_impl; [|done]. simpl. intros k' Hk'. rewrite length_app. lia.
    - apply Forall_app. split; [done|]. by repeat constructor. }
  split.
  - split; simpl; [done| |].
    + apply wr_Ok in Hwm as [_ ->]. by rewrite length_insert.
    + eapply (wr_Forall (λ d, default_value d = beta_ st1)); [exact Hb1| |exact Hwkv]. done.
  - destruct Hp1 as (? & ? & ? & ? & ?). by repeat split.
Qed.

Lemma create_table_bounded st j k t st' :
  bounded st → create_table st j k = Ok (t, st') → bounded st' ∧ same_params st st'.
Proof.
  intros [Hw Hd Hb]. unfold create_table. intros Hop.
  inv_bind Hop as row Hrow. inv_bind Hop as st1 Hst1. inv_bind Hop as row' Hins.
  inv_bind Hop as using_t' Hwu. inv_bind Hop as n_jt' Hwn. inv_bind Hop as ? Ha.
  inv_bind Hop as k_jt' Hwk. inv_bind Hop as mk Hmk. inv_bind Hop as m_k' Hwm.
  simplify_eq.
  assert (bounded st1 ∧ same_params st st1 ∧ m_k st1 = m_k st) as ([Hw1 Hd1 Hb1] & Hp1 & Hm1).
  { case_decide; [|simplify_eq; by repeat split].
    inv_bind Hst1 as nrow Hnrow. inv_bind Hst1 as n_jt1 Hwn1. inv_bind Hst1 as krow Hkrow.
    inv_bind Hst1 as k_jt1 Hwk1. inv_bind Hst1 as vrow Hvrow. inv_bind Hst1 as n_jtv1 Hwv1.
    simplify_eq. split; [|done]. split; simpl; [done| |done].
    eapply wr_Forall; [done| |done]. apply Forall_app. split.
    - rewrite Forall_forall in Hd. apply Hd. apply rd_Ok in Hkrow.
      by eapply list_elem_of_lookup_2.
    - repeat constructor. apply rd_lt in Hmk. simpl in Hmk. lia. }
  split.
  - split; simpl; [done| |done].
    apply wr_Ok in Hwm as [_ ->]. rewrite length_insert.
    eapply wr2_Forall; [done| |done]. by eapply rd_lt.
  - destruct Hp1 as (? & ? & ? & ? & ?). by repeat split.
Qed.

Lemma leave_from_dish_bounded st j t st' :
  bounded st → leave_from_dish st j t = Ok st' → bounded st' ∧ same_params st st'.
Proof.
  intros [Hw Hd Hb]. unfold leave_from_dish. intros Hop.
  inv_bind Hop as k Hk. inv_bind Hop as ? Ha1. inv_bind Hop as mk Hmk.
  inv_bind Hop as ? Ha2. inv_bind Hop as m_k' Hwm.
  pose proof (rd_lt _ _ _ Hmk) as Hklt. apply wr_Ok in Hwm as [_ ->].
  case_decide.
  - inv_bind Hop as k_jt' Hwk. simplify_eq. split; [|done]. split; simpl; [done| |done].
    rewrite length_insert. simpl in Hwk. eapply wr2_Forall; [done| |done]. lia.
  - simplify_eq. split; [|done]. split; simpl; [done| |done]. by rewrite length_insert.
Qed.

Lemma move_word_defaults (b : F) k_old k_new (n_kv n_kv' : list (defaultdict F))
    (kv : nat * N) :
  Forall (λ d, default_value d = b) n_kv →
  move_word k_old k_new n_kv kv = Ok n_kv' →
  Forall (λ d, default_value d = b) n_kv'.
Proof.
  intros Hb. unfold move_word. intros Hop.
  inv_bind Hop as n_kv1 Hold. inv_bind Hop as d Hd.
  assert (Forall (λ d, default_value d = b) n_kv1) as Hb1.
  { case_decide; [|by simplify_eq]. inv_bind Hold as d0 Hd0.
    eapply wr_Forall; [done| |done]. rewrite default_value_decr.
    rewrite Forall_forall in Hb. apply Hb. apply rd_Ok in Hd0.
    by eapply list_elem_of_lookup_2. }
  eapply wr_Forall; [done| |done]. rewrite default_value_incr.
  rewrite Forall_forall in Hb1. apply Hb1. apply rd_Ok in Hd.
  by eapply list_elem_of_lookup_2.
Qed.

Lemma seat_at_dish_bounded st j t k st' :
  bounded st → seat_at_dish st j t k = Ok st' → bounded st' ∧ same_params st st'.
Proof.
  intros [Hw Hd Hb]. unfold seat_at_dish. intros Hop.
  inv_bind Hop as mk Hmk. inv_bind Hop as m_k' Hwm. inv_bind Hop as k_old Hk.
  pose proof (rd_lt _ _ _ Hmk) as Hklt. apply wr_Ok in Hwm as [_ ->]. simpl in Hk.
  case_decide as Hne.
  - inv_bind Hop as ? Ha. inv_bind Hop as k_jt' Hwk. inv_bind Hop as c Hc.
    inv_bind Hop as mp Hmp. inv_bind Hop as n_kv' Hf. simplify_eq.
    split; [|done]. split; simpl; [done| |].
    + rewrite length_insert. simpl in Hwk. by eapply wr2_Forall.
    + simpl in Hf. revert Hf.
      apply (foldR_invariant (λ l, Forall (λ d, default_value d = beta_ st) l)); [|done].
      intros l kv l' Hl Hstep. by eapply move_word_defaults.
  - simplify_eq. split; [|done]. split; simpl; [done| |done]. by rewrite length_insert.
Qed.

Lemma drawn_dish_bounded st (k : nat) (ks : nat * state F R) :
  bounded st →
  (if decide (k = 0) then create_dish st else Ok (k, st)) = Ok ks →
  bounded ks.2 ∧ same_params st ks.2.
Proof.
  intros Hb Hks. destruct ks as [k' st']. case_decide.
  - by eapply create_dish_bounded.
  - simplify_eq. split; [done|apply same_params_refl].
Qed.

Lemma new_table_bounded st j (f_k : list F) t st' :
  bounded st → new_table st j f_k = Ok (t, st') → bounded st' ∧ same_params st st'.
Proof.
  intros Hb. unfold new_table. intros Hop.
  inv_bind Hop as p_k Hp. inv_bind Hop as ? Hval. inv_bind Hop as k_new Hk.
  inv_bind Hop as ks Hks.
  apply drawn_dish_bounded in Hks as [Hb2 Hp2]; [|by apply set_rng_bounded].
  apply create_table_bounded in Hop as [Hb3 Hp3]; [|done].
  split; [done|]. eapply same_params_trans; [|done]. done.
Qed.

Lemma sampling_t_bounded st j i st' :
  bounded st → sampling_t st j i = Ok st' → bounded st' ∧ same_params st st'.
Proof.
  intros Hb. unfold sampling_t. intros Hop.
  inv_bind Hop as st1 Hrem. inv_bind Hop as v Hv. inv_bind Hop as f_k Hfk.
  inv_bind Hop as f0 Hf0. inv_bind Hop as ? Hassert. inv_bind Hop as p_t Hp.
  inv_bind Hop as ? Hval. inv_bind Hop as t_new Ht. inv_bind Hop as [t st2] Hts.
  simpl in Hop.
  apply remove_table_bounded in Hrem as [Hb1 Hp1]; [|done].
  assert (bounded st2 ∧ same_params st1 st2) as [Hb2 Hp2].
  { case_decide.
    - apply new_table_bounded in Hts; [done|by apply set_rng_bounded].
    - simplify_eq. split; [by apply set_rng_bounded|done]. }
  apply add_table_bounded in Hop as [Hb3 Hp3]; [|done].
  split; [done|]. eapply same_params_trans; [|done]. by eapply same_params_trans.
Qed.

Lemma sampling_k_bounded st j t st' :
  bounded st → sampling_k st j t = Ok st' → bounded st' ∧ same_params st st'.
Proof.
  intros Hb. unfold sampling_k. intros Hop.
  inv_bind Hop as st1 Hleave. inv_bind Hop as p_k Hp. inv_bind Hop as ? Hval.
  inv_bind Hop as ? Ha. inv_bind Hop as k_new Hk. inv_bind Hop as ks Hks.
  apply leave_from_dish_bounded in Hleave as [Hb1 Hp1]; [|done].
  apply drawn_dish_bounded in Hks as [Hb2 Hp2]; [|by apply set_rng_bounded].
  apply seat_at_dish_bounded in Hop as [Hb3 Hp3]; [|done].
  split; [done|]. eapply same_params_trans; [|done]. by eapply same_params_trans.
Qed.

Lemma reachable_bounded st : reachable st → bounded st.
Proof.
  induction 1 as [| st j i st' _ IH Hstep | st j t row st' _ IH Hrow Hin Hne Hstep].
  - apply initialize_bounded.
  - by eapply sampling_t_bounded.
  - by eapply sampling_k_bounded.
Qed.

End InvariantProofs.

(** * A sweep through reachable states *)

Lemma foldR_invariant_in {A S} (P : S → Prop) (f : S → A → result S) (s s' : S)
    (l : list A) :
  (∀ s a s', a ∈ l → P s → f s a = Ok s' → P s') → P s → foldR f s l = Ok s' → P s'.
Proof.
  revert s. induction l as [|a l IH]; intros s Hstep Hs; simpl.
  - by intros [= <-].
  - intros Hf. apply bind_Ok in Hf as (s1 & H1 & H2).
    eapply (IH s1); [|by eapply Hstep; [left| |]|done].
    intros s2 b s3 Hb. apply Hstep. by right.
Qed.

(** Every step of a fold establishes its own goal and keeps the goals
    reached before it. *)
Lemma foldR_visits {A S} (P : S → Prop) (Q : A → S → Prop) (f : S → A → result S)
    (s s' : S) (l : list A) :
  (∀ s a s', P s → f s a = Ok s' → P s' ∧ Q a s' ∧ ∀ b, Q b s → Q b s') →
  P s → foldR f s l = Ok s' →
  P s' ∧ (∀ b, Q b s → Q b s') ∧ ∀ a, a ∈ l → Q a s'.
Proof.
  intros Hstep. revert s. induction l as [|a l IH]; intros s Hs; simpl.
  - intros [= <-]. split; [done|]. split; [done|]. intros a Ha. by apply elem_of_nil in Ha.
  - intros Hf. apply bind_Ok in Hf as (s1 & H1 & H2).
    destruct (Hstep _ _ _ Hs H1) as (Hs1 & Hq & Hkeep).
    destruct (IH s1 Hs1 H2) as (Hs' & Hkeep' & Hall).
    split; [done|]. split; [by eauto|].
    intros b Hb. apply elem_of_cons in Hb as [->|Hb]; eauto.
Qed.

Lemma elem_of_word_order (docs : list (list nat)) (j i : nat) :
  (j, i) ∈ word_order docs ↔ ∃ row, docs !! j = Some row ∧ i < length row.
Proof.
  unfold word_order. rewrite list_elem_of_join. split.
  - intros (l & Hin & Hl). apply elem_of_lookup_imap in Hl as (j' & row & -> & Hrow).
    apply list_elem_of_fmap in Hin as (i' & [= -> ->] & Hi').
    apply elem_of_seq in Hi'. exists row. split; [done|lia].
  - intros (row & Hrow & Hi). exists (pair j <$> seq 0 (length row)). split.
    + apply list_elem_of_fmap. exists i. split; [done|]. apply elem_of_seq. lia.
    + apply elem_of_lookup_imap. by exists j, row.
Qed.

Lemma elem_of_table_order (rows : list (list nat)) (j t : nat) :
  (j, t) ∈ table_order rows ↔ ∃ row, rows !! j = Some row ∧ t ∈ row ∧ t ≠ 0.
Proof.
  unfold table_order. rewrite list_elem_of_join. split.
  - intros (l & Hin & Hl). apply elem_of_lookup_imap in Hl as (j' & row & -> & Hrow).
    apply list_elem_of_fmap in Hin as (t' & [= -> ->] & Ht').
    apply list_elem_of_filter in Ht' as [Hne Ht']. by exists row.
  - intros (row & Hrow & Ht & Hne). exists (pair j <$> filter (λ t, t ≠ 0) row). split.
    + apply list_elem_of_fmap. exists t. split; [done|]. by apply list_elem_of_filter.
    + apply elem_of_lookup_imap. by exists j, row.
Qed.

Section SweepProofs.
Context {F R : Type} `{Build} `{FloatOps F} `{SpecialFns F} `{Sampler F R}.
Implicit Types (st : state F R) (j i t k : nat).

Lemma well_formed_docs st :
  well_formed st → bounded st → length (using_t st) = length (x_ji st).
Proof.
  intros Hwf Hb. pose proof (Forall2_length _ _ _ (wf_tables _ Hwf)) as Hu.
  rewrite length_fmap in Hu. pose proof (f_equal length (bd_words _ Hb)) as Ht.
  rewrite !length_fmap in Ht. pose proof (wf_t_ji _ Hwf). lia.
Qed.

Lemma word_phase_reachable st st' :
  reachable st → word_phase st = Ok st' → reachable st'.
Proof.
  intros Hreach. rewrite word_phase_order.
  apply (foldR_invariant reachable); [|done].
  intros s ji s' Hs Hstep. by eapply reach_sampling_t.
Qed.

Lemma table_phase_reachable st st' :
  reachable st → table_phase st = Ok st' → reachable st' ∧ using_t st' = using_t st.
Proof.
  intros Hreach. destruct (reachable_invariant _ Hreach) as [Hwf _].
  rewrite table_phase_order by by apply well_formed_docs, reachable_bounded.
  apply (foldR_invariant_in (λ s, reachable s ∧ using_t s = using_t st)); [|done].
  intros s [j t] s' Hin [Hs Hu] Hstep. simpl in Hstep.
  apply elem_of_table_order in Hin as (row & Hrow & Ht & Hne).
  split.
  - eapply reach_sampling_k; [done| | | |done]; [by rewrite Hu|done|done].
  - apply sampling_k_frame in Hstep as [-> _]. done.
Qed.

Lemma inference_reachable st st' :
  reachable st → _inference st = Ok st' → reachable st'.
Proof.
  intros Hreach. unfold _inference. intros Hop. inv_bind Hop as st1 Hword.
  apply word_phase_reachable in Hword; [|done].
  by apply table_phase_reachable in Hop as [? _].
Qed.

(** X6. Every state the sampler reaches keeps its id sequences in order:
    the active dishes and the active tables of each document are strictly
    increasing from the sentinel 0, every active id is within the vectors
    it indexes, and the per-document vectors have one shape. *)
Theorem reachable_ids_in_order st : reachable st → well_formed st.
Proof. intros Hreach. by apply reachable_invariant. Qed.

(** X7. In every state the sampler reaches, each real active table and
    each real table a word refers to bears a dish other than the sentinel,
    and every table a word refers to is within [k_jt]. *)
Theorem reachable_tables_bear_dishes st : reachable st → seating None st.
Proof. intros Hreach. by apply reachable_invariant. Qed.

(** X8. In every state the sampler reaches, [t_ji] has one entry per word
    of each document, every dish id stored in [k_jt] is within [m_k], and
    every counter of [n_kv_] has [beta_] as its default value. *)
Theorem reachable_indices_bounded st : reachable st → bounded st.
Proof. apply reachable_bounded. Qed.

(** X9. A sweep that succeeds from a reachable state ends in a reachable
    state: the word phase resamples words only, and the table phase
    resamples only tables that are real and still active when their turn
    comes. *)
Theorem sweep_reachable st st' :
  reachable st → _inference st = Ok st' → reachable st'.
Proof. apply inference_reachable. Qed.

(** X10. A sweep from a reachable state changes neither the documents,
    nor the vocabulary size, nor any of alpha, beta and gamma. *)
Theorem sweep_keeps_parameters st st' :
  reachable st → _inference st = Ok st' → same_params st st'.
Proof.
  intros Hreach. unfold _inference. intros Hop. inv_bind Hop as st1 Hword.
  pose proof (word_phase_reachable _ _ Hreach Hword) as Hreach1.
  assert (bounded st1 ∧ same_params st st1) as [Hb1 Hp1].
  { revert Hword. rewrite word_phase_order.
    apply (foldR_invariant (λ s, bounded s ∧ same_params st s)).
    - intros s ji s' [Hs Hp] Hstep. apply sampling_t_bounded in Hstep as [? ?]; [|done].
      split; [done|]. by eapply same_params_trans.
    - split; [by apply reachable_bounded|apply same_params_refl]. }
  eapply same_params_trans; [done|].
  destruct (reachable_invariant _ Hreach1) as [Hwf1 _].
  revert Hop. rewrite table_phase_order by by apply well_formed_docs.
  apply (foldR_invariant (λ s, bounded s ∧ same_params st1 s)).
  - intros s jt s' [Hs Hp] Hstep. apply sampling_k_bounded in Hstep as [? ?]; [|done].
    split; [done|]. by eapply same_params_trans.
  - split; [done|apply same_params_refl].
Qed.

End SweepProofs.

(** * Where the words sit *)

Lemma rd2_insert2_keeps {A} (l : list (list A)) (j i : nat) (x : A) (row : list A)
    (j' i' : nat) (y : A) :
  l !! j = Some row → rd2 l j' i' = Ok y →
  ∃ z, rd2 (<[j := <[i := x]> row]> l) j' i' = Ok z ∧ (z = y ∨ z = x).
Proof.
  intros Hrow. rewrite rd2_Ok. intros (row' & Hrow' & Hy).
  destruct (decide (j = j')) as [<-|Hnej].
  - simplify_eq. destruct (decide (i = i')) as [<-|Hnei].
    + exists x. split; [|by right]. apply rd2_Ok. exists (<[i := x]> row). split.
      * apply list_lookup_insert_eq. by eapply lookup_lt_Some.
      * apply list_lookup_insert_eq. by eapply lookup_lt_Some.
    + exists y. split; [|by left]. apply rd2_Ok. exists (<[i := x]> row). split.
      * apply list_lookup_insert_eq. by eapply lookup_lt_Some.
      * by rewrite list_lookup_insert_ne.
  - exists y. split; [|by left]. apply rd2_Ok. exists row'. split; [|done].
    by rewrite list_lookup_insert_ne.
Qed.

Section SeatProofs.
Context {F R : Type} `{Build} `{FloatOps F} `{SpecialFns F} `{Sampler F R}.
Implicit Types (st : state F R) (j i t k : nat).

Lemma new_table_active st j (f_k : list F) t st' :
  well_formed st → seating None st → new_table st j f_k = Ok (t, st') →
  0 < t ∧ (∃ row, using_t st' !! j = Some row ∧ t ∈ row) ∧ t_ji st' = t_ji st.
Proof.
  intros Hwf Hseat. unfold new_table. intros Hop.
  inv_bind Hop as p_k Hp. inv_bind Hop as ? Hval. inv_bind Hop as k_new Hk.
  inv_bind Hop as ks Hks.
  assert (t_ji ks.2 = t_ji st) as Htji.
  { destruct ks as [k st2]. case_decide.
    - apply create_dish_frame in Hks as (_ & _ & _ & _ & _ & Ht & _). simpl. by rewrite Ht.
    - by simplify_eq. }
  apply (drawn_dish _ None) in Hks as (Hwf2 & Hseat2 & Hpos);
    [|by apply set_rng_well_formed|by apply set_rng_seating].
  destruct (create_table_effect _ _ _ _ _ Hwf2 Hpos Hop) as (_ & Htpos & Htj & _).
  destruct (create_table_seating _ _ _ _ _ _ Hwf2 Hseat2 Hpos Hop) as (_ & _ & Hrow).
  split; [done|]. split; [done|]. congruence.
Qed.

Lemma sampling_t_seats st j i st' :
  well_formed st → seating None st → sampling_t st j i = Ok st' →
  seated st' j i ∧
  ∃ t trow, 0 < t ∧ t_ji st !! j = Some trow ∧ i < length trow ∧
            t_ji st' = <[j := <[i := t]> trow]> (t_ji st).
Proof.
  intros Hwf Hseat. unfold sampling_t. intros Hop.
  inv_bind Hop as st1 Hrem. inv_bind Hop as v Hv. inv_bind Hop as f_k Hfk.
  inv_bind Hop as f0 Hf0. inv_bind Hop as ? Hassert. inv_bind Hop as p_t Hp.
  inv_bind Hop as ? Hval. inv_bind Hop as t_new Ht. inv_bind Hop as [t st2] Hts.
  simpl in Hop.
  pose proof (remove_table_well_formed _ _ _ _ Hwf Hseat Hrem) as Hwf1.
  pose proof (remove_table_seating _ _ _ _ _ Hseat Hrem) as Hseat1.
  destruct (remove_table_t_ji _ _ _ _ Hrem) as [Htji1 _].
  set (st1' := set_rng_ st1 (sample_discrete p_t (rng_ st1)).2) in *.
  assert (well_formed st1') as Hwf1' by by apply set_rng_well_formed.
  assert (seating None st1') as Hseat1' by by apply set_rng_seating.
  assert (0 < t ∧ (∃ row, using_t st2 !! j = Some row ∧ t ∈ row) ∧
          t_ji st2 = t_ji st ∧ bears_dish st2 None j t) as (Htpos & (row & Hrow & Hin) & Htji2 & Hb).
  { case_decide as Hnew.
    - destruct (new_table_active _ _ _ _ _ Hwf1' Hseat1' Hts) as (? & ? & Htj).
      destruct (new_table_invariant _ _ _ _ _ Hwf1' Hseat1' Hts) as (_ & _ & ?).
      repeat split; try done. by rewrite Htj.
    - injection Hts as <- <-. apply rd2_Ok in Ht as (row & Hrow & Ht).
      apply list_elem_of_lookup_2 in Ht.
      split; [lia|]. split; [by exists row|]. split; [done|].
      by apply (seat_active None st1' Hseat1' j row t_new). }
  destruct (add_table_tables _ _ _ _ _ Hop) as (Hkj & Hu & (k & Hk) & trow & Htrow & Hi & Htji).
  split.
  - exists t, row, k. split; [|split; [done|split; [by rewrite Hu|split; [done|split]]]].
    + rewrite Htji. apply rd2_Ok. exists (<[i := t]> trow). split.
      * apply list_lookup_insert_eq. by eapply lookup_lt_Some.
      * by apply list_lookup_insert_eq.
    + by rewrite Hkj.
    + by apply Hb.
  - exists t, trow. rewrite Htji2 in Htrow, Htji. done.
Qed.

Lemma sampling_t_keeps_assigned st j i st' j' i' :
  well_formed st → seating None st → sampling_t st j i = Ok st' →
  assigned st j' i' → assigned st' j' i'.
Proof.
  intros Hwf Hseat Hop (t' & Ht' & Hpos).
  destruct (sampling_t_seats _ _ _ _ Hwf Hseat Hop) as (_ & t & trow & Htpos & Htrow & Hi & Heq).
  unfold assigned. rewrite Heq.
  destruct (rd2_insert2_keeps _ j i t trow _ _ _ Htrow Ht') as (z & Hz & [->| ->]);
    by eexists.
Qed.

Lemma sampling_k_t_ji st j t st' : sampling_k st j t = Ok st' → t_ji st' = t_ji st.
Proof.
  unfold sampling_k. intros Hop.
  inv_bind Hop as st1 Hleave. inv_bind Hop as p_k Hp. inv_bind Hop as ? Hval.
  inv_bind Hop as ? Ha. inv_bind Hop as k_new Hk. inv_bind Hop as [k st2] Hks.
  apply seat_at_dish_tables in Hop as (_ & -> & _). simpl.
  apply leave_from_dish_tables in Hleave as (_ & <- & _).
  case_decide.
  - by apply create_dish_frame in Hks as (_ & _ & _ & _ & _ & -> & _).
  - by simplify_eq.
Qed.

(** X11. When [sampling_t] succeeds from a reachable state, the word it
    resampled sits at a real table that is active in its document and
    bears a dish other than the sentinel. *)
Theorem sampling_t_seats_word st j i st' :
  reachable st → sampling_t st j i = Ok st' → seated st' j i.
Proof.
  intros Hreach Hop. destruct (reachable_invariant _ Hreach) as [Hwf Hseat].
  by destruct (sampling_t_seats _ _ _ _ Hwf Hseat Hop).
Qed.

(** X12. After a sweep that succeeds from a reachable state no word is
    left unassigned: every word of every document refers to a real table,
    and that table bears a dish other than the sentinel. *)
Theorem sweep_assigns_every_word st st' j i (row : list nat) :
  reachable st → _inference st = Ok st' →
  x_ji st !! j = Some row → i < length row →
  ∃ t k, rd2 (t_ji st') j i = Ok t ∧ 0 < t ∧ rd2 (k_jt st') j t = Ok k ∧ 0 < k.
Proof.
  intros Hreach Hsweep Hrow Hi.
  pose proof (inference_reachable _ _ Hreach Hsweep) as Hreach'.
  unfold _inference in Hsweep. inv_bind Hsweep as st1 Hword.
  pose proof (word_phase_reachable _ _ Hreach Hword) as Hreach1.
  assert (assigned st1 j i) as Hassigned.
  { rewrite word_phase_order in Hword.
    apply (foldR_visits (λ s, well_formed s ∧ seating None s)
             (λ ji s, assigned s ji.1 ji.2)) in Hword as (_ & _ & Hall).
    - apply (Hall (j, i)). apply elem_of_word_order. eauto.
    - intros s [j' i'] s' [Hwf Hseat] Hstep. simpl in *.
      split; [by eapply sampling_t_invariant|]. split.
      + destruct (sampling_t_seats _ _ _ _ Hwf Hseat Hstep) as ((t & ? & ? & ? & ? & _) & _).
        by exists t.
      + intros [j'' i'']. simpl. by eapply sampling_t_keeps_assigned.
    - by apply reachable_invariant. }
  assert (t_ji st' = t_ji st1) as Htji.
  { destruct (reachable_invariant _ Hreach1) as [Hwf1 _].
    revert Hsweep. rewrite table_phase_order
      by by apply well_formed_docs, reachable_bounded.
    apply (foldR_invariant (λ s, t_ji s = t_ji st1)); [|done].
    intros s jt s' Hs Hstep. by rewrite (sampling_k_t_ji _ _ _ _ Hstep). }
  destruct Hassigned as (t & Ht & Htpos). rewrite <-Htji in Ht.
  destruct (reachable_invariant _ Hreach') as [Hwf' Hseat'].
  pose proof Ht as Ht'. apply rd2_Ok in Ht' as (trow & Htrow & Hti).
  destruct (lookup_lt_is_Some_2 (k_jt st') j) as [krow Hkrow].
  { rewrite <-(wf_t_ji _ Hwf'). by eapply lookup_lt_Some. }
  pose proof (seat_range _ _ Hseat' _ _ _ Htrow Hkrow) as Hrange.
  rewrite Forall_forall in Hrange.
  destruct (lookup_lt_is_Some_2 krow t) as [k Hk].
  { apply Hrange. by eapply list_elem_of_lookup_2. }
  assert (rd2 (k_jt st') j t = Ok k) as Hk' by (apply rd2_Ok; eauto).
  exists t, k. repeat split; try done.
  eapply (seat_words _ _ Hseat' j trow t); try done. by eapply list_elem_of_lookup_2.
Qed.

End SeatProofs.

(** * The word distribution *)

Lemma sorted_ids_real (ids : list nat) :
  sorted_ids ids → filter (λ k, k ≠ 0) ids = tail ids ∧ Forall (λ k, 0 < k) (tail ids).
Proof.
  intros [Hhead Hsorted]. destruct ids as [|x ids]; [done|]. injection Hhead as ->.
  apply StronglySorted_inv in Hsorted as [_ Hpos]. simpl.
  rewrite filter_cons_False by (intros Hne; by apply Hne). split; [|done].
  clear -Hpos. induction Hpos as [|x ids Hx _ IH]; [done|].
  rewrite filter_cons_True by lia. by rewrite IH.
Qed.

Section WordDist.
Context {F R : Type} `{Build} `{FloatOps F} `{SpecialFns F} `{Sampler F R}.
Implicit Types (st : state F R) (j i t k : nat).

Lemma insert_fold {A} (val : nat → A) (row : gmap nat A) (o n : nat) :
  ∃ row', foldR (λ row v, Ok (<[v := val v]> row)) row (seq o n) = Ok row' ∧
          ∀ v, row' !! v = if decide (o ≤ v < o + n) then Some (val v) else row !! v.
Proof.
  revert row o. induction n as [|n IH]; intros row o; simpl.
  - exists row. split; [done|]. intros v. rewrite decide_False by lia. done.
  - rewrite ?bind_ret. destruct (IH (<[o := val o]> row) (S o)) as (row' & -> & Hrow').
    exists row'. split; [done|]. intros v. rewrite Hrow'.
    destruct (decide (v = o)) as [->|Hne].
    + rewrite decide_False by lia. rewrite decide_True by lia. by rewrite lookup_insert_eq.
    + rewrite lookup_insert_ne by done. repeat case_decide; try done; lia.
Qed.

(** The map [wordDist] builds for a dish whose counter is in range. *)
Lemma word_dist_fold st k (d : defaultdict F) :
  n_kv_ st !! k = Some d →
  ∃ row, word_dist_row st k = Ok row ∧
         ∀ v, row !! v =
              if decide (v < N.to_nat (V st))
              then Some (if dd_contains d v
                         then f_div (dd_get d v) (dd_get (n_k st) k)
                         else f_div (beta_ st) (dd_get (n_k st) k))
              else None.
Proof.
  intros Hd. apply rd_Ok in Hd. unfold word_dist_row.
  destruct (insert_fold (λ v, if dd_contains d v
                              then f_div (dd_get d v) (dd_get (n_k st) k)
                              else f_div (beta_ st) (dd_get (n_k st) k))
              ∅ 0 (N.to_nat (V st))) as (row & Hrow & Hentries).
  exists row. split.
  - rewrite <-Hrow. apply foldR_ext. intros row' v. by rewrite Hd, bind_ret.
  - intros v. rewrite Hentries. repeat case_decide; try done; lia.
Qed.

(** X13. In every state the sampler reaches, [wordDist] reads no vector out
    of its bounds and returns one map per real active dish, in the order of
    [dishes_]; the map of the dish [k] has exactly the word ids below [V]
    as its keys, and its entry for the word [v] is
    [n_kv_[k].get(v) / n_k.get(k)], whichever of the two branches computes
    it, since every counter of [n_kv_] has [beta_] as its default value. *)
Theorem wordDist_spec st :
  reachable st →
  ∃ vec, wordDist st = Ok vec ∧ length vec + 1 = length (dishes_ st) ∧
         ∀ n k, dishes_ st !! S n = Some k →
                ∃ d row, n_kv_ st !! k = Some d ∧ vec !! n = Some row ∧
                         ∀ v, row !! v =
                              if decide (v < N.to_nat (V st))
                              then Some (f_div (dd_get d v) (dd_get (n_k st) k))
                              else None.
Proof.
  intros Hreach. destruct (reachable_invariant _ Hreach) as [Hwf _].
  pose proof (reachable_bounded _ Hreach) as Hb.
  destruct (sorted_ids_real _ (wf_dishes _ Hwf)) as [Hreal Hpos].
  assert (∀ k, k ∈ dishes_ st → ∃ d, n_kv_ st !! k = Some d ∧ default_value d = beta_ st)
    as Hdish.
  { intros k Hk. pose proof (wf_dishes_range _ Hwf) as Hrange.
    rewrite Forall_forall in Hrange. specialize (Hrange _ Hk).
    rewrite <-(wf_n_kv _ Hwf) in Hrange.
    destruct (lookup_lt_is_Some_2 _ _ Hrange) as [d Hd]. exists d. split; [done|].
    pose proof (bd_defaults _ Hb) as Hdef. rewrite Forall_forall in Hdef.
    apply Hdef. by eapply list_elem_of_lookup_2. }
  assert (∀ k, k ∈ tail (dishes_ st) → k ∈ dishes_ st) as Htail.
  { intros k Hk. destruct (dishes_ st); [done|]. by right. }
  destruct (mapR_total (word_dist_row st) (tail (dishes_ st))) as [vec Hvec].
  { apply Forall_forall. intros k Hk. destruct (Hdish k (Htail _ Hk)) as (d & Hd & _).
    destruct (word_dist_fold st k d Hd) as (row & Hrow & _).
    by exists row. }
  exists vec. unfold wordDist. rewrite Hreal. split; [done|].
  apply mapR_Ok in Hvec. split.
  - rewrite <-(Forall2_length _ _ _ Hvec). destruct (wf_dishes _ Hwf) as [Hhead _].
    destruct (dishes_ st); [done|simpl; lia].
  - intros n k Hk.
    assert (tail (dishes_ st) !! n = Some k) as Hk' by (by destruct (dishes_ st)).
    destruct (Forall2_lookup_l _ _ _ _ _ Hvec Hk') as (row & Hrow & Hrow').
    destruct (Hdish k) as (d & Hd & Hdef); [by eapply Htail, list_elem_of_lookup_2|].
    exists d, row. split; [done|]. split; [done|]. intros v.
    destruct (word_dist_fold st k d Hd) as (row' & Hfold & Hentries).
    rewrite Hfold in Hrow'. injection Hrow' as <-.
    rewrite Hentries. case_decide; [|done].
    f_equal. destruct (dd_contains d v) eqn:Hc; [done|].
    unfold dd_contains in Hc. apply bool_decide_eq_false in Hc.
    unfold dd_get. destruct (dd_map d !! v); [by destruct Hc|]. by rewrite Hdef.
Qed.

End WordDist.

(** * No access out of bounds *)

Lemma in_bounds_Ok {A} (a : A) : in_bounds (Ok a).
Proof. by intros e. Qed.

Lemma in_bounds_bind {A B} (r : result A) (f : A → result B) :
  in_bounds r → (∀ a, r = Ok a → in_bounds (f a)) → in_bounds (r ≫= f).
Proof.
  intros Hr Hf. destruct r as [a|e]; simpl; [by apply Hf|]. intros e' [= <-]. by apply Hr.
Qed.

Lemma in_bounds_assert `{Build} (c : bool) : in_bounds (assert c).
Proof. unfold assert. intros e. destruct NDEBUG, c; intros [= <-]; by left. Qed.

Lemma in_bounds_rd {A} (l : list A) (i : nat) : i < length l → in_bounds (rd l i).
Proof. intros Hi. destruct (rd_is_Ok l i Hi) as [a ->]. apply in_bounds_Ok. Qed.

Lemma in_bounds_wr {A} (l : list A) (i : nat) (a : A) :
  i < length l → in_bounds (wr l i a).
Proof. intros Hi. rewrite wr_lt by done. apply in_bounds_Ok. Qed.

Lemma in_bounds_rd2 {A} (l : list (list A)) (j i : nat) (row : list A) :
  l !! j = Some row → i < length row → in_bounds (rd2 l j i).
Proof.
  intros Hrow Hi. destruct (lookup_lt_is_Some_2 row i Hi) as [a Ha].
  assert (rd2 l j i = Ok a) as -> by (apply rd2_Ok; eauto). apply in_bounds_Ok.
Qed.

Lemma in_bounds_wr2 {A} (l : list (list A)) (j i : nat) (a : A) (row : list A) :
  l !! j = Some row → i < length row → in_bounds (wr2 l j i a).
Proof.
  intros Hrow Hi. destruct (lookup_lt_is_Some_2 row i Hi) as [b Hb].
  assert (rd2 l j i = Ok b) as Hrd by (apply rd2_Ok; eauto).
  destruct (wr2_rd2 _ _ _ _ a Hrd) as [l' ->]. apply in_bounds_Ok.
Qed.

Lemma in_bounds_mapR {A B} (f : A → result B) (l : list A) :
  Forall (λ a, in_bounds (f a)) l → in_bounds (mapR f l).
Proof.
  induction 1 as [|a l Ha _ IH]; simpl; [apply in_bounds_Ok|].
  apply in_bounds_bind; [done|]. intros b _.
  apply in_bounds_bind; [done|]. intros bs _. apply in_bounds_Ok.
Qed.

Lemma in_bounds_foldR {A S} (P : S → Prop) (f : S → A → result S) (s : S) (l : list A) :
  P s →
  (∀ s a, a ∈ l → P s → in_bounds (f s a) ∧ ∀ s', f s a = Ok s' → P s') →
  in_bounds (foldR f s l).
Proof.
  revert s. induction l as [|a l IH]; intros s Hs Hstep; simpl; [apply in_bounds_Ok|].
  destruct (Hstep s a) as [Hin Hnext]; [by left|done|].
  apply in_bounds_bind; [done|]. intros s' Hs'. apply IH; [by apply Hnext|].
  intros s1 b Hb. apply Hstep. by right.
Qed.

Lemma mapR_length {A B} (f : A → result B) (l : list A) (l' : list B) :
  mapR f l = Ok l' → length l' = length l.
Proof. intros Hm. apply mapR_Ok in Hm. symmetry. by eapply Forall2_length. Qed.

Section Bounds.
Context {F R : Type} `{Build} `{FloatOps F} `{SpecialFns F} `{Sampler F R}.
Implicit Types (st : state F R) (j i t k : nat).

Lemma in_bounds_validate (p : list F) : in_bounds (validate_probability_vector p).
Proof.
  unfold validate_probability_vector. intros e.
  destruct (valid_probability_vector p); intros [= <-]. by right.
Qed.

(** The rows of the document [j] in a well-formed state. *)
Lemma doc_rows st j :
  well_formed st → j < length (k_jt st) →
  ∃ row krow nrow vrow,
    using_t st !! j = Some row ∧ k_jt st !! j = Some krow ∧
    n_jt st !! j = Some nrow ∧ n_jtv st !! j = Some vrow ∧
    length nrow = length krow ∧ length vrow = length krow ∧
    sorted_ids row ∧ Forall (λ t, t < length krow) row.
Proof.
  intros Hwf Hj. destruct (lookup_lt_is_Some_2 _ _ Hj) as [krow Hkrow].
  assert ((length <$> k_jt st) !! j = Some (length krow)) as Hshape
    by by rewrite list_lookup_fmap, Hkrow.
  destruct (Forall2_lookup_r _ _ _ _ _ (wf_tables _ Hwf) Hshape) as (row & Hrow & Hs & Hr).
  pose proof Hshape as Hn. rewrite <-(wf_n_jt _ Hwf) in Hn.
  apply shape_lookup in Hn as (nrow & Hnrow & Hnlen).
  pose proof Hshape as Hv. rewrite <-(wf_n_jtv _ Hwf) in Hv.
  apply shape_lookup in Hv as (vrow & Hvrow & Hvlen).
  by exists row, krow, nrow, vrow.
Qed.

Lemma well_formed_counts st :
  well_formed st → 0 < length (m_k st) ∧ 0 < length (dishes_ st).
Proof.
  intros Hwf. destruct (wf_dishes _ Hwf) as [Hhead _].
  pose proof (wf_dishes_range _ Hwf) as Hrange.
  destruct (dishes_ st) as [|k ks]; [done|]. apply Forall_cons in Hrange as [? _].
  simpl. lia.
Qed.

Lemma dish_in_range st j t (krow : list nat) k :
  bounded st → k_jt st !! j = Some krow → krow !! t = Some k → k < length (m_k st).
Proof.
  intros Hb Hkrow Hk. pose proof (bd_dishes _ Hb) as Hd.
  rewrite Forall_forall in Hd. apply list_elem_of_lookup_2 in Hkrow.
  specialize (Hd _ Hkrow). rewrite Forall_forall in Hd. apply Hd.
  by eapply list_elem_of_lookup_2.
Qed.

Lemma word_in_range st j i (row : list nat) :
  bounded st → x_ji st !! j = Some row → i < length row →
  ∃ trow t v, t_ji st !! j = Some trow ∧ trow !! i = Some t ∧ row !! i = Some v.
Proof.
  intros Hb Hrow Hi.
  assert ((length <$> x_ji st) !! j = Some (length row)) as Hshape
    by by rewrite list_lookup_fmap, Hrow.
  rewrite <-(bd_words _ Hb) in Hshape. apply shape_lookup in Hshape as (trow & Htrow & Hlen).
  destruct (lookup_lt_is_Some_2 trow i ltac:(lia)) as [t Ht].
  destruct (lookup_lt_is_Some_2 row i Hi) as [v Hv]. by exists trow, t, v.
Qed.

Lemma delete_table_in_bounds st j t :
  well_formed st → bounded st → j < length (k_jt st) →
  (∀ krow, k_jt st !! j = Some krow → t < length krow) →
  in_bounds (delete_table st j t).
Proof.
  intros Hwf Hb Hj Ht.
  destruct (doc_rows _ _ Hwf Hj) as (row & krow & nrow & vrow & Hrow & Hkrow & _).
  specialize (Ht _ Hkrow). destruct (lookup_lt_is_Some_2 krow t Ht) as [k Hk].
  pose proof (dish_in_range _ _ _ _ _ Hb Hkrow Hk) as Hklt.
  unfold delete_table.
  assert (rd2 (k_jt st) j t = Ok k) as -> by (apply rd2_Ok; eauto). rewrite bind_ret.
  apply rd_Ok in Hrow as Hrow'. rewrite Hrow', bind_ret.
  rewrite wr_lt, bind_ret by by eapply lookup_lt_Some.
  destruct (rd_is_Ok (m_k st) k Hklt) as [mk ->]. rewrite bind_ret.
  rewrite wr_lt, bind_ret by done.
  apply in_bounds_bind; [apply in_bounds_assert|]. intros _ _.
  case_decide; apply in_bounds_Ok.
Qed.

Lemma remove_table_in_bounds st j i (row : list nat) :
  well_formed st → seating None st → bounded st →
  x_ji st !! j = Some row → i < length row →
  in_bounds (remove_table st j i).
Proof.
  intros Hwf Hseat Hb Hrow Hi.
  destruct (word_in_range _ _ _ _ Hb Hrow Hi) as (trow & t & v & Htrow & Ht & Hv).
  assert (j < length (k_jt st)) as Hj.
  { rewrite <-(wf_t_ji _ Hwf). by eapply lookup_lt_Some. }
  destruct (doc_rows _ _ Hwf Hj)
    as (urow & krow & nrow & vrow & Hurow & Hkrow & Hnrow & Hvrow & Hnlen & Hvlen & _).
  pose proof (seat_range _ _ Hseat _ _ _ Htrow Hkrow) as Hrange.
  rewrite Forall_forall in Hrange.
  pose proof (Hrange t ltac:(by eapply list_elem_of_lookup_2)) as Htlt.
  destruct (lookup_lt_is_Some_2 krow t Htlt) as [k Hk].
  pose proof (dish_in_range _ _ _ _ _ Hb Hkrow Hk) as Hklt.
  unfold remove_table.
  assert (rd2 (t_ji st) j i = Ok t) as -> by (apply rd2_Ok; eauto). rewrite bind_ret.
  case_decide; [|apply in_bounds_Ok].
  assert (rd2 (k_jt st) j t = Ok k) as -> by (apply rd2_Ok; eauto). rewrite bind_ret.
  apply in_bounds_bind; [apply in_bounds_assert|]. intros _ _.
  assert (rd2 (x_ji st) j i = Ok v) as -> by (apply rd2_Ok; eauto). rewrite bind_ret.
  rewrite <-(wf_n_kv _ Hwf) in Hklt.
  destruct (rd_is_Ok (n_kv_ st) k Hklt) as [d Hd]. rewrite Hd, bind_ret.
  rewrite wr_lt, bind_ret by done.
  destruct (lookup_lt_is_Some_2 nrow t ltac:(lia)) as [c Hc].
  assert (rd2 (n_jt st) j t = Ok c) as Hc' by (apply rd2_Ok; eauto).
  rewrite Hc', bind_ret.
  destruct (wr2_rd2 _ _ _ _ (sz_dec c) Hc') as [n_jt' Hw2]. rewrite Hw2, bind_ret.
  destruct (lookup_lt_is_Some_2 vrow t ltac:(lia)) as [mp Hmp].
  assert (rd2 (n_jtv st) j t = Ok mp) as Hmp' by (apply rd2_Ok; eauto).
  rewrite Hmp', bind_ret.
  destruct (wr2_rd2 _ _ _ _ (<[v := sz_dec (map_at mp v)]> mp) Hmp') as [n_jtv' Hw3].
  rewrite Hw3, bind_ret.
  case_decide; [|apply in_bounds_Ok].
  apply delete_table_in_bounds.
  - destruct Hwf as [? ? ? ? ? ? ?]. split; simpl; rewrite ?length_insert; try done.
    + by rewrite (wr2_shape _ _ _ _ _ Hw2).
    + by rewrite (wr2_shape _ _ _ _ _ Hw3).
  - destruct Hb as [Hbw Hbd Hbdef]. split; simpl; [done|done|].
    apply Forall_insert; [done|]. rewrite default_value_decr.
    rewrite Forall_forall in Hbdef. apply Hbdef.
    apply rd_Ok in Hd. by eapply list_elem_of_lookup_2.
  - done.
  - simpl. intros krow' Hkrow'. congruence.
Qed.

Lemma calc_f_k_length st v (f_k : list F) :
  calc_f_k st v = Ok f_k → length f_k = length (n_kv_ st).
Proof.
  unfold calc_f_k. case_decide; [done|]. intros [= <-]. by rewrite length_imap.
Qed.

Lemma calc_f_k_in_bounds st v : well_formed st → in_bounds (calc_f_k st v).
Proof.
  intros Hwf. unfold calc_f_k. destruct (well_formed_counts _ Hwf) as [Hm _].
  rewrite <-(wf_n_kv _ Hwf) in Hm. case_decide as Hnil; [|apply in_bounds_Ok].
  rewrite Hnil in Hm. simpl in Hm. lia.
Qed.

Lemma table_weight_in_bounds st j (f_k : list F) (krow : list nat) (nrow : list N) p :
  bounded st → k_jt st !! j = Some krow → n_jt st !! j = Some nrow →
  length nrow = length krow → length f_k = length (m_k st) → p < length krow →
  in_bounds (table_weight st j f_k p).
Proof.
  intros Hb Hkrow Hnrow Hnlen Hflen Hp. unfold table_weight.
  destruct (lookup_lt_is_Some_2 nrow p ltac:(lia)) as [c Hc].
  assert (rd2 (n_jt st) j p = Ok c) as -> by (apply rd2_Ok; eauto). rewrite bind_ret.
  destruct (lookup_lt_is_Some_2 krow p Hp) as [k Hk].
  assert (rd2 (k_jt st) j p = Ok k) as -> by (apply rd2_Ok; eauto). rewrite bind_ret.
  pose proof (dish_in_range _ _ _ _ _ Hb Hkrow Hk) as Hklt.
  apply in_bounds_bind; [apply in_bounds_rd; lia|]. intros fk _. apply in_bounds_Ok.
Qed.

Lemma calc_table_posterior_in_bounds st j (f_k : list F) :
  well_formed st → bounded st → j < length (k_jt st) →
  length f_k = length (m_k st) →
  in_bounds (calc_table_posterior st j f_k) ∧
  ∀ p_t row, calc_table_posterior st j f_k = Ok p_t → using_t st !! j = Some row →
             length p_t = length row.
Proof.
  intros Hwf Hb Hj Hflen.
  destruct (doc_rows _ _ Hwf Hj)
    as (row & krow & nrow & vrow & Hrow & Hkrow & Hnrow & Hvrow & Hnlen & Hvlen & Hs & Hr).
  unfold calc_table_posterior. apply rd_Ok in Hrow as Hrow'. rewrite Hrow', bind_ret.
  split.
  - apply in_bounds_bind.
    { apply in_bounds_mapR. eapply Forall_impl; [exact Hr|]. simpl. intros p Hp.
      by eapply table_weight_in_bounds. }
    intros p_t Hp_t. apply mapR_length in Hp_t.
    unfold eigen_dot. rewrite decide_True by by rewrite length_fmap.
    rewrite bind_ret. apply in_bounds_bind; [|intros; apply in_bounds_Ok].
    apply in_bounds_wr. rewrite Hp_t. destruct Hs as [Hhead _].
    destruct row; [done|simpl; lia].
  - intros p_t row0 Hop Hrow0. simplify_eq.
    inv_bind Hop as w Hw. inv_bind Hop as dot Hdot. inv_bind Hop as w' Hw'.
    simplify_eq. apply mapR_length in Hw. apply wr_Ok in Hw' as [_ ->].
    unfold normalize. by rewrite length_fmap, length_insert.
Qed.

Lemma calc_dish_posterior_w_in_bounds st (f_k : list F) :
  well_formed st → length f_k = length (m_k st) →
  in_bounds (calc_dish_posterior_w st f_k) ∧
  ∀ p_k, calc_dish_posterior_w st f_k = Ok p_k → length p_k = length (dishes_ st).
Proof.
  intros Hwf Hflen. unfold calc_dish_posterior_w. split.
  - apply in_bounds_bind.
    { apply in_bounds_mapR. eapply Forall_impl; [exact (wf_dishes_range _ Hwf)|].
      simpl. intros k Hk.
      apply in_bounds_bind; [by apply in_bounds_rd|]. intros mk _.
      apply in_bounds_bind; [apply in_bounds_rd; lia|]. intros fk _. apply in_bounds_Ok. }
    intros p_k Hp_k. apply mapR_length in Hp_k.
    apply in_bounds_bind; [|intros; apply in_bounds_Ok].
    apply in_bounds_wr. rewrite Hp_k. by apply well_formed_counts.
  - intros p_k Hop. inv_bind Hop as w Hw. inv_bind Hop as w' Hw'. simplify_eq.
    apply mapR_length in Hw. apply wr_Ok in Hw' as [_ ->].
    unfold normalize. by rewrite length_fmap, length_insert.
Qed.

Lemma drawn_dish_in_bounds st (k : nat) :
  well_formed st → in_bounds (if decide (k = 0) then create_dish st else Ok (k, st)).
Proof.
  intros Hwf. case_decide; [|apply in_bounds_Ok].
  destruct (create_dish_spec _ Hwf) as (st' & -> & _). apply in_bounds_Ok.
Qed.

Lemma drawn_dish_range st (k : nat) (ks : nat * state F R) :
  well_formed st → k ∈ dishes_ st →
  (if decide (k = 0) then create_dish st else Ok (k, st)) = Ok ks →
  ks.1 < length (m_k ks.2).
Proof.
  intros Hwf Hk Hks. case_decide.
  - destruct (create_dish_spec _ Hwf) as (st' & Hcd & _ & _ & Hlt & _).
    rewrite Hcd in Hks. by simplify_eq.
  - simplify_eq. simpl. pose proof (wf_dishes_range _ Hwf) as Hr.
    rewrite Forall_forall in Hr. by apply Hr.
Qed.

Lemma drawn_dish_frame st (k : nat) (ks : nat * state F R) :
  (if decide (k = 0) then create_dish st else Ok (k, st)) = Ok ks →
  x_ji ks.2 = x_ji st ∧ using_t ks.2 = using_t st ∧ k_jt ks.2 = k_jt st ∧
  n_jt ks.2 = n_jt st ∧ n_jtv ks.2 = n_jtv st ∧ t_ji ks.2 = t_ji st.
Proof.
  intros Hks. destruct ks as [k' st']. case_decide.
  - apply create_dish_frame in Hks as (? & ? & ? & ? & ? & ? & _). done.
  - by simplify_eq.
Qed.

Lemma new_table_in_bounds st j (f_k : list F) :
  sampler_in_range →
  well_formed st → seating None st → j < length (k_jt st) →
  length f_k = length (m_k st) →
  in_bounds (new_table st j f_k).
Proof.
  intros Hsampler Hwf Hseat Hj Hflen. unfold new_table.
  destruct (calc_dish_posterior_w_in_bounds st f_k Hwf Hflen) as [Hin Hlen].
  apply in_bounds_bind; [done|]. intros p_k Hp_k. specialize (Hlen _ Hp_k).
  apply in_bounds_bind; [apply in_bounds_validate|]. intros _ _.
  set (draw := sample_discrete p_k (rng_ st)).
  assert (draw.1 < length (dishes_ st)) as Hdraw.
  { rewrite <-Hlen. apply Hsampler. intros ->.
    destruct (well_formed_counts _ Hwf) as [_ Hd]. simpl in Hlen. lia. }
  destruct (lookup_lt_is_Some_2 _ _ Hdraw) as [k_new Hk].
  assert (rd (dishes_ (set_rng_ st draw.2)) draw.1 = Ok k_new) as -> by by apply rd_Ok.
  rewrite bind_ret.
  assert (well_formed (set_rng_ st draw.2)) as Hwf' by by apply set_rng_well_formed.
  apply in_bounds_bind; [by apply drawn_dish_in_bounds|]. intros ks Hks.
  pose proof (drawn_dish_range _ _ _ Hwf' ltac:(by eapply list_elem_of_lookup_2) Hks) as Hklt.
  destruct (drawn_dish_frame _ _ _ Hks) as (_ & _ & Hkj & _).
  apply (drawn_dish _ None) in Hks as (Hwf2 & Hseat2 & Hpos); [|done|by apply set_rng_seating].
  assert (j < length (using_t ks.2)) as Hj2.
  { pose proof (Forall2_length _ _ _ (wf_tables _ Hwf2)) as Hu.
    rewrite length_fmap in Hu. by rewrite Hu, Hkj. }
  destruct (lookup_lt_is_Some_2 _ _ Hj2) as [row Hrow].
  destruct (create_table_spec _ j ks.1 row Hwf2 Hrow Hpos Hklt) as (st' & -> & _).
  apply in_bounds_Ok.
Qed.

Lemma add_table_in_bounds st j t i (row urow : list nat) :
  well_formed st → bounded st →
  x_ji st !! j = Some row → i < length row →
  using_t st !! j = Some urow → t ∈ urow →
  in_bounds (add_table st j t i).
Proof.
  intros Hwf Hb Hrow Hi Hurow Ht.
  destruct (word_in_range _ _ _ _ Hb Hrow Hi) as (trow & t0 & v & Htrow & Ht0 & Hv).
  assert (j < length (k_jt st)) as Hj.
  { rewrite <-(wf_t_ji _ Hwf). by eapply lookup_lt_Some. }
  destruct (doc_rows _ _ Hwf Hj) as (urow' & krow & _ & _ & Hurow' & Hkrow & _ & _ & _ & _ & _ & Hr).
  simplify_eq. rewrite Forall_forall in Hr. specialize (Hr _ Ht).
  destruct (lookup_lt_is_Some_2 krow t Hr) as [k Hk].
  pose proof (dish_in_range _ _ _ _ _ Hb Hkrow Hk) as Hklt.
  destruct (add_table_spec st j t i k t0 v urow Hwf Hurow Ht) as (st' & -> & _);
    [by apply rd2_Ok; eauto|by rewrite (wf_n_kv _ Hwf)|by apply rd2_Ok; eauto
    |by apply rd2_Ok; eauto|].
  apply in_bounds_Ok.
Qed.

Lemma sampling_t_safe st j i (row : list nat) :
  sampler_in_range → reachable st →
  x_ji st !! j = Some row → i < length row →
  in_bounds (sampling_t st j i).
Proof.
  intros Hsampler Hreach Hrow Hi.
  destruct (reachable_invariant _ Hreach) as [Hwf Hseat].
  pose proof (reachable_bounded _ Hreach) as Hb.
  unfold sampling_t.
  apply in_bounds_bind; [by eapply remove_table_in_bounds|]. intros st1 Hrem.
  pose proof (remove_table_well_formed _ _ _ _ Hwf Hseat Hrem) as Hwf1.
  pose proof (remove_table_seating _ _ _ _ _ Hseat Hrem) as Hseat1.
  destruct (remove_table_bounded _ _ _ _ Hb Hrem) as [Hb1 (Hx1 & _)].
  rewrite <-Hx1 in Hrow.
  destruct (word_in_range _ _ _ _ Hb1 Hrow Hi) as (trow & t0 & v & Htrow & Ht0 & Hv).
  assert (j < length (k_jt st1)) as Hj.
  { rewrite <-(wf_t_ji _ Hwf1). by eapply lookup_lt_Some. }
  assert (rd2 (x_ji st1) j i = Ok v) as -> by (apply rd2_Ok; eauto). rewrite bind_ret.
  apply in_bounds_bind; [by apply calc_f_k_in_bounds|]. intros f_k Hfk.
  apply calc_f_k_length in Hfk. rewrite (wf_n_kv _ Hwf1) in Hfk.
  destruct (well_formed_counts _ Hwf1) as [Hm Hd].
  apply in_bounds_bind; [apply in_bounds_rd; lia|]. intros f0 _.
  apply in_bounds_bind; [apply in_bounds_assert|]. intros _ _.
  destruct (calc_table_posterior_in_bounds st1 j f_k Hwf1 Hb1 Hj Hfk) as [Hin Hlen].
  apply in_bounds_bind; [done|]. intros p_t Hp_t.
  apply in_bounds_bind; [apply in_bounds_validate|]. intros _ _.
  destruct (doc_rows _ _ Hwf1 Hj) as (urow & krow & _ & _ & Hurow & Hkrow & _ & _ & _ & _ & Hs & Hr).
  specialize (Hlen _ _ Hp_t Hurow).
  set (draw := sample_discrete p_t (rng_ st1)).
  assert (draw.1 < length urow) as Hdraw.
  { rewrite <-Hlen. apply Hsampler. intros ->. destruct Hs as [Hhead _].
    destruct urow; [done|]. simpl in Hlen. lia. }
  destruct (lookup_lt_is_Some_2 _ _ Hdraw) as [t_new Ht].
  assert (rd2 (using_t (set_rng_ st1 draw.2)) j draw.1 = Ok t_new) as ->
    by (apply rd2_Ok; eauto).
  rewrite bind_ret.
  assert (well_formed (set_rng_ st1 draw.2)) as Hwf1' by by apply set_rng_well_formed.
  assert (seating None (set_rng_ st1 draw.2)) as Hseat1' by by apply set_rng_seating.
  assert (bounded (set_rng_ st1 draw.2)) as Hb1' by by apply set_rng_bounded.
  apply in_bounds_bind.
  { case_decide; [|apply in_bounds_Ok]. by apply new_table_in_bounds. }
  intros [t st2] Hts. simpl.
  assert (well_formed st2 ∧ bounded st2 ∧ x_ji st2 = x_ji st1 ∧
          ∃ urow', using_t st2 !! j = Some urow' ∧ t ∈ urow') as (Hwf2 & Hb2 & Hx2 & urow' & Hurow' & Hin').
  { case_decide.
    - destruct (new_table_invariant _ _ _ _ _ Hwf1' Hseat1' Hts) as (? & _ & _).
      destruct (new_table_bounded _ _ _ _ _ Hb1' Hts) as [? (? & _)].
      destruct (new_table_active _ _ _ _ _ Hwf1' Hseat1' Hts) as (_ & ? & _).
      done.
    - injection Hts as <- <-. split; [done|]. split; [done|]. split; [done|].
      exists urow. split; [done|]. by eapply list_elem_of_lookup_2. }
  rewrite <-Hx2 in Hrow. by eapply add_table_in_bounds.
Qed.

Lemma leave_from_dish_in_bounds st j t (krow : list nat) :
  bounded st → k_jt st !! j = Some krow → t < length krow →
  in_bounds (leave_from_dish st j t).
Proof.
  intros Hb Hkrow Ht. destruct (lookup_lt_is_Some_2 krow t Ht) as [k Hk].
  pose proof (dish_in_range _ _ _ _ _ Hb Hkrow Hk) as Hklt.
  unfold leave_from_dish.
  assert (rd2 (k_jt st) j t = Ok k) as -> by (apply rd2_Ok; eauto). rewrite bind_ret.
  apply in_bounds_bind; [apply in_bounds_assert|]. intros _ _.
  destruct (rd_is_Ok (m_k st) k Hklt) as [mk ->]. rewrite bind_ret.
  apply in_bounds_bind; [apply in_bounds_assert|]. intros _ _.
  rewrite wr_lt, bind_ret by done.
  case_decide; [|apply in_bounds_Ok].
  apply in_bounds_bind; [|intros; apply in_bounds_Ok].
  by eapply in_bounds_wr2.
Qed.

Lemma log_p_dish_in_bounds st k_old (c : N) k :
  k < length (m_k st) → in_bounds (log_p_dish st k_old c k).
Proof.
  intros Hk. unfold log_p_dish. case_decide; [apply in_bounds_Ok|].
  apply in_bounds_bind; [apply in_bounds_assert|]. intros _ _.
  apply in_bounds_bind; [by apply in_bounds_rd|]. intros mk _.
  apply in_bounds_bind; [apply in_bounds_assert|]. intros _ _. apply in_bounds_Ok.
Qed.

Lemma word_term_in_bounds st k_cur (log_p_k : list F) (kv : nat * N) :
  well_formed st → length log_p_k = length (dishes_ st) →
  in_bounds (word_term st k_cur log_p_k kv) ∧
  ∀ l, word_term st k_cur log_p_k kv = Ok l → length l = length (dishes_ st).
Proof.
  intros Hwf Hlen. destruct (well_formed_counts _ Hwf) as [_ Hd].
  unfold word_term. case_decide; [split; [apply in_bounds_Ok|by intros l [= <-]]|].
  assert (in_bounds (mapR (n_kw_entry st k_cur kv.1 kv.2) (imap pair (dishes_ st)))) as Hmap.
  { apply in_bounds_mapR, Forall_forall. intros ik Hik.
    apply elem_of_lookup_imap in Hik as (n & k & -> & Hk). unfold n_kw_entry. simpl.
    apply in_bounds_bind; [|intros d _].
    - apply in_bounds_rd. rewrite (wf_n_kv _ Hwf).
      pose proof (wf_dishes_range _ Hwf) as Hr. rewrite Forall_forall in Hr.
      apply Hr. by eapply list_elem_of_lookup_2.
    - apply in_bounds_bind; [apply in_bounds_assert|]. intros _ _. apply in_bounds_Ok. }
  split.
  - apply in_bounds_bind; [apply in_bounds_assert|]. intros _ _.
    apply in_bounds_bind; [done|]. intros n_kw Hn_kw. apply mapR_length in Hn_kw.
    rewrite length_imap in Hn_kw.
    rewrite wr_lt, bind_ret by lia.
    destruct log_p_k as [|l0 ls]; [simpl in Hlen; lia|].
    destruct n_kw as [|n0 ns]; [simpl in Hn_kw; lia|]. apply in_bounds_Ok.
  - intros l Hop. inv_bind Hop as ? Ha. inv_bind Hop as n_kw Hn_kw.
    inv_bind Hop as n_kw' Hw. apply mapR_length in Hn_kw. rewrite length_imap in Hn_kw.
    apply wr_Ok in Hw as [_ ->].
    destruct log_p_k as [|l0 ls]; [done|].
    destruct n_kw as [|n0 ns]; [simpl in Hn_kw; lia|]. simpl in Hop.
    injection Hop as <-. simpl in *. rewrite length_zip_with. lia.
Qed.

Lemma calc_dish_posterior_t_in_bounds st j t (krow : list nat) :
  well_formed st → k_jt st !! j = Some krow → t < length krow →
  in_bounds (calc_dish_posterior_t st j t) ∧
  ∀ p_k, calc_dish_posterior_t st j t = Ok p_k → length p_k = length (dishes_ st).
Proof.
  intros Hwf Hkrow Ht.
  assert (j < length (k_jt st)) as Hj by by eapply lookup_lt_Some.
  destruct (doc_rows _ _ Hwf Hj)
    as (row & krow' & nrow & vrow & Hrow & Hkrow' & Hnrow & Hvrow & Hnlen & Hvlen & _).
  simplify_eq. destruct (well_formed_counts _ Hwf) as [_ Hd].
  destruct (lookup_lt_is_Some_2 krow t Ht) as [k_old Hk].
  destruct (lookup_lt_is_Some_2 nrow t ltac:(lia)) as [c Hc].
  destruct (lookup_lt_is_Some_2 vrow t ltac:(lia)) as [mp Hmp].
  unfold calc_dish_posterior_t.
  assert (rd2 (k_jt st) j t = Ok k_old) as -> by (apply rd2_Ok; eauto). rewrite bind_ret.
  assert (rd2 (n_jt st) j t = Ok c) as -> by (apply rd2_Ok; eauto). rewrite bind_ret.
  assert (rd2 (n_jtv st) j t = Ok mp) as Hmp' by (apply rd2_Ok; eauto).
  assert (in_bounds (mapR (log_p_dish st k_old c) (dishes_ st))) as Hmap.
  { apply in_bounds_mapR. eapply Forall_impl; [exact (wf_dishes_range _ Hwf)|].
    simpl. intros k Hklt. by apply log_p_dish_in_bounds. }
  split.
  - apply in_bounds_bind; [done|]. intros l1 Hl1. apply mapR_length in Hl1.
    rewrite wr_lt, bind_ret by lia. rewrite Hmp', bind_ret.
    apply in_bounds_bind.
    { apply (in_bounds_foldR (λ l, length l = length (dishes_ st))).
      - by rewrite length_insert.
      - intros l kv _ Hl. by apply word_term_in_bounds. }
    intros l2 Hl2.
    apply (foldR_invariant (λ l, length l = length (dishes_ st))) in Hl2;
      [| |by rewrite length_insert].
    2:{ intros l kv l' Hl Hstep. by eapply word_term_in_bounds. }
    apply in_bounds_bind.
    { apply in_bounds_mapR, Forall_forall. intros x _. apply in_bounds_assert. }
    intros _ _. destruct l2 as [|x l2]; [simpl in Hl2; lia|]. simpl. apply in_bounds_Ok.
  - intros p_k Hop. inv_bind Hop as l1 Hl1. apply mapR_length in Hl1.
    inv_bind Hop as l1' Hw. apply wr_Ok in Hw as [_ ->].
    inv_bind Hop as mp' Hmp''. inv_bind Hop as l2 Hl2.
    apply (foldR_invariant (λ l, length l = length (dishes_ st))) in Hl2;
      [| |by rewrite length_insert].
    2:{ intros l kv l' Hl Hstep. by eapply word_term_in_bounds. }
    inv_bind Hop as ? Hfin. inv_bind Hop as mx Hmx. simplify_eq.
    unfold normalize. by rewrite !length_fmap.
Qed.

Lemma move_word_in_bounds k_old k_new (n_kv : list (defaultdict F)) (kv : nat * N) :
  k_old < length n_kv → k_new < length n_kv →
  in_bounds (move_word k_old k_new n_kv kv).
Proof.
  intros Hold Hnew. unfold move_word.
  apply in_bounds_bind.
  { case_decide; [|apply in_bounds_Ok].
    apply in_bounds_bind; [by apply in_bounds_rd|]. intros d _. by apply in_bounds_wr. }
  intros n_kv1 Hn_kv1.
  assert (length n_kv1 = length n_kv) as Hlen.
  { case_decide; [|by simplify_eq]. inv_bind Hn_kv1 as d Hd.
    apply wr_Ok in Hn_kv1 as [_ ->]. by rewrite length_insert. }
  apply in_bounds_bind; [apply in_bounds_rd; lia|]. intros d _.
  apply in_bounds_wr. lia.
Qed.

Lemma seat_at_dish_in_bounds st j t k (krow : list nat) :
  well_formed st → bounded st → k_jt st !! j = Some krow → t < length krow →
  k < length (m_k st) →
  in_bounds (seat_at_dish st j t k).
Proof.
  intros Hwf Hb Hkrow Ht Hk.
  assert (j < length (k_jt st)) as Hj by by eapply lookup_lt_Some.
  destruct (doc_rows _ _ Hwf Hj)
    as (row & krow' & nrow & vrow & Hrow & Hkrow' & Hnrow & Hvrow & Hnlen & Hvlen & _).
  simplify_eq.
  destruct (lookup_lt_is_Some_2 krow t Ht) as [k_old Hk_old].
  destruct (lookup_lt_is_Some_2 nrow t ltac:(lia)) as [c Hc].
  destruct (lookup_lt_is_Some_2 vrow t ltac:(lia)) as [mp Hmp].
  pose proof (dish_in_range _ _ _ _ _ Hb Hkrow Hk_old) as Hold.
  unfold seat_at_dish.
  destruct (rd_is_Ok (m_k st) k Hk) as [mk ->]. rewrite bind_ret.
  rewrite wr_lt, bind_ret by done. cbn [k_jt set_m_k set_m n_jt n_jtv n_kv_].
  assert (rd2 (k_jt st) j t = Ok k_old) as -> by (apply rd2_Ok; eauto). rewrite bind_ret.
  case_decide; [|apply in_bounds_Ok].
  apply in_bounds_bind; [apply in_bounds_assert|]. intros _ _.
  apply in_bounds_bind; [by eapply in_bounds_wr2|]. intros k_jt' _.
  assert (rd2 (n_jt st) j t = Ok c) as -> by (apply rd2_Ok; eauto). rewrite bind_ret.
  assert (rd2 (n_jtv st) j t = Ok mp) as -> by (apply rd2_Ok; eauto). rewrite bind_ret.
  apply in_bounds_bind; [|intros; apply in_bounds_Ok].
  apply (in_bounds_foldR (λ l, length l = length (n_kv_ st))); [done|].
  intros l kv _ Hl. split.
  - apply move_word_in_bounds; rewrite Hl, (wf_n_kv _ Hwf); done.
  - intros l' Hstep. apply move_word_length in Hstep. congruence.
Qed.

Lemma sampling_k_safe st j t (row : list nat) :
  sampler_in_range → reachable st →
  using_t st !! j = Some row → t ∈ row → t ≠ 0 →
  in_bounds (sampling_k st j t).
Proof.
  intros Hsampler Hreach Hrow Hin Hne.
  destruct (reachable_invariant _ Hreach) as [Hwf Hseat].
  pose proof (reachable_bounded _ Hreach) as Hb.
  assert (j < length (k_jt st)) as Hj.
  { pose proof (Forall2_length _ _ _ (wf_tables _ Hwf)) as Hu.
    rewrite length_fmap in Hu. rewrite <-Hu. by eapply lookup_lt_Some. }
  destruct (doc_rows _ _ Hwf Hj) as (row' & krow & _ & _ & Hrow' & Hkrow & _ & _ & _ & _ & _ & Hr).
  simplify_eq. rewrite Forall_forall in Hr. pose proof (Hr _ Hin) as Ht.
  unfold sampling_k.
  apply in_bounds_bind; [by eapply leave_from_dish_in_bounds|]. intros st1 Hleave.
  assert (well_formed st1) as Hwf1.
  { eapply leave_from_dish_well_formed; [done| |done].
    apply (seat_active None st Hseat j row t Hrow Hin); [lia|done]. }
  destruct (leave_from_dish_bounded _ _ _ _ Hb Hleave) as [Hb1 _].
  pose proof (leave_from_dish_seating _ _ _ _ Hseat Hleave) as Hseat1.
  destruct (leave_from_dish_tables _ _ _ _ Hleave) as (Hu1 & _ & Hkj1).
  assert (∃ krow1, k_jt st1 !! j = Some krow1 ∧ t < length krow1) as (krow1 & Hkrow1 & Ht1).
  { destruct Hkj1 as [->|(krow0 & Hkrow0 & ->)]; [by exists krow|].
    simplify_eq. exists (<[t := 0]> krow). rewrite length_insert. split; [|done].
    apply list_lookup_insert_eq. by eapply lookup_lt_Some. }
  destruct (calc_dish_posterior_t_in_bounds st1 j t krow1 Hwf1 Hkrow1 Ht1) as [Hcalc Hlen].
  apply in_bounds_bind; [done|]. intros p_k Hp_k. specialize (Hlen _ Hp_k).
  apply in_bounds_bind; [apply in_bounds_validate|]. intros _ _.
  apply in_bounds_bind; [apply in_bounds_assert|]. intros _ _.
  set (draw := sample_discrete p_k (rng_ st1)).
  assert (draw.1 < length (dishes_ st1)) as Hdraw.
  { rewrite <-Hlen. apply Hsampler. intros ->.
    destruct (well_formed_counts _ Hwf1) as [_ Hd]. simpl in Hlen. lia. }
  destruct (lookup_lt_is_Some_2 _ _ Hdraw) as [k_new Hk].
  assert (rd (dishes_ (set_rng_ st1 draw.2)) draw.1 = Ok k_new) as -> by by apply rd_Ok.
  rewrite bind_ret.
  assert (well_formed (set_rng_ st1 draw.2)) as Hwf1' by by apply set_rng_well_formed.
  apply in_bounds_bind; [by apply drawn_dish_in_bounds|]. intros ks Hks.
  pose proof (drawn_dish_range _ _ _ Hwf1' ltac:(by eapply list_elem_of_lookup_2) Hks) as Hklt.
  destruct (drawn_dish_frame _ _ _ Hks) as (_ & _ & Hkj & _).
  destruct (drawn_dish_bounded _ _ _ (set_rng_bounded _ draw.2 Hb1) Hks) as [Hb2 _].
  apply (drawn_dish _ (Some (j, t))) in Hks as (Hwf2 & _ & _);
    [|done|by apply set_rng_seating].
  eapply seat_at_dish_in_bounds; [done|done| |done|done]. by rewrite Hkj.
Qed.

(** X14. From a reachable state, with a sampler that answers within the
    vector it is given, resampling a word that exists never reads or writes
    a vector out of its bounds: [sampling_t] returns, or stops at a failed
    assertion or at a probability vector that is not valid. *)
Theorem sampling_t_in_bounds st j i (row : list nat) :
  sampler_in_range → reachable st →
  x_ji st !! j = Some row → i < length row →
  in_bounds (sampling_t st j i).
Proof. apply sampling_t_safe. Qed.

(** X15. From a reachable state, with a sampler that answers within the
    vector it is given, resampling the dish of a real active table never
    reads or writes a vector out of its bounds: [sampling_k] returns, or
    stops at a failed assertion or at a probability vector that is not
    valid. *)
Theorem sampling_k_in_bounds st j t (row : list nat) :
  sampler_in_range → reachable st →
  using_t st !! j = Some row → t ∈ row → t ≠ 0 →
  in_bounds (sampling_k st j t).
Proof. apply sampling_k_safe. Qed.

(** X16. From a reachable state, with a sampler that answers within the
    vector it is given, a whole sweep never reads or writes a vector out of
    its bounds: [_inference] returns, or stops at a failed assertion or at
    a probability vector that is not valid. *)
Theorem sweep_in_bounds st :
  sampler_in_range → reachable st → in_bounds (_inference st).
Proof.
  intros Hsampler Hreach. unfold _inference.
  apply in_bounds_bind.
  - rewrite word_phase_order.
    apply (in_bounds_foldR (λ s, reachable s ∧ x_ji s = x_ji st)); [done|].
    intros s [j i] Hji [Hs Hx]. simpl. split.
    + apply elem_of_word_order in Hji as (row & Hrow & Hi). rewrite <-Hx in Hrow.
      by eapply sampling_t_safe.
    + intros s' Hstep. split; [by eapply reach_sampling_t|].
      by rewrite (sampling_t_x_ji _ _ _ _ Hstep).
  - intros st1 Hword. pose proof (word_phase_reachable _ _ Hreach Hword) as Hreach1.
    destruct (reachable_invariant _ Hreach1) as [Hwf1 _].
    rewrite table_phase_order by by apply well_formed_docs, reachable_bounded.
    apply (in_bounds_foldR (λ s, reachable s ∧ using_t s = using_t st1)); [done|].
    intros s [j t] Hjt [Hs Hu]. simpl. split.
    + apply elem_of_table_order in Hjt as (row & Hrow & Ht & Hne). rewrite <-Hu in Hrow.
      by eapply sampling_k_safe.
    + intros s' Hstep. apply elem_of_table_order in Hjt as (row & Hrow & Ht & Hne).
      split.
      * eapply reach_sampling_k; [done| | | |done]; [by rewrite Hu|done|done].
      * apply sampling_k_frame in Hstep as [-> _]. done.
Qed.

End Bounds.

(** * Single operations *)

Section Operations.
Context {F R : Type} `{Build} `{FloatOps F} `{SpecialFns F} `{Sampler F R}.
Implicit Types (st : state F R) (j i t k : nat).

(** X17. Taking a table off its dish and seating it at the same dish
    again gives the state back as it was, when the dish has another table
    and so survives [leave_from_dish]. *)
Theorem leave_seat_round_trip st j t k (mk : N) :
  rd2 (k_jt st) j t = Ok k → 0 < k → m_k st !! k = Some mk →
  (1 < mk)%N → is_size mk → is_size (m st) →
  ∃ st1, leave_from_dish st j t = Ok st1 ∧ seat_at_dish st1 j t k = Ok st.
Proof.
  intros Hk Hkpos Hmk Hmany Hsz Hm.
  pose proof (lookup_lt_Some _ _ _ Hmk) as Hklt.
  assert (sz_dec mk ≠ 0%N) as Hleft.
  { rewrite sz_dec_zero_iff by done. lia. }
  eexists. split.
  - unfold leave_from_dish. rewrite Hk, bind_ret.
    rewrite assert_true, bind_ret by by apply bool_decide_eq_true_2.
    pose proof Hmk as Hrd. apply rd_Ok in Hrd as ->. rewrite bind_ret.
    rewrite assert_true, bind_ret by (apply bool_decide_eq_true_2; lia).
    rewrite wr_lt, bind_ret by done. rewrite decide_False by done. reflexivity.
  - unfold seat_at_dish. cbn [m_k set_m set_m_k m k_jt].
    assert (rd (<[k := sz_dec mk]> (m_k st)) k = Ok (sz_dec mk)) as ->.
    { apply rd_Ok. by apply list_lookup_insert_eq. }
    rewrite bind_ret. rewrite (wr_lt (<[k := sz_dec mk]> (m_k st))) by (rewrite length_insert; exact Hklt).
    rewrite bind_ret.
    cbn [m_k set_m set_m_k m k_jt]. rewrite Hk, bind_ret.
    rewrite decide_False by (intros Hne; by apply Hne).
    rewrite list_insert_insert_eq, !sz_inc_dec by done.
    rewrite (list_insert_id (m_k st) k mk) by done. by destruct st.
Qed.

(** X18. On a well-formed state [create_dish] always succeeds, and the
    dish it returns starts empty whether its id is new or recycled: no
    table ([m_k[k] = 0]), [n_k[k] = beta * V], and a fresh counter
    [n_kv_[k]] with default value [beta]. The counters of every other dish
    and the table count [m] are as they were. *)
Theorem create_dish_fresh_counters st :
  well_formed st →
  ∃ k st', create_dish st = Ok (k, st') ∧ lowest_unused k (dishes_ st) ∧
           m_k st' !! k = Some 0%N ∧
           n_kv_ st' !! k = Some (dd_new (beta_ st)) ∧
           dd_get (n_k st') k = f_mul (beta_ st) (f_of_size (V st)) ∧
           m st' = m st ∧
           ∀ k', k' ≠ k → k' < length (m_k st) →
                 m_k st' !! k' = m_k st !! k' ∧ n_kv_ st' !! k' = n_kv_ st !! k' ∧
                 dd_get (n_k st') k' = dd_get (n_k st) k'.
Proof.
  intros Hwf. destruct (create_dish_spec _ Hwf) as (st' & Hcd & _ & _ & _ & _).
  exists (first_free (dishes_ st)), st'. split; [done|].
  split; [by apply first_free_lowest, (wf_dishes _ Hwf)|].
  remember (first_free (dishes_ st)) as k eqn:Hkdef.
  unfold create_dish in Hcd. rewrite <-Hkdef in Hcd.
  inv_bind Hcd as st1 Hst1. inv_bind Hcd as dishes' Hins. inv_bind Hcd as n_kv' Hwkv.
  inv_bind Hcd as m_k' Hwm. injection Hcd as <-.
  apply wr_Ok in Hwkv as [Hk1 ->]. apply wr_Ok in Hwm as [Hk2 ->].
  assert (beta_ st1 = beta_ st ∧ V st1 = V st ∧ m st1 = m st ∧ n_k st1 = n_k st ∧
          ∀ k', k' < length (m_k st) →
                m_k st1 !! k' = m_k st !! k' ∧ n_kv_ st1 !! k' = n_kv_ st !! k')
    as (Hbeta & HV & Hm & Hnk & Hrest).
  { case_decide; [|by simplify_eq].
    inv_bind Hst1 as m0 Hm0. inv_bind Hst1 as b Hb. inv_bind Hst1 as ? Ha1.
    inv_bind Hst1 as ? Ha2. injection Hst1 as <-. simpl.
    split; [done|]. split; [done|]. split; [done|]. split; [done|].
    intros k' Hlt. split.
    - by rewrite lookup_app_l.
    - rewrite lookup_app_l; [done|]. by rewrite (wf_n_kv _ Hwf). }
  simpl. rewrite Hbeta, HV, Hm, Hnk. split; [by apply list_lookup_insert_eq|].
  split; [by apply list_lookup_insert_eq|]. split.
  - unfold dd_get, dd_set. simpl. by rewrite lookup_insert_eq.
  - split; [done|]. intros k' Hne Hlt. destruct (Hrest _ Hlt) as [<- <-].
    rewrite !list_lookup_insert_ne by done. split; [done|]. split; [done|].
    unfold dd_get, dd_set. simpl. by rewrite lookup_insert_ne.
Qed.

(** X19. A sweep over documents that hold no word, or over no document at
    all, does nothing: [_inference] returns the state the constructor
    built, its generator untouched. *)
Theorem sweep_without_words def (alpha beta gamma : F) (docs : list (list nat)) (rng : R) :
  Forall (λ doc, doc = []) docs →
  _inference (initialize def alpha beta gamma docs rng) =
    Ok (initialize def alpha beta gamma docs rng).
Proof.
  intros Hempty. set (st := initialize def alpha beta gamma docs rng).
  assert (word_order (x_ji st) = []) as Hwords.
  { apply elem_of_nil_inv. intros [j i] Hji.
    apply elem_of_word_order in Hji as (row & Hrow & Hi). simpl in Hrow.
    rewrite Forall_forall in Hempty.
    rewrite (Hempty row) in Hi by by eapply list_elem_of_lookup_2. simpl in Hi. lia. }
  assert (table_order (using_t st) = []) as Htables.
  { apply elem_of_nil_inv. intros [j t] Hjt.
    apply elem_of_table_order in Hjt as (row & Hrow & Ht & Hne). simpl in Hrow.
    apply list_lookup_fmap_Some in Hrow as (doc & -> & _).
    apply list_elem_of_singleton in Ht. done. }
  unfold _inference. rewrite word_phase_order, Hwords. simpl.
  rewrite table_phase_order by (simpl; by rewrite length_fmap).
  by rewrite Htables.
Qed.

End Operations.

(** * The further properties on examples *)

Lemma state_one_word_reachable : reachable state_one_word.
Proof.
  apply (reach_sampling_t (state_A [0; 0]) 0 0); [apply reach_initialize|vm_compute; reflexivity].
Qed.

Lemma first_sampler_in_range {F} : @sampler_in_range F unit first_sampler.
Proof. intros p r Hp. destruct p; [done|]. simpl. lia. Qed.

Lemma reachable_ids_in_order_witness :
  reachable state_one_word ∧ well_formed state_one_word.
Proof.
  split; [apply state_one_word_reachable|].
  apply (reachable_ids_in_order state_one_word). apply state_one_word_reachable.
Defined.

Lemma reachable_tables_bear_dishes_witness :
  reachable state_one_word ∧ seating None state_one_word.
Proof.
  split; [apply state_one_word_reachable|].
  apply (reachable_tables_bear_dishes state_one_word). apply state_one_word_reachable.
Defined.

Lemma reachable_indices_bounded_witness :
  reachable state_one_word ∧ bounded state_one_word.
Proof.
  split; [apply state_one_word_reachable|].
  apply (reachable_indices_bounded state_one_word). apply state_one_word_reachable.
Defined.

Lemma sweep_reachable_witness :
  reachable (state_A []) ∧ _inference (state_A []) = Ok state_A_swept ∧
  reachable state_A_swept.
Proof.
  split; [apply reach_initialize|]. split; [vm_compute; reflexivity|].
  apply (sweep_reachable (state_A []) state_A_swept);
    [apply reach_initialize|vm_compute; reflexivity].
Defined.

Lemma sweep_keeps_parameters_witness :
  reachable (state_A []) ∧ _inference (state_A []) = Ok state_A_swept ∧
  same_params (state_A []) state_A_swept.
Proof.
  split; [apply reach_initialize|]. split; [vm_compute; reflexivity|].
  apply (sweep_keeps_parameters (state_A []) state_A_swept);
    [apply reach_initialize|vm_compute; reflexivity].
Defined.

Lemma sampling_t_seats_word_witness :
  reachable (state_A [0; 0]) ∧ sampling_t (state_A [0; 0]) 0 0 = Ok state_one_word ∧
  seated state_one_word 0 0.
Proof.
  split; [apply reach_initialize|]. split; [vm_compute; reflexivity|].
  apply (sampling_t_seats_word (state_A [0; 0]) 0 0 state_one_word);
    [apply reach_initialize|vm_compute; reflexivity].
Defined.

Lemma sweep_assigns_every_word_witness :
  reachable (state_A []) ∧ _inference (state_A []) = Ok state_A_swept ∧
  x_ji (state_A []) !! 2 = Some [0; 1; 5; 6] ∧ 3 < length [0; 1; 5; 6] ∧
  ∃ t k, rd2 (t_ji state_A_swept) 2 3 = Ok t ∧ 0 < t ∧
         rd2 (k_jt state_A_swept) 2 t = Ok k ∧ 0 < k.
Proof.
  split; [apply reach_initialize|]. split; [vm_compute; reflexivity|].
  split; [reflexivity|]. split; [simpl; lia|].
  apply (sweep_assigns_every_word (state_A []) state_A_swept 2 3 [0; 1; 5; 6]);
    [apply reach_initialize|vm_compute; reflexivity|reflexivity|simpl; lia].
Defined.

Lemma wordDist_spec_witness :
  reachable state_one_word ∧
  ∃ vec, wordDist state_one_word = Ok vec ∧
         length vec + 1 = length (dishes_ state_one_word) ∧
         ∀ n k, dishes_ state_one_word !! S n = Some k →
                ∃ d row, n_kv_ state_one_word !! k = Some d ∧ vec !! n = Some row ∧
                         ∀ v, row !! v =
                              if decide (v < N.to_nat (V state_one_word))
                              then Some (f_div (dd_get d v) (dd_get (n_k state_one_word) k))
                              else None.
Proof.
  split; [apply state_one_word_reachable|].
  apply (wordDist_spec state_one_word). apply state_one_word_reachable.
Defined.

Lemma sampling_t_in_bounds_witness :
  @sampler_in_range spec_float unit first_sampler ∧
  @reachable spec_float unit _ _ _ first_sampler state_A_first ∧
  x_ji state_A_first !! 1 = Some [0; 1; 4; 5] ∧ 2 < length [0; 1; 4; 5] ∧
  in_bounds (@sampling_t spec_float unit _ _ first_sampler state_A_first 1 2).
Proof.
  split; [apply first_sampler_in_range|]. split; [apply reach_initialize|].
  split; [reflexivity|]. split; [simpl; lia|].
  apply (@sampling_t_in_bounds spec_float unit _ _ _ first_sampler state_A_first 1 2
           [0; 1; 4; 5]);
    [apply first_sampler_in_range|apply reach_initialize|reflexivity|simpl; lia].
Defined.

Lemma state_first_word_reachable :
  @reachable spec_float unit _ _ _ first_sampler state_first_word.
Proof.
  apply (@reach_sampling_t spec_float unit _ _ _ first_sampler state_A_first 0 0);
    [apply reach_initialize|vm_compute; reflexivity].
Qed.

Lemma sampling_k_in_bounds_witness :
  @sampler_in_range spec_float unit first_sampler ∧
  @reachable spec_float unit _ _ _ first_sampler state_first_word ∧
  using_t state_first_word !! 0 = Some [0; 1] ∧ 1 ∈ [0; 1] ∧ 1 ≠ 0 ∧
  in_bounds (@sampling_k spec_float unit _ _ _ first_sampler state_first_word 0 1).
Proof.
  split; [apply first_sampler_in_range|]. split; [apply state_first_word_reachable|].
  split; [vm_compute; reflexivity|]. split; [by right; left|]. split; [done|].
  apply (@sampling_k_in_bounds spec_float unit _ _ _ first_sampler state_first_word 0 1
           [0; 1]);
    [apply first_sampler_in_range|apply state_first_word_reachable|vm_compute; reflexivity
    |by right; left|done].
Defined.

Lemma sweep_in_bounds_witness :
  @sampler_in_range spec_float unit first_sampler ∧
  @reachable spec_float unit _ _ _ first_sampler state_A_first ∧
  in_bounds (@_inference spec_float unit _ _ _ first_sampler state_A_first).
Proof.
  split; [apply first_sampler_in_range|]. split; [apply reach_initialize|].
  apply (@sweep_in_bounds spec_float unit _ _ _ first_sampler state_A_first);
    [apply first_sampler_in_range|apply reach_initialize].
Defined.

Lemma leave_seat_round_trip_witness :
  rd2 (k_jt state_shared_dish) 0 1 = Ok 1 ∧ 0 < 1 ∧
  m_k state_shared_dish !! 1 = Some 2%N ∧ (1 < 2)%N ∧ is_size 2 ∧
  is_size (m state_shared_dish) ∧
  ∃ st1, leave_from_dish state_shared_dish 0 1 = Ok st1 ∧
         seat_at_dish st1 0 1 1 = Ok state_shared_dish.
Proof.
  split; [vm_compute; reflexivity|]. split; [lia|]. split; [vm_compute; reflexivity|].
  split; [lia|]. split; [vm_compute; reflexivity|]. split; [vm_compute; reflexivity|].
  apply (leave_seat_round_trip state_shared_dish 0 1 1 2);
    [vm_compute; reflexivity|lia|vm_compute; reflexivity|lia|vm_compute; reflexivity
    |vm_compute; reflexivity].
Defined.

Lemma create_dish_fresh_counters_witness :
  well_formed state_one_word ∧
  ∃ k st', create_dish state_one_word = Ok (k, st') ∧
           lowest_unused k (dishes_ state_one_word) ∧
           m_k st' !! k = Some 0%N ∧
           n_kv_ st' !! k = Some (dd_new (beta_ state_one_word)) ∧
           dd_get (n_k st') k =
             f_mul (beta_ state_one_word) (f_of_size (V state_one_word)) ∧
           m st' = m state_one_word ∧
           ∀ k', k' ≠ k → k' < length (m_k state_one_word) →
                 m_k st' !! k' = m_k state_one_word !! k' ∧
                 n_kv_ st' !! k' = n_kv_ state_one_word !! k' ∧
                 dd_get (n_k st') k' = dd_get (n_k state_one_word) k'.
Proof.
  split; [apply reachable_invariant, state_one_word_reachable|].
  apply (create_dish_fresh_counters state_one_word).
  apply reachable_invariant, state_one_word_reachable.
Defined.

Lemma sweep_without_words_witness :
  Forall (λ doc : list nat, doc = []) [[]; []] ∧
  _inference state_no_words = Ok state_no_words.
Proof.
  split; [by repeat constructor|].
  apply (sweep_without_words (Model_definition 2 7) (b32 1 5) (b32 1 100) (b32 1 2)
           [[]; []] []).
  by repeat constructor.
Defined.

